(** * HotDrink property model ([hd.system.PropertyModel], pm.ts)

    A shallow embedding of the update loop of the constraint system:
    the registries, the refcounted outputs, touch promotion, the
    change records and the update cycle (updateModel / plan /
    evaluate), with the properties the specification states about
    them. *)

From Stdlib Require Import ssreflect.
#[local] Set Warnings "-rewrite-rw,-clear-no-such-hyp,-level-tolerance".
From stdpp Require Import gmap strings list fin_maps sorting.

Local Open Scope list_scope.

(** ** Results of calls that may throw

    A property access through [null] or [undefined], and a call of
    what is no function, throws a [TypeError] in JavaScript; loops
    whose bound is not structural
    are run on fuel, and [OutOfFuel] is kept apart from a throw so
    that running dry is never mistaken for one. *)

Inductive outcome (A : Type) : Type :=
| Done (a : A)
| TypeError
| OutOfFuel.
Arguments Done {A} a.
Arguments TypeError {A}.
Arguments OutOfFuel {A}.

#[global] Instance outcome_ret : MRet outcome := λ A a, Done a.
#[global] Instance outcome_bind : MBind outcome := λ A B f m,
  match m with
  | Done a => f a
  | TypeError => TypeError
  | OutOfFuel => OutOfFuel
  end.

Definition is_Done {A} (m : outcome A) : Prop := ∃ a, m = Done a.

(** ** The model layer ([hd.model]) as the property model reads it *)

(** [m.Optional]: the enum is declared [Default, Min, Max], so
    [Default] is the falsy member. *)
Inductive Optional : Type := Default | Min | Max.

#[global] Instance Optional_eq_dec : EqDecision Optional.
Proof. solve_decision. Defined.

Definition optional_truthy (o : Optional) : bool :=
  match o with Default => false | _ => true end.

(** A variable object ([m.Variable]).  [v_pending] and [v_source] stand for the
    signals [vv.pending] and [vv.source]. *)
Record VariableObj : Type := mkVariable {
  v_id : string;
  v_optional : Optional;
  v_pending : bool;
  v_source : bool
}.

(** A method object; [inputVars] and [outputs] are kept as the ids
    that [u.getId] extracts. *)
Record Method : Type := mkMethod {
  m_id : string;
  m_inputVars : list string;
  m_outputs : list string
}.

Record ConstraintObj : Type := mkConstraint {
  c_id : string;
  c_optional : Optional;
  c_methods : list Method
}.

(** An endpoint of a touch dependency: [m.Constraint | m.Variable],
    told apart by [instanceof]. *)
Inductive Endpoint : Type :=
| OfVariable (vid : string)
| OfConstraint (cid : string).

(** The elements a context reports; [updateModel] dispatches on
    [Constraint], [Output] and [TouchDep] and skips everything else. *)
Inductive Element : Type :=
| ElConstraint (cc : ConstraintObj)
| ElOutput (vid : string)
| ElTouchDep (from to : Endpoint)
| ElOther.

Record ComponentChanges : Type := mkChanges {
  adds : list Element;
  removes : list Element
}.

Inductive VariableEventType : Type := touched | changed | pending | settled.

Record VariableEvent : Type := mkEvent {
  ev_type : VariableEventType;
  ev_vv : string
}.

(** ** [u.arraySet] on lists *)

Module arraySet.

(** Modelled from the spec: [hd.utility] is not among the sources.
    [add] appends an element that is not yet a member. *)
Definition add (l : list string) (x : string) : list string :=
  if bool_decide (x ∈ l) then l else l ++ [x].

(** Modelled from the spec: [hd.utility] is not among the sources.
    [remove] takes out the element's occurrence. *)
Fixpoint remove (l : list string) (x : string) : list string :=
  match l with
  | [] => []
  | y :: l' => if bool_decide (y = x) then l' else y :: remove l' x
  end.

End arraySet.

(** ** The planner's strength order ([hd.plan])

    The planner classes are not among the sources; section 3 of the
    specification gives the strength order as a total order over
    constraint ids with [setMaxStrength], [setMinStrength],
    [compare] and the snapshot [getOptionals]/[setOptionals]. *)

Module Planner.

(** Modelled from the spec: the strength order, as the list of the
    optional constraint ids from the weakest to the strongest.  An
    id outside the list is a required constraint. *)
Record t : Type := mk { strengths : list string }.

Definition without (cid : string) (l : list string) : list string :=
  filter (λ c, c ≠ cid) l.

(** Modelled from the spec: [removeOptional] takes the id out of
    the order. *)
Definition removeOptional (p : t) (cid : string) : t :=
  mk (without cid (strengths p)).

(** Modelled from the spec: [setMaxStrength] moves the id to the
    strongest end. *)
Definition setMaxStrength (p : t) (cid : string) : t :=
  mk (without cid (strengths p) ++ [cid]).

(** Modelled from the spec: [setMinStrength] moves the id to the
    weakest end. *)
Definition setMinStrength (p : t) (cid : string) : t :=
  mk (cid :: without cid (strengths p)).

(** Modelled from the spec: [getOptionals] is the snapshot of the
    order. *)
Definition getOptionals (p : t) : list string := strengths p.

(** Modelled from the spec: [setOptionals] installs a snapshot by
    moving its ids, in their order, to the strongest end, so that
    on a fresh planner it restores what [getOptionals] returned. *)
Definition setOptionals (p : t) (order : list string) : t :=
  foldl setMaxStrength p order.

Fixpoint rank_in (l : list string) (cid : string) : nat :=
  match l with
  | [] => 0
  | c :: l' => if bool_decide (c = cid) then 0 else S (rank_in l' cid)
  end.

(** The position in the order; a required constraint ranks above
    every optional one. *)
Definition rank (p : t) (cid : string) : nat := rank_in (strengths p) cid.

(** Modelled from the spec: [compare] is the difference of the
    ranks, negative when the first id is the weaker one. *)
Definition compare (p : t) (cid1 cid2 : string) : Z :=
  (Z.of_nat (rank p cid1) - Z.of_nat (rank p cid2))%Z.

(** [a] is strictly stronger than [b]. *)
Definition stronger (p : t) (a b : string) : Prop := (0 < compare p a b)%Z.

End Planner.

(** ** The constraint graph ([hd.graph])

    The graph classes are not among the sources; section 4.1 of the
    specification gives a bipartite graph of variables and methods,
    each method belonging to one constraint, whose mutations are
    idempotent on re-adds of the same id and do nothing on unknown
    ids, and in which a constraint lasts as long as one of its
    methods. *)

Module CGraph.

Record MethodEntry : Type := mkEntry {
  me_cid : string;
  me_inputs : list string;
  me_outputs : list string
}.

(** Modelled from the spec: the variable nodes, and the method
    nodes with their constraint, inputs and outputs. *)
Record t : Type := mk {
  vars : gset string;
  meths : gmap string MethodEntry
}.

Definition empty : t := mk ∅ ∅.

(** Modelled from the spec: [addVariable(vid)]. *)
Definition addVariable (g : t) (vid : string) : t :=
  mk ({[vid]} ∪ vars g) (meths g).

(** Modelled from the spec: [removeVariable(vid)]. *)
Definition removeVariable (g : t) (vid : string) : t :=
  mk (vars g ∖ {[vid]}) (meths g).

(** Modelled from the spec: [addMethod(mid, cid, inputs, outputs)],
    which does nothing when [mid] is already a method of the
    graph. *)
Definition addMethod (g : t) (mid cid : string) (ins outs : list string) : t :=
  match meths g !! mid with
  | Some _ => g
  | None => mk (vars g) (<[mid := mkEntry cid ins outs]> (meths g))
  end.

(** Modelled from the spec: [removeMethod(mid)]. *)
Definition removeMethod (g : t) (mid : string) : t :=
  mk (vars g) (delete mid (meths g)).

(** Modelled from the spec: [constraintForMethod(mid)]. *)
Definition constraintForMethod (g : t) (mid : string) : option string :=
  me_cid <$> meths g !! mid.


(** Modelled from the spec: [constraints()]. *)
Definition constraints (g : t) : gset string :=
  list_to_set ((λ kv, me_cid kv.2) <$> map_to_list (meths g)).

(** Modelled from the spec: constraints-using(v), the constraints
    owning a method that reads or writes [vid]. *)
Definition constraintsUsing (g : t) (vid : string) : list string :=
  elements (list_to_set (C := gset string)
    ((λ kv, me_cid kv.2) <$>
       filter (λ kv, vid ∈ me_inputs kv.2 ∨ vid ∈ me_outputs kv.2)
              (map_to_list (meths g)))).

End CGraph.

(** ** The solution graph

    Also of [hd.graph]; only the calls [pm.ts] makes are given. *)

Module SGraph.

(** Modelled from the spec: the selected subgraph of the constraint
    graph together with the selection, constraint id to method
    id. *)
Record t : Type := mk {
  graph : CGraph.t;
  selected : gmap string string
}.

(** Modelled from the spec: [selectedForConstraint(cid)]. *)
Definition selectedForConstraint (sg : t) (cid : string) : option string :=
  selected sg !! cid.

(** Modelled from the spec: [variables()]. *)
Definition variables (sg : t) : list string := elements (CGraph.vars (graph sg)).

(** Modelled from the spec: [selectMethod(cid, null)], which drops
    the selection of [cid] and its method. *)
Definition unselectMethod (sg : t) (cid : string) : t :=
  match selected sg !! cid with
  | Some mid => mk (CGraph.removeMethod (graph sg) mid) (delete cid (selected sg))
  | None => sg
  end.

End SGraph.

(** ** Plain objects used as dictionaries

    The registries of [pm.ts] are created as [{}] and indexed by
    id.  Such an object answers for its own properties, which are
    the keys of the maps below, and for the names it inherits from
    [Object.prototype]: for those [id in obj] is true and
    [obj[id]] is the inherited member, which is truthy, is no
    number and is no array. *)

Definition objectPrototype : list string :=
  ["constructor"; "hasOwnProperty"; "isPrototypeOf"; "propertyIsEnumerable";
   "toLocaleString"; "toString"; "valueOf"; "__defineGetter__";
   "__defineSetter__"; "__lookupGetter__"; "__lookupSetter__";
   "__proto__"]%string.

Definition inherited (id : string) : bool := bool_decide (id ∈ objectPrototype).

(** [id in obj] *)
Definition hasProperty {A : Type} (obj : gmap string A) (id : string) : bool :=
  bool_decide (is_Some (obj !! id)) || inherited id.

(** A plain object used as a set of strings, as [needEnforcing],
    [needEvaluating] and the local sets of [doPromotions] and
    [evaluate] are: the members are the own properties.
    [set[id] = true] makes [id] one, except that the setter of
    [__proto__] drops the value; [set[id]] is truthy for an own
    property and for an inherited name. *)
Definition stringSet_add (id : string) (set : gset string) : gset string :=
  if bool_decide (id = "__proto__"%string) then set else {[id]} ∪ set.

Definition stringSet_has (set : gset string) (id : string) : bool :=
  bool_decide (id ∈ set) || inherited id.

(** A number stored in [outputVids]: a count, or [NaN], which is
    what [++] makes of an inherited member. *)
Inductive Count : Type :=
| Num (n : nat)
| NaN.

(** ** Collaborators that are not among the sources

    The stay-id helpers of [hd.graph], the query
    [constraintsWhichUse], the planning algorithm, the topological
    sort, the digraph walker and the configuration flag are taken as
    parameters of the development; so are two things the sources
    leave open: what [u.arraySet] does when it is handed an
    inherited member instead of an array, and which outputs a
    method leaves pending when it is activated. *)

Class Externals : Type := {
  stayMethod : string → string;
  stayConstraint : string → string;
  isStayConstraint : string → bool;
  isNotStayMethod : string → bool;
  constraintsWhichUse : CGraph.t → string → list string;
  (** [planner.plan(sgraph, cids)] followed by [planner.getSGraph()],
      on the constraint graph the planner was constructed with:
      [None] is the answer [false]. *)
  planner_plan : CGraph.t → Planner.t → option SGraph.t → list string → option SGraph.t;
  (** [toposort(topograph(cgraph, sgraph), planner)] *)
  toposort : CGraph.t → SGraph.t → Planner.t → list string;
  nodesDownstreamOtherType : SGraph.t → list string → list string;
  nodesDownstreamSameType : SGraph.t → list string → list string;
  forwardEmergingSources : bool;
  (** whether [u.arraySet.add], handed something that is no array,
      throws (it returns otherwise) *)
  arraySetAddThrows : bool;
  (** the same for [u.arraySet.remove] *)
  arraySetRemoveThrows : bool;
  (** Modelled from the spec: the outputs that [activate()] of the
      method leaves pending (section 4.4: an asynchronous method
      installs promises that mark its outputs pending); none for a
      synchronous method.  Each sends a [pending] event. *)
  pendingOutputs : string → list string
}.

(** Calls the property model makes on objects it does not own, in
    the order it makes them. *)
Inductive Call : Type :=
| ReportUpdates (ctx : string)
| Activate (mid : string)
| MethodScheduled (cid : option string) (mid : option string)
| CommitPromise (vid : string)
| MakeForwardedPromise (vid : string)
| Schedule.

(** ** The state of a [PropertyModel]

    The fields of the class, then the two pieces of the outside
    world its methods act on: what each context object will answer
    to [reportUpdates] (contexts are held by reference, here by id)
    and the log of outgoing calls.  The planner is the one the
    constructor builds from its default argument; [solved] is the
    value last set on the signal; the dictionaries hold the own
    properties, keyed by id. *)

Record PropertyModel : Type := mkPM {
  cgraph : CGraph.t;
  sgraph : option SGraph.t;
  topomids : list string;
  planner : Planner.t;
  variables : gmap string VariableObj;
  methods : gmap string Method;
  constraints : gmap string ConstraintObj;
  scheduleUpdateOnChange : bool;
  isUpdateScheduled : bool;
  solved : bool;
  pendingCount : nat;
  needUpdating : list string;
  needEnforcing : gset string;
  needEvaluating : gset string;
  isUpdateNeeded : bool;
  touchDeps : gmap string (list string);
  outputVids : gmap string Count;
  hasOptionals : bool;
  ctxUpdates : gmap string ComponentChanges;
  calls : list Call
}.

(** The state the constructor and the field initialisers leave. *)
Definition newPropertyModel : PropertyModel :=
  mkPM CGraph.empty None [] (Planner.mk []) ∅ ∅ ∅ true false true 0
       [] ∅ ∅ false ∅ ∅ false ∅ [].

Definition set_cgraph (s : PropertyModel) (x : CGraph.t) : PropertyModel :=
  mkPM x (sgraph s) (topomids s) (planner s) (variables s) (methods s)
    (constraints s) (scheduleUpdateOnChange s) (isUpdateScheduled s) (solved s)
    (pendingCount s) (needUpdating s) (needEnforcing s) (needEvaluating s)
    (isUpdateNeeded s) (touchDeps s) (outputVids s) (hasOptionals s)
    (ctxUpdates s) (calls s).

Definition set_sgraph (s : PropertyModel) (x : option SGraph.t) : PropertyModel :=
  mkPM (cgraph s) x (topomids s) (planner s) (variables s) (methods s)
    (constraints s) (scheduleUpdateOnChange s) (isUpdateScheduled s) (solved s)
    (pendingCount s) (needUpdating s) (needEnforcing s) (needEvaluating s)
    (isUpdateNeeded s) (touchDeps s) (outputVids s) (hasOptionals s)
    (ctxUpdates s) (calls s).

Definition set_topomids (s : PropertyModel) (x : list string) : PropertyModel :=
  mkPM (cgraph s) (sgraph s) x (planner s) (variables s) (methods s)
    (constraints s) (scheduleUpdateOnChange s) (isUpdateScheduled s) (solved s)
    (pendingCount s) (needUpdating s) (needEnforcing s) (needEvaluating s)
    (isUpdateNeeded s) (touchDeps s) (outputVids s) (hasOptionals s)
    (ctxUpdates s) (calls s).

Definition set_planner (s : PropertyModel) (x : Planner.t) : PropertyModel :=
  mkPM (cgraph s) (sgraph s) (topomids s) x (variables s) (methods s)
    (constraints s) (scheduleUpdateOnChange s) (isUpdateScheduled s) (solved s)
    (pendingCount s) (needUpdating s) (needEnforcing s) (needEvaluating s)
    (isUpdateNeeded s) (touchDeps s) (outputVids s) (hasOptionals s)
    (ctxUpdates s) (calls s).

Definition set_variables (s : PropertyModel) (x : gmap string VariableObj) : PropertyModel :=
  mkPM (cgraph s) (sgraph s) (topomids s) (planner s) x (methods s)
    (constraints s) (scheduleUpdateOnChange s) (isUpdateScheduled s) (solved s)
    (pendingCount s) (needUpdating s) (needEnforcing s) (needEvaluating s)
    (isUpdateNeeded s) (touchDeps s) (outputVids s) (hasOptionals s)
    (ctxUpdates s) (calls s).

Definition set_methods (s : PropertyModel) (x : gmap string Method) : PropertyModel :=
  mkPM (cgraph s) (sgraph s) (topomids s) (planner s) (variables s) x
    (constraints s) (scheduleUpdateOnChange s) (isUpdateScheduled s) (solved s)
    (pendingCount s) (needUpdating s) (needEnforcing s) (needEvaluating s)
    (isUpdateNeeded s) (touchDeps s) (outputVids s) (hasOptionals s)
    (ctxUpdates s) (calls s).

Definition set_constraints (s : PropertyModel) (x : gmap string ConstraintObj) : PropertyModel :=
  mkPM (cgraph s) (sgraph s) (topomids s) (planner s) (variables s) (methods s)
    x (scheduleUpdateOnChange s) (isUpdateScheduled s) (solved s)
    (pendingCount s) (needUpdating s) (needEnforcing s) (needEvaluating s)
    (isUpdateNeeded s) (touchDeps s) (outputVids s) (hasOptionals s)
    (ctxUpdates s) (calls s).

Definition set_isUpdateScheduled (s : PropertyModel) (x : bool) : PropertyModel :=
  mkPM (cgraph s) (sgraph s) (topomids s) (planner s) (variables s) (methods s)
    (constraints s) (scheduleUpdateOnChange s) x (solved s)
    (pendingCount s) (needUpdating s) (needEnforcing s) (needEvaluating s)
    (isUpdateNeeded s) (touchDeps s) (outputVids s) (hasOptionals s)
    (ctxUpdates s) (calls s).

Definition set_solved (s : PropertyModel) (x : bool) : PropertyModel :=
  mkPM (cgraph s) (sgraph s) (topomids s) (planner s) (variables s) (methods s)
    (constraints s) (scheduleUpdateOnChange s) (isUpdateScheduled s) x
    (pendingCount s) (needUpdating s) (needEnforcing s) (needEvaluating s)
    (isUpdateNeeded s) (touchDeps s) (outputVids s) (hasOptionals s)
    (ctxUpdates s) (calls s).

Definition set_pendingCount (s : PropertyModel) (x : nat) : PropertyModel :=
  mkPM (cgraph s) (sgraph s) (topomids s) (planner s) (variables s) (methods s)
    (constraints s) (scheduleUpdateOnChange s) (isUpdateScheduled s) (solved s)
    x (needUpdating s) (needEnforcing s) (needEvaluating s)
    (isUpdateNeeded s) (touchDeps s) (outputVids s) (hasOptionals s)
    (ctxUpdates s) (calls s).

Definition set_needUpdating (s : PropertyModel) (x : list string) : PropertyModel :=
  mkPM (cgraph s) (sgraph s) (topomids s) (planner s) (variables s) (methods s)
    (constraints s) (scheduleUpdateOnChange s) (isUpdateScheduled s) (solved s)
    (pendingCount s) x (needEnforcing s) (needEvaluating s)
    (isUpdateNeeded s) (touchDeps s) (outputVids s) (hasOptionals s)
    (ctxUpdates s) (calls s).

Definition set_needEnforcing (s : PropertyModel) (x : gset string) : PropertyModel :=
  mkPM (cgraph s) (sgraph s) (topomids s) (planner s) (variables s) (methods s)
    (constraints s) (scheduleUpdateOnChange s) (isUpdateScheduled s) (solved s)
    (pendingCount s) (needUpdating s) x (needEvaluating s)
    (isUpdateNeeded s) (touchDeps s) (outputVids s) (hasOptionals s)
    (ctxUpdates s) (calls s).

Definition set_needEvaluating (s : PropertyModel) (x : gset string) : PropertyModel :=
  mkPM (cgraph s) (sgraph s) (topomids s) (planner s) (variables s) (methods s)
    (constraints s) (scheduleUpdateOnChange s) (isUpdateScheduled s) (solved s)
    (pendingCount s) (needUpdating s) (needEnforcing s) x
    (isUpdateNeeded s) (touchDeps s) (outputVids s) (hasOptionals s)
    (ctxUpdates s) (calls s).

Definition set_isUpdateNeeded (s : PropertyModel) (x : bool) : PropertyModel :=
  mkPM (cgraph s) (sgraph s) (topomids s) (planner s) (variables s) (methods s)
    (constraints s) (scheduleUpdateOnChange s) (isUpdateScheduled s) (solved s)
    (pendingCount s) (needUpdating s) (needEnforcing s) (needEvaluating s)
    x (touchDeps s) (outputVids s) (hasOptionals s)
    (ctxUpdates s) (calls s).

Definition set_touchDeps (s : PropertyModel) (x : gmap string (list string)) : PropertyModel :=
  mkPM (cgraph s) (sgraph s) (topomids s) (planner s) (variables s) (methods s)
    (constraints s) (scheduleUpdateOnChange s) (isUpdateScheduled s) (solved s)
    (pendingCount s) (needUpdating s) (needEnforcing s) (needEvaluating s)
    (isUpdateNeeded s) x (outputVids s) (hasOptionals s)
    (ctxUpdates s) (calls s).

Definition set_outputVids (s : PropertyModel) (x : gmap string Count) : PropertyModel :=
  mkPM (cgraph s) (sgraph s) (topomids s) (planner s) (variables s) (methods s)
    (constraints s) (scheduleUpdateOnChange s) (isUpdateScheduled s) (solved s)
    (pendingCount s) (needUpdating s) (needEnforcing s) (needEvaluating s)
    (isUpdateNeeded s) (touchDeps s) x (hasOptionals s)
    (ctxUpdates s) (calls s).

Definition set_hasOptionals (s : PropertyModel) (x : bool) : PropertyModel :=
  mkPM (cgraph s) (sgraph s) (topomids s) (planner s) (variables s) (methods s)
    (constraints s) (scheduleUpdateOnChange s) (isUpdateScheduled s) (solved s)
    (pendingCount s) (needUpdating s) (needEnforcing s) (needEvaluating s)
    (isUpdateNeeded s) (touchDeps s) (outputVids s) x
    (ctxUpdates s) (calls s).

Definition set_ctxUpdates (s : PropertyModel) (x : gmap string ComponentChanges) : PropertyModel :=
  mkPM (cgraph s) (sgraph s) (topomids s) (planner s) (variables s) (methods s)
    (constraints s) (scheduleUpdateOnChange s) (isUpdateScheduled s) (solved s)
    (pendingCount s) (needUpdating s) (needEnforcing s) (needEvaluating s)
    (isUpdateNeeded s) (touchDeps s) (outputVids s) (hasOptionals s)
    x (calls s).

Definition log (s : PropertyModel) (c : Call) : PropertyModel :=
  mkPM (cgraph s) (sgraph s) (topomids s) (planner s) (variables s) (methods s)
    (constraints s) (scheduleUpdateOnChange s) (isUpdateScheduled s) (solved s)
    (pendingCount s) (needUpdating s) (needEnforcing s) (needEvaluating s)
    (isUpdateNeeded s) (touchDeps s) (outputVids s) (hasOptionals s)
    (ctxUpdates s) (calls s ++ [c]).

Section PropertyModel.
Context `{Externals}.

(** ** Recording changes for the next update *)

(** [u.schedule] is logged; the scheduler later calls
    [performScheduledUpdate]. *)
Definition scheduleUpdate (s : PropertyModel) : PropertyModel :=
  if isUpdateScheduled s then s
  else log (set_isUpdateScheduled s true) Schedule.

Definition recordChange (s : PropertyModel) : PropertyModel :=
  let s := set_isUpdateNeeded s true in
  let s := set_solved s false in
  if scheduleUpdateOnChange s then scheduleUpdate s else s.

Definition recordContextChange (s : PropertyModel) (ctx : string) : PropertyModel :=
  recordChange (set_needUpdating s (arraySet.add (needUpdating s) ctx)).

Definition recordConstraintChange (s : PropertyModel) (ccid : string) : PropertyModel :=
  recordChange (set_needEnforcing s (stringSet_add ccid (needEnforcing s))).

Definition recordVariableChange (s : PropertyModel) (stayid : string) : PropertyModel :=
  recordChange (set_needEvaluating s (stringSet_add stayid (needEvaluating s))).

Definition removeConstraintRecords (s : PropertyModel) (ccid : string) : PropertyModel :=
  let s := set_needEnforcing s (needEnforcing s ∖ {[ccid]}) in
  set_needEvaluating s (needEvaluating s ∖ {[ccid]}).

Definition removeContextRecords (s : PropertyModel) (ctx : string) : PropertyModel :=
  set_needUpdating s (arraySet.remove (needUpdating s) ctx).

(** ** Adding and removing elements *)

(** The subscription to [vv.changes] is what makes the variable's
    events arrive at [onNextVariableChange]. *)
Definition addVariable (s : PropertyModel) (vv : VariableObj) : PropertyModel :=
  if hasProperty (variables s) (v_id vv) then s
  else
    let s := set_variables s (<[v_id vv := vv]> (variables s)) in
    let s := if v_pending vv then set_pendingCount s (S (pendingCount s)) else s in
    let stayMethodId := stayMethod (v_id vv) in
    let stayConstraintId := stayConstraint (v_id vv) in
    let s := set_cgraph s (CGraph.addVariable (cgraph s) (v_id vv)) in
    let s := set_cgraph s
               (CGraph.addMethod (cgraph s) stayMethodId stayConstraintId [] [v_id vv]) in
    let s := match v_optional vv with
             | Max => set_planner s (Planner.setMaxStrength (planner s) stayConstraintId)
             | Min => set_planner s (Planner.setMinStrength (planner s) stayConstraintId)
             | Default => s
             end in
    recordConstraintChange s stayConstraintId.

Definition removeVariable (s : PropertyModel) (vv : VariableObj) : PropertyModel :=
  if hasProperty (variables s) (v_id vv)
     && bool_decide (length (constraintsWhichUse (cgraph s) (v_id vv)) = 0)
  then
    let stayConstraintId := stayConstraint (v_id vv) in
    let s := set_variables s (delete (v_id vv) (variables s)) in
    let s := set_outputVids s (delete (v_id vv) (outputVids s)) in
    let s := removeConstraintRecords s stayConstraintId in
    let s := set_cgraph s (CGraph.removeMethod (cgraph s) (stayMethod (v_id vv))) in
    let s := set_planner s (Planner.removeOptional (planner s) stayConstraintId) in
    set_cgraph s (CGraph.removeVariable (cgraph s) (v_id vv))
  else s.

Definition addMethod (cid : string) (s : PropertyModel) (mm : Method) : PropertyModel :=
  if hasProperty (methods s) (m_id mm) then s
  else
    let s := set_methods s (<[m_id mm := mm]> (methods s)) in
    set_cgraph s (CGraph.addMethod (cgraph s) (m_id mm) cid (m_inputVars mm) (m_outputs mm)).

Definition removeMethod (s : PropertyModel) (mm : Method) : PropertyModel :=
  if hasProperty (methods s) (m_id mm) then
    let s := set_methods s (delete (m_id mm) (methods s)) in
    set_cgraph s (CGraph.removeMethod (cgraph s) (m_id mm))
  else s.

Definition addConstraint (s : PropertyModel) (cc : ConstraintObj) : PropertyModel :=
  if hasProperty (constraints s) (c_id cc) then s
  else
    let s := set_constraints s (<[c_id cc := cc]> (constraints s)) in
    let s := foldl (addMethod (c_id cc)) s (c_methods cc) in
    let s := match c_optional cc with
             | Max => set_hasOptionals
                        (set_planner s (Planner.setMaxStrength (planner s) (c_id cc))) true
             | Min => set_hasOptionals
                        (set_planner s (Planner.setMinStrength (planner s) (c_id cc))) true
             | Default => s
             end in
    recordConstraintChange s (c_id cc).

(** [this.sgraph.selectMethod( cc.id, null )] dereferences [sgraph],
    which is [null] until the first successful plan. *)
Definition removeConstraint (s : PropertyModel) (cc : ConstraintObj) : outcome PropertyModel :=
  if hasProperty (constraints s) (c_id cc) then
    let s := set_constraints s (delete (c_id cc) (constraints s)) in
    let s := removeConstraintRecords s (c_id cc) in
    let s := foldl removeMethod s (c_methods cc) in
    match sgraph s with
    | None => TypeError
    | Some sg =>
      let s := set_sgraph s (Some (SGraph.unselectMethod sg (c_id cc))) in
      Done (log s (MethodScheduled (Some (c_id cc)) None))
    end
  else Done s.

(** [addOutput] and [removeOutput] read only [out.id] and are given
    the id.  For a name that is inherited and not an own property,
    [id in this.outputVids] is true and [++] turns the inherited
    member into [NaN], which is stored as an own property; only the
    setter of [__proto__] drops it. *)
Definition addOutput (s : PropertyModel) (id : string) : PropertyModel :=
  match outputVids s !! id with
  | Some (Num n) => set_outputVids s (<[id := Num (S n)]> (outputVids s))
  | Some NaN => set_outputVids s (<[id := NaN]> (outputVids s))
  | None =>
    if inherited id then
      if bool_decide (id = "__proto__"%string) then s
      else set_outputVids s (<[id := NaN]> (outputVids s))
    else set_outputVids s (<[id := Num 1]> (outputVids s))
  end.

(** [this.outputVids[id] > 1] is false for [NaN], for an inherited
    member and for [undefined]. *)
Definition removeOutput (s : PropertyModel) (id : string) : PropertyModel :=
  match outputVids s !! id with
  | Some (Num n) =>
    if bool_decide (1 < n) then set_outputVids s (<[id := Num (pred n)]> (outputVids s))
    else set_outputVids s (delete id (outputVids s))
  | Some NaN => set_outputVids s (delete id (outputVids s))
  | None => set_outputVids s (delete id (outputVids s))
  end.

Definition endpointId (e : Endpoint) : string :=
  match e with
  | OfVariable vid => stayConstraint vid
  | OfConstraint cid => cid
  end.

(** [this.touchDeps[cid1]] is truthy for an own array and for an
    inherited member, and the latter is what [u.arraySet.add] is
    then handed; the registry itself is not touched in that case. *)
Definition addTouchDependency (s : PropertyModel) (cc1 cc2 : Endpoint)
  : outcome PropertyModel :=
  let cid1 := endpointId cc1 in
  let cid2 := endpointId cc2 in
  match touchDeps s !! cid1 with
  | Some deps => Done (set_touchDeps s (<[cid1 := arraySet.add deps cid2]> (touchDeps s)))
  | None =>
    if inherited cid1 then (if arraySetAddThrows then TypeError else Done s)
    else Done (set_touchDeps s (<[cid1 := [cid2]]> (touchDeps s)))
  end.

Definition removeTouchDependency (s : PropertyModel) (cc1 cc2 : Endpoint)
  : outcome PropertyModel :=
  let cid1 := endpointId cc1 in
  let cid2 := endpointId cc2 in
  match touchDeps s !! cid1 with
  | Some deps => Done (set_touchDeps s (<[cid1 := arraySet.remove deps cid2]> (touchDeps s)))
  | None =>
    if inherited cid1 then (if arraySetRemoveThrows then TypeError else Done s)
    else Done s
  end.

(** ** Responding to variable events *)

(** [Array.prototype.sort] with a comparison function, as a stable
    insertion sort: [x] goes before the first [y] it does not
    compare greater than. *)
Fixpoint sort_insert (cmp : string → string → Z) (x : string) (l : list string)
  : list string :=
  match l with
  | [] => [x]
  | y :: l' =>
    if bool_decide (cmp x y ≤ 0)%Z then x :: y :: l' else y :: sort_insert cmp x l'
  end.

Definition js_sort (cmp : string → string → Z) (l : list string) : list string :=
  foldr (sort_insert cmp) [] l.

Definition descending (p : Planner.t) (cid1 cid2 : string) : Z :=
  Planner.compare p cid2 cid1.

(** The callback of [deps.forEach]: [visited[dep]] is tested first,
    and only for an unvisited [dep] is [this.constraints[dep]]
    dereferenced.  The second component of [acc] holds the names
    for which [visited[dep]] is truthy. *)
Definition visitDep (s : PropertyModel) (acc : list string * gset string)
  (dep : string) : outcome (list string * gset string) :=
  if bool_decide (dep ∈ acc.2) then Done acc
  else match constraints s !! dep with
       | None => TypeError
       | Some cc =>
         if bool_decide (c_optional cc ≠ Default)
         then Done (acc.1 ++ [dep], {[dep]} ∪ acc.2)
         else Done acc
       end.

Fixpoint forEachDep (s : PropertyModel) (deps : list string)
  (acc : list string * gset string) : outcome (list string * gset string) :=
  match deps with
  | [] => Done acc
  | dep :: deps' => acc' ← visitDep s acc dep; forEachDep s deps' acc'
  end.

(** The inner [while (i < l)], over the slice [promote[i..l)].
    [this.touchDeps[vid]] is an own array, or an inherited member,
    which is truthy and has no [forEach], or [undefined]. *)
Fixpoint collectDeps (s : PropertyModel) (slice : list string)
  (acc : list string * gset string) : outcome (list string * gset string) :=
  match slice with
  | [] => Done acc
  | vid :: slice' =>
    acc' ← match touchDeps s !! vid with
           | Some deps => forEachDep s deps acc
           | None => if inherited vid then TypeError else Done acc
           end;
    collectDeps s slice' acc'
  end.

(** The outer [while (i < promote.length)]. *)
Fixpoint promoteLoop (fuel : nat) (s : PropertyModel) (promote : list string)
  (i : nat) (visited : gset string) {struct fuel} : outcome (list string) :=
  if bool_decide (i < length promote) then
    match fuel with
    | 0 => OutOfFuel
    | S fuel' =>
      let l := length promote in
      r ← collectDeps s (drop i promote) ([], visited);
      promoteLoop fuel' s (promote ++ js_sort (descending (planner s)) r.1) l r.2
    end
  else Done promote.

(** Every pass of the outer loop but the last marks a dependency
    visited, so one more than the number of recorded dependencies
    is enough fuel. *)
Definition allDeps (s : PropertyModel) : list string :=
  map_to_list (touchDeps s) ≫= snd.

Definition promoteFuel (s : PropertyModel) : nat := S (S (length (allDeps s))).

(** The body of the final [for (--i; i >= 0; --i)]. *)
Definition promoteOne (s : PropertyModel) (cid : string) : PropertyModel :=
  let s := set_planner s (Planner.setMaxStrength (planner s) cid) in
  match sgraph s with
  | None => recordConstraintChange s cid
  | Some sg =>
    match SGraph.selectedForConstraint sg cid with
    | None => recordConstraintChange s cid
    | Some _ => s
    end
  end.

(** The names [visited] answers for when it is created:
    [visited[dep]] is truthy for what [Object.prototype] hands
    down, so such a dependency counts as visited from the start,
    and [visited[originalVid] = true] adds the origin. *)
Definition inheritedNames : gset string := list_to_set objectPrototype.

Definition collectPromotions (s : PropertyModel) (originalVid : string)
  : outcome (list string) :=
  promoteLoop (promoteFuel s) s [originalVid] 0 ({[originalVid]} ∪ inheritedNames).

Definition doPromotions (s : PropertyModel) (originalVid : string)
  : outcome PropertyModel :=
  promote ← collectPromotions s originalVid;
  Done (foldl promoteOne s (reverse promote)).

Definition variableTouched (s : PropertyModel) (vid : string) : outcome PropertyModel :=
  let stayConstraintId := stayConstraint vid in
  doPromotions s stayConstraintId.

Definition variableChanged (s : PropertyModel) (vid : string) : outcome PropertyModel :=
  let stayConstraintId := stayConstraint vid in
  s ← doPromotions s stayConstraintId;
  Done (recordVariableChange s stayConstraintId).

Definition onNextVariableChange (s : PropertyModel) (event : VariableEvent)
  : outcome PropertyModel :=
  match ev_type event with
  | touched => variableTouched s (ev_vv event)
  | changed => variableChanged s (ev_vv event)
  | pending => Done (set_pendingCount s (S (pendingCount s)))
  | settled =>
    if bool_decide (0 < pendingCount s) then
      let s := set_pendingCount s (pred (pendingCount s)) in
      if bool_decide (pendingCount s = 0) && negb (isUpdateNeeded s)
      then Done (set_solved s true)
      else Done s
    else Done s
  end.

(** ** The update cycle *)

Fixpoint foldM {A B : Type} (f : A → B → outcome A) (a : A) (l : list B)
  : outcome A :=
  match l with
  | [] => Done a
  | b :: l' => a' ← f a b; foldM f a' l'
  end.

Definition noChanges : ComponentChanges := mkChanges [] [].

(** Modelled from the spec: [m.Context.reportUpdates( ctx )] is not
    among the sources.  The context hands over what it has
    accumulated and starts afresh. *)
Definition reportUpdates (s : PropertyModel) (ctx : string)
  : ComponentChanges * PropertyModel :=
  (default noChanges (ctxUpdates s !! ctx),
   log (set_ctxUpdates s (<[ctx := noChanges]> (ctxUpdates s))) (ReportUpdates ctx)).

Definition applyRemove (s : PropertyModel) (el : Element) : outcome PropertyModel :=
  match el with
  | ElConstraint cc => removeConstraint s cc
  | ElOutput vid => Done (removeOutput s vid)
  | ElTouchDep from to => removeTouchDependency s from to
  | ElOther => Done s
  end.

Definition applyAdd (s : PropertyModel) (el : Element) : outcome PropertyModel :=
  match el with
  | ElConstraint cc => Done (addConstraint s cc)
  | ElOutput vid => Done (addOutput s vid)
  | ElTouchDep from to => addTouchDependency s from to
  | ElOther => Done s
  end.

(** The loop of [updateModel].  The two inner loops are declared
    with [var i] and [var l] again, and [var] is function-scoped:
    they run on the counters of the outer loop, and leave both at
    [updates.adds.length] for the outer [++i] and [i < l]. *)
Fixpoint updateModelLoop (fuel : nat) (s : PropertyModel) (i l : nat)
  {struct fuel} : outcome PropertyModel :=
  if bool_decide (i < l) then
    match fuel with
    | 0 => OutOfFuel
    | S fuel' =>
      match needUpdating s !! i with
      | None => TypeError
      | Some ctx =>
        let (updates, s) := reportUpdates s ctx in
        s ← foldM applyRemove s (removes updates);
        s ← foldM applyAdd s (adds updates);
        let i := length (adds updates) in
        let l := length (adds updates) in
        updateModelLoop fuel' s (S i) l
      end
    end
  else Done s.

Definition updateModel (s : PropertyModel) : outcome PropertyModel :=
  updateModelLoop (length (needUpdating s)) s 0 (length (needUpdating s)).

(** One step of the scan of [topomids] that rebuilds the priority
    list.  [topograph] is read through the constraint graph. *)
Definition priorityStep (s : PropertyModel) (priorities : list string) (mid : string)
  : outcome (list string) :=
  match CGraph.constraintForMethod (cgraph s) mid with
  | None => TypeError
  | Some cid =>
    if isStayConstraint cid then Done (priorities ++ [cid])
    else match constraints s !! cid with
         | None =>
           (* an inherited member has no [optional]; [undefined] throws *)
           if inherited cid then Done priorities else TypeError
         | Some cc =>
           if optional_truthy (c_optional cc) then Done (priorities ++ [cid])
           else Done priorities
         end
  end.

Definition reevaluateIfEmergingSource (s : PropertyModel) (vid : string)
  : outcome PropertyModel :=
  let stayConstraintId := stayConstraint vid in
  match sgraph s with
  | None => TypeError
  | Some sg =>
    match SGraph.selectedForConstraint sg stayConstraintId with
    | None => Done s
    | Some _ =>
      match variables s !! vid with
      | None => TypeError
      | Some vv =>
        if negb (v_source vv) && negb (stringSet_has (needEvaluating s) stayConstraintId)
        then Done (set_needEvaluating (log s (MakeForwardedPromise vid))
                     (stringSet_add stayConstraintId (needEvaluating s)))
        else Done s
      end
    end
  end.

Definition setSource (vv : VariableObj) (b : bool) : VariableObj :=
  mkVariable (v_id vv) (v_optional vv) (v_pending vv) b.

Definition updateSourceStatus (s : PropertyModel) (vid : string)
  : outcome PropertyModel :=
  match sgraph s with
  | None => TypeError
  | Some sg =>
    match variables s !! vid with
    | None => TypeError
    | Some vv =>
      let b := bool_decide (is_Some (SGraph.selectedForConstraint sg (stayConstraint vid))) in
      Done (set_variables s (<[vid := setSource vv b]> (variables s)))
    end
  end.

(** [plan]: the answer of the planner decides only whether the
    solution graph and what hangs on it are replaced;
    [needEnforcing] is emptied either way. *)
Definition plan (s : PropertyModel) : outcome PropertyModel :=
  let cids := elements (needEnforcing s) in
  if bool_decide (0 < length cids) then
    s ← match planner_plan (cgraph s) (planner s) (sgraph s) cids with
        | Some sg =>
          let s := set_sgraph s (Some sg) in
          let s := set_topomids s (toposort (cgraph s) sg (planner s)) in
          priorities ← foldM (priorityStep s) [] (reverse (topomids s));
          let s := set_planner s (Planner.setOptionals (planner s) priorities) in
          let s := set_needEvaluating s (list_to_set cids ∪ needEvaluating s) in
          s ← (if forwardEmergingSources
               then foldM reevaluateIfEmergingSource s (SGraph.variables sg)
               else Done s);
          foldM updateSourceStatus s (SGraph.variables sg)
        | None => Done s
        end;
    Done (set_needEnforcing s ∅)
  else Done s.

(** Modelled from the spec: [Variable.commitPromise] is not among
    the sources.  The call is recorded; the pending marks are
    counted where the spec has them installed, at the activation
    of the method. *)
Definition commitPromise (s : PropertyModel) (vid : string) : outcome PropertyModel :=
  match variables s !! vid with
  | None => TypeError
  | Some _ => Done (log s (CommitPromise vid))
  end.

(** Modelled from the spec: an output marked pending sends a
    [pending] event, which the property model receives in
    [onNextVariableChange]. *)
Definition markPending (s : PropertyModel) (vid : string) : outcome PropertyModel :=
  onNextVariableChange s (mkEvent pending vid).

(** [this.methods[mid].activate()] and the report of the activation
    to the enablement manager.
    Modelled from the spec: [Method.activate] is not among the
    sources.  By section 4.4 an asynchronous method installs
    promises that mark its outputs pending; the outputs marked are
    [pendingOutputs mid], and each mark is counted at once.  What
    the method body does afterwards reaches the property model as
    later variable events. *)
Definition activate (s : PropertyModel) (mid : string) : outcome PropertyModel :=
  match methods s !! mid with
  | None => TypeError
  | Some _ =>
    let s := log s (Activate mid) in
    s ← foldM markPending s (pendingOutputs mid);
    Done (log s (MethodScheduled (CGraph.constraintForMethod (cgraph s) mid) (Some mid)))
  end.

(** [evaluate]: [this.sgraph] is dereferenced whether or not
    anything needs evaluating. *)
Definition evaluate (s : PropertyModel) : outcome PropertyModel :=
  match sgraph s with
  | None => TypeError
  | Some sg =>
    let mids := omap (SGraph.selectedForConstraint sg) (elements (needEvaluating s)) in
    let downstreamVids := nodesDownstreamOtherType sg mids in
    s ← foldM commitPromise s downstreamVids;
    if bool_decide (0 < length mids) then
      let downstreamMids : gset string :=
        list_to_set (filter (λ mid, isNotStayMethod mid = true)
                            (nodesDownstreamSameType sg mids)) in
      let scheduledMids :=
        filter (λ mid, stringSet_has downstreamMids mid = true) (topomids s) in
      s ← foldM activate s scheduledMids;
      s ← foldM commitPromise s downstreamVids;
      Done (set_needEvaluating s ∅)
    else Done s
  end.

(** [update]: a throw in one of the three phases leaves the update
    unfinished. *)
Definition update (s : PropertyModel) : outcome PropertyModel :=
  if isUpdateNeeded s then
    let s := set_isUpdateNeeded s false in
    s ← updateModel s;
    s ← plan s;
    s ← evaluate s;
    if bool_decide (pendingCount s = 0) then Done (set_solved s true) else Done s
  else Done s.

Definition performScheduledUpdate (s : PropertyModel) : outcome PropertyModel :=
  update (set_isUpdateScheduled s false).

End PropertyModel.

(** ** A concrete set of collaborators

    Used to run the model on concrete scenarios.  Stay ids are
    formed with a prefix; the walker and the topological sort follow
    sections 4.3 and 4.4 of the specification; the planner is a
    plain greedy one (the planner type is a constructor argument of
    [PropertyModel]): required constraints first, then optional ones
    from the strongest, each taking its first method whose outputs
    are still unwritten, and failing when a required constraint
    finds none. *)

Module Sample.

(** Modelled from the spec: [g.stayMethod] is not among the sources;
    the stay method of a variable gets an id of its own. *)
Definition stayMethod (vid : string) : string := ("sm#" +:+ vid)%string.

(** Modelled from the spec: [g.stayConstraint] is not among the
    sources; likewise for the stay constraint. *)
Definition stayConstraint (vid : string) : string := ("sc#" +:+ vid)%string.

(** Modelled from the spec: [g.isStayConstraint] recognises the ids
    [stayConstraint] forms. *)
Definition isStayConstraint (cid : string) : bool := String.prefix "sc#" cid.

(** Modelled from the spec: [g.isNotStayMethod] rejects the ids
    [stayMethod] forms. *)
Definition isNotStayMethod (mid : string) : bool := negb (String.prefix "sm#" mid).

Definition entry (g : CGraph.t) (mid : string) : CGraph.MethodEntry :=
  default (CGraph.mkEntry ""%string [] []) (CGraph.meths g !! mid).

Definition outputsOf (g : CGraph.t) (mids : list string) : list string :=
  mids ≫= (λ mid, CGraph.me_outputs (entry g mid)).

Definition readersOf (g : CGraph.t) (vids : list string) : list string :=
  (filter (λ kv, Exists (λ v, v ∈ vids) (CGraph.me_inputs kv.2))
          (map_to_list (CGraph.meths g))).*1.

(** Modelled from the spec: the walk of [g.DigraphWalker], section
    4.4.  The methods reachable from [seen] through method → output
    → reader, the starting methods included. *)
Fixpoint downstreamMethods (fuel : nat) (g : CGraph.t) (seen : list string)
  : list string :=
  match fuel with
  | 0 => seen
  | S fuel' =>
    match filter (λ mid, mid ∉ seen) (readersOf g (outputsOf g seen)) with
    | [] => seen
    | new => downstreamMethods fuel' g (seen ++ new)
    end
  end.

(** Modelled from the spec: the methods downstream of [mids]. *)
Definition nodesDownstreamSameType (sg : SGraph.t) (mids : list string) : list string :=
  downstreamMethods (size (CGraph.meths (SGraph.graph sg))) (SGraph.graph sg)
                    (remove_dups mids).

(** Modelled from the spec: the variables downstream of [mids],
    those the downstream methods write. *)
Definition nodesDownstreamOtherType (sg : SGraph.t) (mids : list string) : list string :=
  remove_dups (outputsOf (SGraph.graph sg) (nodesDownstreamSameType sg mids)).

(** Modelled from the spec: [toposort], section 4.3.  Repeatedly
    emit, among the methods none of whose inputs is still to be
    written, the one of the strongest constraint. *)
Fixpoint topoLoop (fuel : nat) (g : CGraph.t) (p : Planner.t)
  (remaining acc : list string) : list string :=
  match fuel with
  | 0 => acc
  | S fuel' =>
    let ready :=
      filter (λ mid, Forall (λ v, v ∉ outputsOf g (filter (λ m', m' ≠ mid) remaining))
                            (CGraph.me_inputs (entry g mid)))
             remaining in
    let byStrength :=
      foldr (λ mid best,
               match best with
               | None => Some mid
               | Some b =>
                 if bool_decide (Planner.compare p (CGraph.me_cid (entry g b))
                                   (CGraph.me_cid (entry g mid)) < 0)%Z
                 then Some mid else Some b
               end) None ready in
    match byStrength with
    | None => acc
    | Some mid => topoLoop fuel' g p (filter (λ m', m' ≠ mid) remaining) (acc ++ [mid])
    end
  end.

(** Modelled from the spec: the selected methods in topological
    order. *)
Definition toposort (_ : CGraph.t) (sg : SGraph.t) (p : Planner.t) : list string :=
  let mids := (map_to_list (SGraph.selected sg)).*2 in
  topoLoop (length mids) (SGraph.graph sg) p mids [].

(** One constraint of the greedy planner; [st] is the solution
    graph built so far with the variables already written. *)
Definition greedyStep (g : CGraph.t) (required : bool)
  (st : option (SGraph.t * list string)) (cid : string)
  : option (SGraph.t * list string) :=
  match st with
  | None => None
  | Some (sg, written) =>
    let candidates :=
      filter (λ kv, CGraph.me_cid kv.2 = cid ∧
                    Forall (λ v, v ∉ written) (CGraph.me_outputs kv.2))
             (map_to_list (CGraph.meths g)) in
    match candidates with
    | (mid, e) :: _ =>
      Some (SGraph.mk (CGraph.mk (CGraph.vars g)
                         (<[mid := e]> (CGraph.meths (SGraph.graph sg))))
                      (<[cid := mid]> (SGraph.selected sg)),
            written ++ CGraph.me_outputs e)
    | [] => if required then None else st
    end
  end.

(** A planner to construct the property model with: it plans from
    scratch, and answers [None] when a required constraint has no
    method whose outputs are free. *)
Definition greedyPlan (g : CGraph.t) (p : Planner.t) (_ : option SGraph.t)
  (_ : list string) : option SGraph.t :=
  let optionals := reverse (Planner.strengths p) in
  let requireds :=
    filter (λ cid, cid ∉ optionals) (elements (CGraph.constraints g)) in
  let start := Some (SGraph.mk (CGraph.mk (CGraph.vars g) ∅) ∅, []) in
  let st := foldl (greedyStep g true) start requireds in
  let st := foldl (greedyStep g false) st
              (filter (λ cid, cid ∈ CGraph.constraints g) optionals) in
  fst <$> st.

Definition externals : Externals :=
  Build_Externals stayMethod stayConstraint isStayConstraint isNotStayMethod
    CGraph.constraintsUsing greedyPlan toposort
    nodesDownstreamOtherType nodesDownstreamSameType false true true (λ _, []).

(** The same collaborators with an asynchronous method: the
    activation of [m1] leaves its output [b] pending. *)
Definition asyncExternals : Externals :=
  Build_Externals stayMethod stayConstraint isStayConstraint isNotStayMethod
    CGraph.constraintsUsing greedyPlan toposort
    nodesDownstreamOtherType nodesDownstreamSameType false true true
    (λ mid, if bool_decide (mid = "m1"%string) then ["b"%string] else []).

End Sample.

(** * Predicates and scenarios the properties are stated with *)

(** Reference counts in the registry are positive: a count is
    stored as [1] and raised from there, and the entry is deleted
    instead of being lowered to [0]; [NaN] is stored under
    inherited names only. *)
Definition outputs_wf (s : PropertyModel) : Prop :=
  ∀ id c, outputVids s !! id = Some c →
          match c with
          | Num n => 1 ≤ n
          | NaN => inherited id = true
          end.

Definition refcount (s : PropertyModel) (id : string) : nat :=
  match outputVids s !! id with
  | Some (Num n) => n
  | _ => 0
  end.

(** Everything but the output registry agrees. *)
Definition same_but_outputs (s s' : PropertyModel) : Prop :=
  cgraph s' = cgraph s ∧ sgraph s' = sgraph s ∧ topomids s' = topomids s ∧
  planner s' = planner s ∧ variables s' = variables s ∧ methods s' = methods s ∧
  constraints s' = constraints s ∧
  scheduleUpdateOnChange s' = scheduleUpdateOnChange s ∧
  isUpdateScheduled s' = isUpdateScheduled s ∧ solved s' = solved s ∧
  pendingCount s' = pendingCount s ∧ needUpdating s' = needUpdating s ∧
  needEnforcing s' = needEnforcing s ∧ needEvaluating s' = needEvaluating s ∧
  isUpdateNeeded s' = isUpdateNeeded s ∧ touchDeps s' = touchDeps s ∧
  hasOptionals s' = hasOptionals s ∧ ctxUpdates s' = ctxUpdates s ∧
  calls s' = calls s.

(** ** Touch promotion, in the words of the specification *)

Definition depsOf (s : PropertyModel) (cid : string) : list string :=
  default [] (touchDeps s !! cid).

(** A dependency is followed when it has not been visited and names
    a registered constraint whose optional level is not [Default]. *)
Definition eligible (s : PropertyModel) (visited : gset string) (dep : string) : bool :=
  bool_decide (dep ∉ visited) &&
  match constraints s !! dep with
  | Some cc => bool_decide (c_optional cc ≠ Default)
  | None => false
  end.

(** The next breadth-first generation, before it is sorted: the
    eligible dependencies of the members of [frontier], each once. *)
Definition nextGeneration (s : PropertyModel) (frontier : list string)
  (visited : gset string) : list string :=
  remove_dups (filter (λ dep, eligible s visited dep = true) (frontier ≫= depsOf s)).

(** [a] is at least as strong as [b] in the planner's order. *)
Definition atLeastAsStrong (p : Planner.t) (a b : string) : Prop :=
  (Planner.compare p b a ≤ 0)%Z.

(** [bfs_generations s visited frontier gs]: [gs] are the generations
    that follow [frontier], each the next generation in descending
    strength, until a generation comes out empty. *)
Inductive bfs_generations (s : PropertyModel)
  : gset string → list string → list (list string) → Prop :=
| bfs_done visited frontier :
    nextGeneration s frontier visited = [] →
    bfs_generations s visited frontier []
| bfs_next visited frontier g gs :
    g ≠ [] →
    g ≡ₚ nextGeneration s frontier visited →
    Sorted (atLeastAsStrong (planner s)) g →
    bfs_generations s (visited ∪ list_to_set g) g gs →
    bfs_generations s visited frontier (g :: gs).

(** Every recorded touch dependency names a registered constraint. *)
Definition touchDeps_registered (s : PropertyModel) : Prop :=
  Forall (λ dep, is_Some (constraints s !! dep)) (allDeps s).

Definition selectedMethod (s : PropertyModel) (cid : string) : option string :=
  sg ← sgraph s; SGraph.selectedForConstraint sg cid.

(** The dependencies [forEachDep] adds, in the order it meets them. *)
Fixpoint discover (s : PropertyModel) (deps : list string) (visited : gset string)
  : list string :=
  match deps with
  | [] => []
  | dep :: deps' =>
    if eligible s visited dep
    then dep :: discover s deps' ({[dep]} ∪ visited)
    else discover s deps' visited
  end.

(** ** Stay constraints and reachable states *)

Section Stays.
Context `{Externals}.




(** Ids of declared constraints and methods are not stay ids. *)
Definition userConstraint (cc : ConstraintObj) : Prop :=
  (∀ vid, c_id cc ≠ stayConstraint vid) ∧
  Forall (λ mm, ∀ vid, m_id mm ≠ stayMethod vid) (c_methods cc).

Definition userElement (el : Element) : Prop :=
  match el with
  | ElConstraint cc => userConstraint cc
  | _ => True
  end.

Definition userChanges (ch : ComponentChanges) : Prop :=
  Forall userElement (adds ch).

(** What the engine can do to a property model: the public
    mutators, the variable events, a context accumulating changes
    and announcing them, and the update, direct or scheduled.  A
    call that throws has no successor. *)
Inductive step : PropertyModel → PropertyModel → Prop :=
| step_addVariable s vv : step s (addVariable s vv)
| step_removeVariable s vv : step s (removeVariable s vv)
| step_addConstraint s cc : userConstraint cc → step s (addConstraint s cc)
| step_removeConstraint s cc s' : removeConstraint s cc = Done s' → step s s'
| step_addOutput s id : step s (addOutput s id)
| step_removeOutput s id : step s (removeOutput s id)
| step_addTouchDependency s cc1 cc2 s' :
    addTouchDependency s cc1 cc2 = Done s' → step s s'
| step_removeTouchDependency s cc1 cc2 s' :
    removeTouchDependency s cc1 cc2 = Done s' → step s s'
| step_variableEvent s event s' : onNextVariableChange s event = Done s' → step s s'
| step_contextChange s ctx ch :
    userChanges ch →
    step s (recordContextChange (set_ctxUpdates s (<[ctx := ch]> (ctxUpdates s))) ctx)
| step_update s s' : update s = Done s' → step s s'
| step_performScheduledUpdate s s' : performScheduledUpdate s = Done s' → step s s'.

Definition reachable (s : PropertyModel) : Prop := rtc step newPropertyModel s.



(** Two states with the same registered variable ids, constraint
    graph, method registry, context reports and output registry. *)
Definition same_core (s s' : PropertyModel) : Prop :=
  dom (variables s') = dom (variables s) ∧ cgraph s' = cgraph s ∧
  methods s' = methods s ∧ ctxUpdates s' = ctxUpdates s ∧
  outputVids s' = outputVids s.

End Stays.

(** ** Scenarios

    Two variables [a] (optional [Max]) and [b] (optional [Min]) and
    required constraints with a single method each, run with the
    collaborators of [Sample]. *)

Module Scenario.

Definition va : VariableObj := mkVariable "a" Max false false.
Definition vb : VariableObj := mkVariable "b" Min false false.
Definition m1 : Method := mkMethod "m1" ["a"%string] ["b"%string].
Definition c1 : ConstraintObj := mkConstraint "c1" Default [m1].
Definition m2 : Method := mkMethod "m2" ["a"%string] ["b"%string].
Definition c2 : ConstraintObj := mkConstraint "c2" Default [m2].

(** The state a call returns, for calls that do return. *)
Definition from_done (o : outcome PropertyModel) : PropertyModel :=
  match o with
  | Done s => s
  | _ => newPropertyModel
  end.

(** [a], [b] and [c1] added, no update run yet. *)
Definition declared : PropertyModel :=
  addConstraint
    (@addVariable Sample.externals
       (@addVariable Sample.externals newPropertyModel va) vb) c1.

(** Three more constraints, optional [Max], [Min] and [Default],
    and touch dependencies from [a] to each of them and between the
    first two. *)
Definition k1 : ConstraintObj := mkConstraint "k1" Max [].
Definition k2 : ConstraintObj := mkConstraint "k2" Min [].
Definition k3 : ConstraintObj := mkConstraint "k3" Default [].

Definition touchy : PropertyModel :=
  let s := addConstraint (addConstraint (addConstraint declared k1) k2) k3 in
  let dep s from to := from_done (@addTouchDependency Sample.externals s from to) in
  let s := dep s (OfVariable "a") (OfConstraint "k2") in
  let s := dep s (OfVariable "a") (OfConstraint "k3") in
  let s := dep s (OfVariable "a") (OfConstraint "k1") in
  let s := dep s (OfConstraint "k1") (OfConstraint "k2") in
  dep s (OfConstraint "k2") (OfConstraint "k1").

(** A third variable [c] and a constraint computing it from [b]. *)
Definition vc : VariableObj := mkVariable "c" Min false false.
Definition m3 : Method := mkMethod "m3" ["b"%string] ["c"%string].
Definition c3 : ConstraintObj := mkConstraint "c3" Default [m3].

(** A context accumulates [ch] and announces that it changed. *)
Definition announce (s : PropertyModel) (ctx : string) (ch : ComponentChanges)
  : PropertyModel :=
  recordContextChange (set_ctxUpdates s (<[ctx := ch]> (ctxUpdates s))) ctx.

(** [a], [b], [c] and [c1] declared and the scheduled update run:
    the model is solved. *)
Definition settled : PropertyModel :=
  from_done (@performScheduledUpdate Sample.externals
               (@addVariable Sample.externals declared vc)).

(** Then a context reports the new constraint [c3]. *)
Definition announced : PropertyModel :=
  announce settled "ctx" (mkChanges [ElConstraint c3] []).

Definition afterAnnounced : PropertyModel :=
  from_done (@performScheduledUpdate Sample.externals announced).

(** Or two contexts each report a new output. *)
Definition twoContexts : PropertyModel :=
  announce (announce settled "ctxA" (mkChanges [ElOutput "a"] []))
           "ctxB" (mkChanges [ElOutput "b"] []).

Definition afterTwoContexts : PropertyModel :=
  from_done (@performScheduledUpdate Sample.externals twoContexts).



End Scenario.

(** * Further code of [pm.ts] *)

Section TouchSets.
Context `{Externals}.

(** The registry with [cc2] recorded as a dependency of [cc1], and
    with it taken out: what the two calls leave when the source
    has, or can be given, a list of its own. *)
Definition recordDependency (s : PropertyModel) (cc1 cc2 : Endpoint) : PropertyModel :=
  let cid1 := endpointId cc1 in
  set_touchDeps s (<[cid1 := arraySet.add (depsOf s cid1) (endpointId cc2)]> (touchDeps s)).

Definition dropDependency (s : PropertyModel) (cc1 cc2 : Endpoint) : PropertyModel :=
  let cid1 := endpointId cc1 in
  match touchDeps s !! cid1 with
  | Some deps => set_touchDeps s (<[cid1 := arraySet.remove deps (endpointId cc2)]> (touchDeps s))
  | None => s
  end.

(** The source is no name inherited from [Object.prototype]. *)
Definition plainSource (cc : Endpoint) : Prop := inherited (endpointId cc) = false.

(** [addTouchDependencies]: one source, the targets in order. *)
Definition addTouchDependencies (s : PropertyModel) (cc1 : Endpoint)
  (cc2s : list Endpoint) : outcome PropertyModel :=
  foldM (λ s cc2, addTouchDependency s cc1 cc2) s cc2s.

Definition removeTouchDependencies (s : PropertyModel) (cc1 : Endpoint)
  (cc2s : list Endpoint) : outcome PropertyModel :=
  foldM (λ s cc2, removeTouchDependency s cc1 cc2) s cc2s.

(** The elements of an array with their indexes. *)
Definition indexed {A : Type} (l : list A) : list (nat * A) :=
  imap pair l.

(** [addTouchSet]: the two nested loops run over indexes, and it is
    the indexes that [i != j] compares. *)
Definition addTouchSet (s : PropertyModel) (ccs : list Endpoint)
  : outcome PropertyModel :=
  foldM (λ s ia,
           foldM (λ s jb,
                    if bool_decide (ia.1 ≠ jb.1)
                    then addTouchDependency s ia.2 jb.2
                    else Done s)
                 s (indexed ccs))
        s (indexed ccs).

Definition removeTouchSet (s : PropertyModel) (ccs : list Endpoint)
  : outcome PropertyModel :=
  foldM (λ s ia,
           foldM (λ s jb,
                    if bool_decide (ia.1 ≠ jb.1)
                    then removeTouchDependency s ia.2 jb.2
                    else Done s)
                 s (indexed ccs))
        s (indexed ccs).

End TouchSets.

(** One of the three records of a change. *)
Inductive ChangeRecord : Type :=
| ContextChanged (ctx : string)
| ConstraintChanged (ccid : string)
| VariableChanged (stayid : string).

Definition recordOne (s : PropertyModel) (r : ChangeRecord) : PropertyModel :=
  match r with
  | ContextChanged ctx => recordContextChange s ctx
  | ConstraintChanged ccid => recordConstraintChange s ccid
  | VariableChanged stayid => recordVariableChange s stayid
  end.

(** The methods a log says were activated, in order. *)
Definition activations (l : list Call) : list string :=
  omap (λ c, match c with Activate mid => Some mid | _ => None end) l.

(** * The model side: [array.ts] *)

(** ** JavaScript arrays, as far as [array.ts] uses them

    An array is a list of slots; [None] is [undefined], which is also
    what a hole or an index past the end reads as. *)

Module JsArray.
Section Slots.
Context {A : Type}.

(** [arr[i]] read. *)
Definition read (l : list (option A)) (i : nat) : option A :=
  default None (l !! i).

(** [arr[i] = v]: past the end the array grows, with holes. *)
Definition write (l : list (option A)) (i : nat) (v : option A) : list (option A) :=
  if bool_decide (i < length l) then <[i := v]> l
  else l ++ replicate (i - length l) None ++ [v].

(** [arr.length = n]. *)
Definition setLength (l : list (option A)) (n : nat) : list (option A) :=
  resize n None l.

End Slots.

Section Generic.
Context {A : Type}.

(** A relative index of [slice] and [splice]: negative ones count
    from the end, and the result is clamped to the array. *)
Definition relative (len k : Z) : Z :=
  if bool_decide (k < 0)%Z then Z.max (len + k) 0 else Z.min k len.

(** [arr.slice( from, to )]. *)
Definition slice (l : list A) (from to : Z) : list A :=
  let len := Z.of_nat (length l) in
  let k := relative len from in
  let final := relative len to in
  take (Z.to_nat (final - k)) (drop (Z.to_nat k) l).

(** [arr.splice( start, deleteCount, ...items )], the array it
    leaves. *)
Definition splice (l : list A) (start deleteCount : Z) (items : list A) : list A :=
  let len := Z.of_nat (length l) in
  let k := relative len start in
  let dc := Z.min (Z.max deleteCount 0) (len - k) in
  take (Z.to_nat k) l ++ items ++ drop (Z.to_nat (k + dc)) l.

End Generic.
End JsArray.

(** ** [ArrayComponent]

    The state of an array component built without an element type
    matters to none of the operations below: [elements], the value
    of the signal [$length], what was sent on [changes] so far,
    [observers] ([None] is [undefined]), [scheduled], and the
    observers whose [onNext] was called so far.  Indexes and lengths
    are natural numbers; the arguments of [move], which clamps them,
    are integers. *)

Module ArrayComponent.

(** An observer of the component: the object, and whether it has
    an [onNext]. *)
Record Observer : Type := mkObserver {
  obs_ref : nat;
  obs_onNext : bool
}.

Section Elements.
Context {V : Type}.

Record t : Type := mk {
  elements : list (option V);
  dollar_length : nat;
  changes : list Z;
  observers : option (list Observer);
  scheduled : bool;
  notified : list nat
}.

Definition new : t := mk [] 0 [] None false [].

Definition getLength (s : t) : nat := dollar_length s.

(** [this.changes.sendNext( i )]. *)
Definition changes_sendNext (s : t) (i : Z) : t :=
  mk (elements s) (dollar_length s) (changes s ++ [i]) (observers s)
     (scheduled s) (notified s).

(** [scheduleNext]: [u.schedule] later calls [sendNext], once. *)
Definition scheduleNext (s : t) : t :=
  if scheduled s then s
  else mk (elements s) (dollar_length s) (changes s) (observers s) true (notified s).

(** One round of the loop of [setLength] that clears the elements
    cut off. *)
Definition clearElement (s : t) (i : nat) : t :=
  match JsArray.read (elements s) i with
  | Some _ =>
    let s := mk (JsArray.write (elements s) i None) (dollar_length s)
                (changes s) (observers s) (scheduled s) (notified s) in
    scheduleNext (changes_sendNext s (Z.of_nat i))
  | None => s
  end.

(** [setLength]: the growing branch defines index accessors on the
    prototype, which hold no state of the component. *)
Definition setLength (s : t) (n : nat) : t :=
  let curlen := dollar_length s in
  let s := if bool_decide (n < curlen)
           then foldl clearElement s (reverse (seq n (curlen - n)))
           else s in
  mk (JsArray.setLength (elements s) n) n (changes s) (observers s)
     (scheduled s) (notified s).

Definition get (s : t) (i : nat) : option V := JsArray.read (elements s) i.

Definition set (s : t) (i : nat) (v : option V) : t :=
  let s := if bool_decide (dollar_length s ≤ i) then setLength s (i + 1) else s in
  if bool_decide (is_Some (JsArray.read (elements s) i) ∨ is_Some v) then
    let s := mk (JsArray.write (elements s) i v) (dollar_length s)
                (changes s) (observers s) (scheduled s) (notified s) in
    scheduleNext (changes_sendNext s (Z.of_nat i))
  else s.

Definition push (s : t) (v : option V) : t := set s (dollar_length s) v.

(** [move( destination, source, count )]; a caller that leaves
    [count] out passes 1. *)
Definition move (s : t) (destination source count : Z) : t :=
  let len := Z.of_nat (length (elements s)) in
  let destination :=
    if bool_decide (destination > len - 1)%Z then (len - 1)%Z else destination in
  let destination := if bool_decide (destination < 0)%Z then 0%Z else destination in
  let source := if bool_decide (source > len - count)%Z then (len - count)%Z else source in
  let source := if bool_decide (source < 0)%Z then 0%Z else source in
  let count := if bool_decide (count > len)%Z then len else count in
  if bool_decide ((count < 0)%Z ∨ destination = source) then s
  else
    let '(a, b, c) :=
      if bool_decide (destination < source)%Z
      then (destination, source, (source + count)%Z)
      else (source, (source + count)%Z, (destination + count)%Z) in
    let s_ := JsArray.slice (elements s) a b in
    let t_ := JsArray.slice (elements s) b c in
    let els := JsArray.splice (elements s) a (Z.of_nat (length t_)) t_ in
    let els := JsArray.splice els (a + Z.of_nat (length t_))%Z
                              (Z.of_nat (length s_)) s_ in
    let s := mk els (dollar_length s) (changes s) (observers s)
                (scheduled s) (notified s) in
    let s := foldl changes_sendNext s (seqZ a (c - a)) in
    scheduleNext s.

(** [observer.onNext( this )]. *)
Definition onNext (s : t) (observer : Observer) : t :=
  mk (elements s) (dollar_length s) (changes s) (observers s) (scheduled s)
     (notified s ++ [obs_ref observer]).

(** The first half of [addObserver], which stores the observer. *)
Definition storeObserver (s : t) (observer : Observer) : t :=
  let obs := match observers s with
             | Some l => Some (l ++ [observer])
             | None => Some [observer]
             end in
  mk (elements s) (dollar_length s) (changes s) obs (scheduled s) (notified s).

(** [addObserver]: the call of [observer.onNext] is not guarded. *)
Definition addObserver (s : t) (observer : Observer) : outcome t :=
  let s := storeObserver s observer in
  if obs_onNext observer then Done (onNext s observer) else TypeError.

Definition removeObserver (s : t) (observer : Observer) : t :=
  match observers s with
  | Some l =>
    let l := filter (λ ver, obs_ref observer ≠ obs_ref ver) l in
    mk (elements s) (dollar_length s) (changes s)
       (if bool_decide (length l = 0) then None else Some l)
       (scheduled s) (notified s)
  | None => s
  end.

(** [sendNext], which the scheduler calls. *)
Definition sendNext (s : t) : t :=
  let s := mk (elements s) (dollar_length s) (changes s) (observers s) false
              (notified s) in
  match observers s with
  | Some l => foldl (λ s ver, if obs_onNext ver then onNext s ver else s) s l
  | None => s
  end.

(** The observers registered, in order. *)
Definition registered (s : t) : list Observer := default [] (observers s).

(** [elements.length] and [$length] agree. *)
Definition lengths_agree (s : t) : Prop := length (elements s) = dollar_length s.

(** The calls a user of the component makes, or the scheduler.  A
    throw of [addObserver] comes after the observer was stored. *)
Inductive Op : Type :=
| OpSetLength (n : nat)
| OpSet (i : nat) (v : option V)
| OpPush (v : option V)
| OpMove (destination source count : Z)
| OpAddObserver (observer : Observer)
| OpRemoveObserver (observer : Observer)
| OpSendNext.

Definition apply (s : t) (op : Op) : t :=
  match op with
  | OpSetLength n => setLength s n
  | OpSet i v => set s i v
  | OpPush v => push s v
  | OpMove destination source count => move s destination source count
  | OpAddObserver observer =>
    match addObserver s observer with
    | Done s' => s'
    | _ => storeObserver s observer
    end
  | OpRemoveObserver observer => removeObserver s observer
  | OpSendNext => sendNext s
  end.

End Elements.
Arguments t : clear implicits.
Arguments Op : clear implicits.
End ArrayComponent.

(** ** [listDiff]

    The two index loops walk down the two arrays; the four result
    arrays grow at the end. *)

Record ListDiff (T : Type) : Type := mkListDiff {
  leftOnly : list T;
  leftShared : list T;
  rightOnly : list T;
  rightShared : list T
}.
Arguments mkListDiff {T} _ _ _ _.
Arguments leftOnly {T} _.
Arguments leftShared {T} _.
Arguments rightOnly {T} _.
Arguments rightShared {T} _.

Fixpoint listDiffLoop {T : Type} (compare : T → T → Z) (a : list T)
  : list T → ListDiff T → ListDiff T :=
  match a with
  | [] => λ b r,
    mkListDiff (leftOnly r) (leftShared r) (rightOnly r ++ b) (rightShared r)
  | x :: a' =>
    fix inner (b : list T) (r : ListDiff T) {struct b} : ListDiff T :=
      match b with
      | [] => mkListDiff (leftOnly r ++ x :: a') (leftShared r)
                         (rightOnly r) (rightShared r)
      | y :: b' =>
        let cmp := compare x y in
        if bool_decide (cmp < 0)%Z then
          listDiffLoop compare a' (y :: b')
            (mkListDiff (leftOnly r ++ [x]) (leftShared r) (rightOnly r) (rightShared r))
        else if bool_decide (cmp > 0)%Z then
          inner b'
            (mkListDiff (leftOnly r) (leftShared r) (rightOnly r ++ [y]) (rightShared r))
        else
          listDiffLoop compare a' b'
            (mkListDiff (leftOnly r) (leftShared r ++ [x])
                        (rightOnly r) (rightShared r ++ [y]))
      end
  end.

Definition listDiff {T : Type} (a b : list T) (compare : T → T → Z) : ListDiff T :=
  listDiffLoop compare a b (mkListDiff [] [] [] []).

(** * Properties *)

(** ** Own and inherited properties *)

Lemma hasProperty_true {A : Type} (m : gmap string A) (k : string) :
  hasProperty m k = true ↔ is_Some (m !! k) ∨ inherited k = true.
Proof. by rewrite /hasProperty orb_true_iff bool_decide_eq_true. Qed.

Lemma hasProperty_false {A : Type} (m : gmap string A) (k : string) :
  hasProperty m k = false ↔ m !! k = None ∧ inherited k = false.
Proof.
  rewrite /hasProperty orb_false_iff bool_decide_eq_false.
  by rewrite eq_None_not_Some.
Qed.

Lemma hasProperty_own {A : Type} (m : gmap string A) (k : string) :
  is_Some (m !! k) → hasProperty m k = true.
Proof. intros Hk. apply hasProperty_true. by left. Qed.

Lemma hasProperty_plain {A : Type} (m : gmap string A) (k : string) :
  inherited k = false → hasProperty m k = bool_decide (is_Some (m !! k)).
Proof. intros Hk. by rewrite /hasProperty Hk orb_false_r. Qed.

Lemma stringSet_add_plain (id : string) (set : gset string) :
  inherited id = false → stringSet_add id set = {[id]} ∪ set.
Proof.
  intros Hid. rewrite /stringSet_add bool_decide_eq_false_2 //.
  by intros ->.
Qed.

Lemma stringSet_add_subseteq (id : string) (set : gset string) :
  set ⊆ stringSet_add id set.
Proof. rewrite /stringSet_add. case_bool_decide; set_solver. Qed.

Lemma stringSet_has_plain (set : gset string) (id : string) :
  inherited id = false → stringSet_has set id = bool_decide (id ∈ set).
Proof. intros Hid. by rewrite /stringSet_has Hid orb_false_r. Qed.

Lemma elem_of_inheritedNames (k : string) :
  k ∈ inheritedNames ↔ inherited k = true.
Proof. by rewrite /inheritedNames /inherited elem_of_list_to_set bool_decide_eq_true. Qed.

Section Outputs.
Context `{Externals}.

Lemma set_outputVids_same s : set_outputVids s (outputVids s) = s.
Proof. by destruct s. Qed.

Lemma set_outputVids_twice s m1 m2 :
  set_outputVids (set_outputVids s m1) m2 = set_outputVids s m2.
Proof. by destruct s. Qed.

Lemma outputVids_set s m : outputVids (set_outputVids s m) = m.
Proof. by destruct s. Qed.

Lemma addOutput_alt s id :
  inherited id = false → outputVids s !! id ≠ Some NaN →
  addOutput s id = set_outputVids s (<[id := Num (S (refcount s id))]> (outputVids s)).
Proof.
  intros Hi Hn. rewrite /addOutput /refcount Hi.
  by destruct (outputVids s !! id) as [[k|]|].
Qed.

Lemma removeOutput_alt s id :
  removeOutput s id =
  set_outputVids s
    (if bool_decide (1 < refcount s id)
     then <[id := Num (pred (refcount s id))]> (outputVids s)
     else delete id (outputVids s)).
Proof.
  rewrite /removeOutput /refcount.
  destruct (outputVids s !! id) as [[k|]|]; simpl; [by case_bool_decide|done..].
Qed.

Lemma addOutput_iter s id n :
  inherited id = false → outputVids s !! id ≠ Some NaN → 1 ≤ n →
  Nat.iter n (λ s, addOutput s id) s =
  set_outputVids s (<[id := Num (refcount s id + n)]> (outputVids s)).
Proof.
  intros Hi Hnan. induction n as [|n IH]; [intros; lia|]. intros _. simpl.
  destruct (decide (n = 0)) as [->|Hn].
  - simpl. by rewrite addOutput_alt // Nat.add_1_r.
  - rewrite IH; first lia.
    rewrite addOutput_alt //; [by rewrite outputVids_set lookup_insert_eq|].
    rewrite /refcount outputVids_set.
    rewrite lookup_insert_eq /= set_outputVids_twice insert_insert_eq.
    by rewrite Nat.add_succ_r.
Qed.

Lemma removeOutput_iter s id m c M :
  outputVids s = <[id := Num c]> M → m < c →
  Nat.iter m (λ s, removeOutput s id) s = set_outputVids s (<[id := Num (c - m)]> M).
Proof.
  intros HM. induction m as [|m IH]; intros Hlt; simpl.
  - rewrite Nat.sub_0_r -HM. by rewrite set_outputVids_same.
  - rewrite IH; first lia. rewrite removeOutput_alt /refcount outputVids_set.
    rewrite lookup_insert_eq /=. rewrite bool_decide_eq_true_2; first lia.
    rewrite set_outputVids_twice insert_insert_eq.
    by replace (c - S m) with (pred (c - m)) by lia.
Qed.

Lemma removeOutput_last s id M :
  outputVids s = <[id := Num 1]> M →
  removeOutput s id = set_outputVids s (delete id M).
Proof.
  intros HM. rewrite removeOutput_alt /refcount HM lookup_insert_eq /=.
  by rewrite delete_insert_eq.
Qed.

Lemma refcount_positive s id :
  outputs_wf s → inherited id = false →
  outputVids s !! id = None ∨
  outputVids s !! id = Some (Num (refcount s id)) ∧ 1 ≤ refcount s id.
Proof.
  intros Hwf Hi. rewrite /refcount.
  destruct (outputVids s !! id) as [[k|]|] eqn:Hk; [right| |by left].
  - split; [done|]. by apply (Hwf id (Num k)).
  - specialize (Hwf id NaN Hk). simpl in Hwf. congruence.
Qed.

(** C9: outputs are refcounted under every id that is no name
    inherited from [Object.prototype].  In a registry whose counts
    are positive, after [n ≥ 1] calls of [addOutput] on such an
    [id] the id stays registered through any [m < n] calls of
    [removeOutput], and [n] calls of [removeOutput] give back the
    state the additions started from. *)
Theorem outputs_refcounted (s : PropertyModel) (id : string) (n : nat) :
  inherited id = false → outputs_wf s → 1 ≤ n →
  (∀ m, m < n →
     is_Some (outputVids (Nat.iter m (λ s, removeOutput s id)
                            (Nat.iter n (λ s, addOutput s id) s)) !! id)) ∧
  Nat.iter n (λ s, removeOutput s id) (Nat.iter n (λ s, addOutput s id) s) = s.
Proof.
  intros Hi Hwf Hn.
  assert (Hnan : outputVids s !! id ≠ Some NaN).
  { intros Hk. specialize (Hwf id NaN Hk). simpl in Hwf. congruence. }
  rewrite addOutput_iter //.
  set (k := refcount s id). set (M := outputVids s).
  set (s1 := set_outputVids s (<[id := Num (k + n)]> M)).
  assert (Hs1 : outputVids s1 = <[id := Num (k + n)]> M) by apply outputVids_set.
  split.
  - intros m Hm. rewrite (removeOutput_iter s1 id m (k + n) M) //; first lia.
    rewrite outputVids_set lookup_insert_eq. by eexists.
  - destruct (refcount_positive s id Hwf Hi) as [Hnone|[Hsome Hpos]].
    + assert (k = 0) as Hk by (by rewrite /k /refcount Hnone).
      destruct n as [|n']; [lia|]. simpl.
      rewrite (removeOutput_iter s1 id n' (k + S n') M) //; first lia.
      rewrite (removeOutput_last _ id M).
      { rewrite outputVids_set. do 2 f_equal. lia. }
      rewrite /s1 !set_outputVids_twice delete_id //.
      apply set_outputVids_same.
    + rewrite (removeOutput_iter s1 id n (k + n) M) //; first (fold k in Hpos; lia).
      rewrite /s1 set_outputVids_twice.
      replace (k + n - n) with k by lia.
      rewrite insert_id //. apply set_outputVids_same.
Qed.

(** C10: [addOutput] and [removeOutput] change the output registry
    and nothing else: the [solved] signal, the update flags and the
    schedule, both graphs, the planner, the three pending sets and
    the log of outgoing calls are as before. *)
Theorem outputs_frame (s : PropertyModel) (id : string) :
  same_but_outputs s (addOutput s id) ∧ same_but_outputs s (removeOutput s id).
Proof.
  rewrite removeOutput_alt /addOutput.
  destruct (outputVids s !! id) as [[k|]|]; [..|destruct (inherited id);
    [case_bool_decide|]]; destruct s; by repeat split.
Qed.

End Outputs.

(** A registry with no outputs, two additions, two removals. *)
Lemma outputs_refcounted_witness :
  inherited "v" = false ∧ outputs_wf newPropertyModel ∧ 1 ≤ 2 ∧
  ((∀ m, m < 2 →
      is_Some (outputVids (Nat.iter m (λ s, removeOutput s "v"%string)
                 (Nat.iter 2 (λ s, addOutput s "v"%string) newPropertyModel))
               !! "v"%string)) ∧
   Nat.iter 2 (λ s, removeOutput s "v"%string)
     (Nat.iter 2 (λ s, addOutput s "v"%string) newPropertyModel) = newPropertyModel).
Proof.
  assert (Hwf : outputs_wf newPropertyModel).
  { intros id n Hl. simpl in Hl. by rewrite lookup_empty in Hl. }
  split; [reflexivity|]. split; [exact Hwf|]. split; [lia|].
  apply (outputs_refcounted newPropertyModel "v"%string 2 eq_refl Hwf). lia.
Defined.

(** C9 fails as stated under an inherited name: on a new model
    [toString in this.outputVids] is true, so the first
    [addOutput] stores [NaN], the second leaves it, and one
    [removeOutput] unregisters the id, since [NaN > 1] is false. *)
Lemma outputs_refcounted_counterexample :
  outputs_wf newPropertyModel ∧
  outputVids (Nat.iter 2 (λ s, addOutput s "toString"%string) newPropertyModel)
    !! "toString"%string = Some NaN ∧
  outputVids (Nat.iter 1 (λ s, removeOutput s "toString"%string)
                (Nat.iter 2 (λ s, addOutput s "toString"%string) newPropertyModel))
    !! "toString"%string = None.
Proof.
  split; [|by vm_compute].
  intros id n Hl. simpl in Hl. by rewrite lookup_empty in Hl.
Qed.

Section Removal.
Context `{Externals}.

Lemma scheduleUpdate_fields s :
  constraints (scheduleUpdate s) = constraints s ∧
  sgraph (scheduleUpdate s) = sgraph s ∧
  cgraph (scheduleUpdate s) = cgraph s ∧
  variables (scheduleUpdate s) = variables s ∧
  methods (scheduleUpdate s) = methods s ∧
  planner (scheduleUpdate s) = planner s ∧
  needEnforcing (scheduleUpdate s) = needEnforcing s ∧
  needEvaluating (scheduleUpdate s) = needEvaluating s ∧
  touchDeps (scheduleUpdate s) = touchDeps s ∧
  ctxUpdates (scheduleUpdate s) = ctxUpdates s ∧
  needUpdating (scheduleUpdate s) = needUpdating s ∧
  pendingCount (scheduleUpdate s) = pendingCount s ∧
  isUpdateNeeded (scheduleUpdate s) = isUpdateNeeded s ∧
  solved (scheduleUpdate s) = solved s ∧
  topomids (scheduleUpdate s) = topomids s ∧
  outputVids (scheduleUpdate s) = outputVids s.
Proof. rewrite /scheduleUpdate. by destruct (isUpdateScheduled s). Qed.

Lemma recordChange_fields s :
  constraints (recordChange s) = constraints s ∧
  sgraph (recordChange s) = sgraph s ∧
  cgraph (recordChange s) = cgraph s ∧
  variables (recordChange s) = variables s ∧
  methods (recordChange s) = methods s ∧
  planner (recordChange s) = planner s ∧
  needEnforcing (recordChange s) = needEnforcing s ∧
  needEvaluating (recordChange s) = needEvaluating s ∧
  touchDeps (recordChange s) = touchDeps s ∧
  ctxUpdates (recordChange s) = ctxUpdates s ∧
  needUpdating (recordChange s) = needUpdating s ∧
  pendingCount (recordChange s) = pendingCount s ∧
  isUpdateNeeded (recordChange s) = true ∧
  solved (recordChange s) = false ∧
  topomids (recordChange s) = topomids s ∧
  outputVids (recordChange s) = outputVids s.
Proof.
  rewrite /recordChange /=.
  destruct (scheduleUpdateOnChange s); [|done].
  pose proof (scheduleUpdate_fields (set_solved (set_isUpdateNeeded s true) false)) as Hf.
  simpl in Hf. naive_solver.
Qed.

Lemma addMethod_fields cid s mm :
  constraints (addMethod cid s mm) = constraints s ∧
  sgraph (addMethod cid s mm) = sgraph s ∧
  variables (addMethod cid s mm) = variables s ∧
  planner (addMethod cid s mm) = planner s ∧
  ctxUpdates (addMethod cid s mm) = ctxUpdates s.
Proof. rewrite /addMethod. by destruct (hasProperty _ _). Qed.

Lemma addMethods_fields cid mms s :
  constraints (foldl (addMethod cid) s mms) = constraints s ∧
  sgraph (foldl (addMethod cid) s mms) = sgraph s ∧
  variables (foldl (addMethod cid) s mms) = variables s ∧
  planner (foldl (addMethod cid) s mms) = planner s ∧
  ctxUpdates (foldl (addMethod cid) s mms) = ctxUpdates s.
Proof.
  revert s. induction mms as [|mm mms IH]; intros s; [done|]. simpl.
  destruct (IH (addMethod cid s mm)) as (-> & -> & -> & -> & ->).
  apply addMethod_fields.
Qed.

Lemma removeMethod_fields s mm :
  constraints (removeMethod s mm) = constraints s ∧
  sgraph (removeMethod s mm) = sgraph s ∧
  variables (removeMethod s mm) = variables s ∧
  planner (removeMethod s mm) = planner s ∧
  ctxUpdates (removeMethod s mm) = ctxUpdates s.
Proof. rewrite /removeMethod. by destruct (hasProperty _ _). Qed.

Lemma removeMethods_fields mms s :
  constraints (foldl removeMethod s mms) = constraints s ∧
  sgraph (foldl removeMethod s mms) = sgraph s ∧
  variables (foldl removeMethod s mms) = variables s ∧
  planner (foldl removeMethod s mms) = planner s ∧
  ctxUpdates (foldl removeMethod s mms) = ctxUpdates s.
Proof.
  revert s. induction mms as [|mm mms IH]; intros s; [done|]. simpl.
  destruct (IH (removeMethod s mm)) as (-> & -> & -> & -> & ->).
  apply removeMethod_fields.
Qed.

Lemma addConstraint_registers s cc :
  hasProperty (constraints (addConstraint s cc)) (c_id cc) = true ∧
  sgraph (addConstraint s cc) = sgraph s.
Proof.
  rewrite /addConstraint.
  destruct (hasProperty (constraints s) (c_id cc)) eqn:Hc; [done|].
  rewrite /recordConstraintChange.
  match goal with |- context [recordChange ?x] =>
    destruct (recordChange_fields x) as (-> & -> & _) end.
  set (s1 := set_constraints s _).
  destruct (addMethods_fields (c_id cc) (c_methods cc) s1) as (Hc1 & Hs1 & _).
  destruct (c_optional cc); simpl; rewrite Hc1 Hs1 /=;
    (split; [|done]); apply hasProperty_own; rewrite lookup_insert_eq; eauto.
Qed.

Lemma removeConstraint_no_sgraph s cc :
  sgraph s = None → hasProperty (constraints s) (c_id cc) = true →
  removeConstraint s cc = TypeError.
Proof.
  intros Hsg Hc. rewrite /removeConstraint Hc.
  match goal with |- context [foldl removeMethod ?x _] =>
    destruct (removeMethods_fields (c_methods cc) x) as (_ & -> & _) end.
  simpl. by rewrite Hsg.
Qed.

(** C6: removing a registered variable that some constraint still
    uses changes nothing; [removeVariable] has no way to fail. *)
Theorem removeVariable_in_use (s : PropertyModel) (vv : VariableObj) :
  is_Some (variables s !! v_id vv) →
  constraintsWhichUse (cgraph s) (v_id vv) ≠ [] →
  removeVariable s vv = s.
Proof.
  intros Hreg Huse. rewrite /removeVariable.
  rewrite (bool_decide_eq_false_2 (length _ = 0)); [|by rewrite andb_false_r].
  by destruct (constraintsWhichUse (cgraph s) (v_id vv)).
Qed.

(** C7: on a model that has not planned yet, removing a constraint
    that was just added throws: [removeConstraint] calls
    [selectMethod] on the solution graph, which is still [null]. *)
Theorem removeConstraint_before_first_plan (cc : ConstraintObj) :
  removeConstraint (addConstraint newPropertyModel cc) cc = TypeError.
Proof.
  destruct (addConstraint_registers newPropertyModel cc) as [Hreg Hsg].
  by apply removeConstraint_no_sgraph.
Qed.

End Removal.

(** [a] is read by the method of [c1]. *)
Lemma removeVariable_in_use_witness :
  is_Some (variables Scenario.declared !! v_id Scenario.va) ∧
  @constraintsWhichUse Sample.externals (cgraph Scenario.declared) (v_id Scenario.va) ≠ [] ∧
  @removeVariable Sample.externals Scenario.declared Scenario.va = Scenario.declared.
Proof.
  assert (H1 : is_Some (variables Scenario.declared !! v_id Scenario.va))
    by (vm_compute; eauto).
  assert (H2 : @constraintsWhichUse Sample.externals (cgraph Scenario.declared)
                 (v_id Scenario.va) ≠ []) by (vm_compute; discriminate).
  split; [exact H1|]. split; [exact H2|].
  exact (@removeVariable_in_use Sample.externals Scenario.declared Scenario.va H1 H2).
Defined.

Section Promotion.
Context `{Externals}.

(** ** The sort *)

Lemma sort_insert_perm cmp x l : sort_insert cmp x l ≡ₚ x :: l.
Proof.
  induction l as [|y l IH]; simpl; [done|].
  case_bool_decide; [done|]. by rewrite IH Permutation_swap.
Qed.

Lemma js_sort_perm cmp l : js_sort cmp l ≡ₚ l.
Proof.
  induction l as [|x l IH]; simpl; [done|].
  by rewrite sort_insert_perm IH.
Qed.

Lemma sort_insert_sorted cmp x l :
  (∀ a b, cmp a b ≤ 0 ∨ cmp b a ≤ 0)%Z →
  Sorted (λ a b, cmp a b ≤ 0)%Z l →
  Sorted (λ a b, cmp a b ≤ 0)%Z (sort_insert cmp x l).
Proof.
  intros Htot. induction 1 as [|y l Hs IH Hhd]; simpl.
  - by repeat constructor.
  - case_bool_decide as Hxy.
    + by repeat constructor.
    + constructor; [done|].
      destruct Hhd as [|z l Hyz]; simpl.
      * constructor. destruct (Htot x y); [done|lia].
      * case_bool_decide; constructor; [|done].
        destruct (Htot x y); [done|lia].
Qed.

Lemma js_sort_sorted cmp l :
  (∀ a b, cmp a b ≤ 0 ∨ cmp b a ≤ 0)%Z →
  Sorted (λ a b, cmp a b ≤ 0)%Z (js_sort cmp l).
Proof.
  intros Htot. induction l as [|x l IH]; simpl; [constructor|].
  by apply sort_insert_sorted.
Qed.

Lemma descending_sorted p l : Sorted (atLeastAsStrong p) (js_sort (descending p) l).
Proof.
  apply (js_sort_sorted (descending p)).
  intros a b. rewrite /descending /Planner.compare. lia.
Qed.

(** ** One generation *)

Lemma eligible_insert s V d0 d :
  eligible s ({[d0]} ∪ V) d = eligible s V d && bool_decide (d ≠ d0).
Proof.
  rewrite /eligible.
  destruct (decide (d = d0)) as [->|Hne].
  - rewrite (bool_decide_eq_false_2 (d0 ∉ _)); [set_solver|].
    rewrite (bool_decide_eq_false_2 (d0 ≠ d0)); [naive_solver|].
    by rewrite andb_false_r.
  - rewrite (bool_decide_eq_true_2 (d ≠ d0)) // andb_true_r.
    f_equal. apply bool_decide_ext. set_solver.
Qed.

Lemma elem_of_discover s deps V d :
  d ∈ discover s deps V ↔ d ∈ deps ∧ eligible s V d = true.
Proof.
  revert V. induction deps as [|d0 deps IH]; intros V; simpl.
  - set_solver.
  - destruct (eligible s V d0) eqn:He.
    + rewrite !elem_of_cons IH eligible_insert andb_true_iff bool_decide_eq_true.
      split.
      * intros [->|(Hin & He' & Hne)]; [by split; [left|]|by split; [right|]].
      * intros [[->|Hin] He']; [by left|].
        destruct (decide (d = d0)) as [->|Hne]; [by left|by right].
    + rewrite IH elem_of_cons. split; [by intros [? ?]; split; [right|]|].
      intros [[->|?] ?]; [congruence|done].
Qed.

Lemma NoDup_discover s deps V : NoDup (discover s deps V).
Proof.
  revert V. induction deps as [|d0 deps IH]; intros V; simpl; [constructor|].
  destruct (eligible s V d0); [|done].
  constructor; [|done].
  rewrite elem_of_discover eligible_insert andb_true_iff bool_decide_eq_true.
  naive_solver.
Qed.

Lemma discover_app s l1 l2 V :
  discover s (l1 ++ l2) V =
  discover s l1 V ++ discover s l2 (list_to_set (discover s l1 V) ∪ V).
Proof.
  revert V. induction l1 as [|d l1 IH]; intros V; simpl.
  - by replace (∅ ∪ V) with V by set_solver.
  - destruct (eligible s V d); simpl; rewrite IH //.
    by replace (list_to_set (discover s l1 ({[d]} ∪ V)) ∪ ({[d]} ∪ V))
      with ({[d]} ∪ list_to_set (discover s l1 ({[d]} ∪ V)) ∪ V) by set_solver.
Qed.

Lemma discover_perm s frontier V :
  discover s (frontier ≫= depsOf s) V ≡ₚ nextGeneration s frontier V.
Proof.
  apply NoDup_Permutation; [apply NoDup_discover|apply NoDup_remove_dups|].
  intros d. rewrite elem_of_discover /nextGeneration elem_of_remove_dups.
  by rewrite list_elem_of_filter (comm and).
Qed.

(** An unvisited dependency that [constraints] does not hold makes
    the callback throw. *)
Lemma visitDep_unregistered s acc dep :
  dep ∉ acc.2 → constraints s !! dep = None → visitDep s acc dep = TypeError.
Proof.
  intros Hnot Hnone. rewrite /visitDep Hnone.
  by rewrite bool_decide_eq_false_2.
Qed.

Lemma forEachDep_cases s deps acc :
  forEachDep s deps acc =
    Done (acc.1 ++ discover s deps acc.2, list_to_set (discover s deps acc.2) ∪ acc.2) ∨
  (forEachDep s deps acc = TypeError ∧ ∃ d, d ∈ deps ∧ constraints s !! d = None).
Proof.
  revert acc. induction deps as [|d deps IH]; intros [sub V]; simpl.
  - left. rewrite app_nil_r. do 2 f_equal. set_solver.
  - rewrite /visitDep /eligible /=.
    case_bool_decide as Hv; simpl.
    + rewrite (bool_decide_eq_false_2 (d ∉ V)) /=; [naive_solver|].
      destruct (IH (sub, V)) as [->|[-> (d' & ? & ?)]]; [by left|].
      right. split; [done|]. exists d'. set_solver.
    + rewrite (bool_decide_eq_true_2 (d ∉ V)) //=.
      destruct (constraints s !! d) as [cc|] eqn:Hc; simpl.
      * case_bool_decide; simpl.
        -- destruct (IH (sub ++ [d], {[d]} ∪ V)) as [->|[-> (d' & ? & ?)]]; simpl.
           ++ left. rewrite -assoc /=. do 2 f_equal. set_solver.
           ++ right. split; [done|]. exists d'. set_solver.
        -- destruct (IH (sub, V)) as [->|[-> (d' & ? & ?)]]; [by left|].
           right. split; [done|]. exists d'. set_solver.
      * right. split; [done|]. exists d. set_solver.
Qed.

Lemma collectDeps_cases s slice acc :
  let found := discover s (slice ≫= depsOf s) acc.2 in
  collectDeps s slice acc = Done (acc.1 ++ found, list_to_set found ∪ acc.2) ∨
  (collectDeps s slice acc = TypeError ∧
   ((∃ d, d ∈ slice ≫= depsOf s ∧ constraints s !! d = None) ∨
    (∃ v, v ∈ slice ∧ touchDeps s !! v = None ∧ inherited v = true))).
Proof.
  revert acc. induction slice as [|vid slice IH]; intros [sub V].
  - left. simpl. rewrite app_nil_r. by replace (∅ ∪ V) with V by set_solver.
  - rewrite bind_cons discover_app. cbn [collectDeps fst snd].
    set (D1 := discover s (depsOf s vid) V).
    assert (Hhead :
      match touchDeps s !! vid with
      | Some deps => forEachDep s deps (sub, V)
      | None => if inherited vid then TypeError else Done (sub, V)
      end = Done (sub ++ D1, list_to_set D1 ∪ V) ∨
      (match touchDeps s !! vid with
       | Some deps => forEachDep s deps (sub, V)
       | None => if inherited vid then TypeError else Done (sub, V)
       end = TypeError ∧
       ((∃ d, d ∈ depsOf s vid ∧ constraints s !! d = None) ∨
        (touchDeps s !! vid = None ∧ inherited vid = true)))).
    { rewrite /D1 /depsOf. destruct (touchDeps s !! vid) as [deps|]; simpl.
      - destruct (forEachDep_cases s deps (sub, V)) as [->|[-> Hbad]]; [by left|].
        right. split; [done|]. by left.
      - destruct (inherited vid); [right; split; [done|by right]|].
        left. rewrite app_nil_r. by replace (∅ ∪ V) with V by set_solver. }
    destruct Hhead as [->|[-> Hbad]]; simpl.
    + destruct (IH (sub ++ D1, list_to_set D1 ∪ V)) as [->|[-> Hbad]]; simpl.
      * left. apply (f_equal Done), f_equal2; [by rewrite assoc|].
        rewrite list_to_set_app_L. set_solver.
      * right. split; [done|].
        destruct Hbad as [(d & Hd & Hnone)|(v & Hv & Hbad)].
        -- left. exists d. rewrite elem_of_app. eauto.
        -- right. exists v. split; [by right|done].
    + right. split; [done|].
      destruct Hbad as [(d & Hd & Hnone)|Hbad].
      * left. exists d. rewrite elem_of_app. eauto.
      * right. exists vid. split; [by left|done].
Qed.

(** ** The traversal *)

Lemma depsOf_allDeps s cid d : d ∈ depsOf s cid → d ∈ allDeps s.
Proof.
  rewrite /depsOf /allDeps. destruct (touchDeps s !! cid) as [deps|] eqn:Hd; simpl.
  - intros Hin. apply list_elem_of_bind. exists (cid, deps). split; [done|].
    by apply elem_of_map_to_list.
  - by rewrite elem_of_nil.
Qed.

Lemma bind_depsOf_allDeps s l d : d ∈ l ≫= depsOf s → d ∈ allDeps s.
Proof.
  rewrite list_elem_of_bind. intros (c & Hd & _). by eapply depsOf_allDeps.
Qed.

Lemma promoteLoop_stop fuel s promote i V :
  ¬ i < length promote → promoteLoop fuel s promote i V = Done promote.
Proof. intros Hi. destruct fuel; simpl; by rewrite bool_decide_eq_false_2. Qed.

Lemma nextGeneration_nil s V : nextGeneration s [] V = [].
Proof. done. Qed.

Lemma promoteLoop_cases fuel s done frontier V :
  inheritedNames ⊆ V →
  size (list_to_set (allDeps s) ∖ V : gset string) < fuel →
  (∃ gs, promoteLoop fuel s (done ++ frontier) (length done) V =
           Done (done ++ frontier ++ concat gs) ∧
         bfs_generations s V frontier gs) ∨
  (promoteLoop fuel s (done ++ frontier) (length done) V = TypeError ∧
   ((∃ d, d ∈ allDeps s ∧ constraints s !! d = None) ∨
    (∃ v, v ∈ frontier ∧ touchDeps s !! v = None ∧ inherited v = true))).
Proof.
  revert done frontier V.
  induction fuel as [|fuel IH]; intros done frontier V HV Hfuel; [lia|].
  destruct frontier as [|c frontier].
  { left. exists []. split; [|by constructor].
    rewrite promoteLoop_stop; [rewrite length_app /=; lia|].
    by rewrite /= !app_nil_r. }
  set (front := c :: frontier).
  cbn [promoteLoop]. rewrite bool_decide_eq_true_2; [rewrite length_app /=; lia|].
  rewrite drop_app_length.
  destruct (collectDeps_cases s front ([], V)) as [->|[-> Hbad]];
    cbn [mbind outcome_bind fst snd app].
  2:{ right. split; [done|]. destruct Hbad as [(d & Hd & Hnone)|Hbad]; [left|by right].
      exists d. split; [|done]. by eapply bind_depsOf_allDeps. }
  set (found := discover s (front ≫= depsOf s) V).
  assert (Hperm : found ≡ₚ nextGeneration s front V) by apply discover_perm.
  destruct (decide (found = [])) as [Hnil|Hne].
  - left. exists []. rewrite Hnil /= promoteLoop_stop; [rewrite app_nil_r; lia|].
    split; [by rewrite !app_nil_r|].
    constructor. rewrite Hnil in Hperm. by apply Permutation_nil.
  - set (g := js_sort (descending (planner s)) found).
    assert (Hg : g ≡ₚ found) by apply js_sort_perm.
    assert (HgV : list_to_set found ∪ V = V ∪ list_to_set g).
    { rewrite (list_to_set_perm_L g found) //. set_solver. }
    destruct (IH (done ++ front) g (list_to_set found ∪ V)) as
      [(gs & Heq & Hgs)|[Heq Hbad]].
    + intros k Hk. apply elem_of_union. right. by apply HV.
    + destruct found as [|x found'] eqn:Hfound; [done|].
      assert (Hx : x ∈ discover s (front ≫= depsOf s) V)
        by (fold found in Hfound |- *; rewrite Hfound; left).
      apply elem_of_discover in Hx as [Hx1 Hx2].
      apply bind_depsOf_allDeps in Hx1.
      apply andb_true_iff in Hx2 as [Hx2 _]. apply bool_decide_eq_true in Hx2.
      assert (list_to_set (allDeps s) ∖ (list_to_set (x :: found') ∪ V)
                ⊂ (list_to_set (allDeps s) ∖ V : gset string)) as Hsub.
      { apply strict_spec_alt. split; [set_solver|].
        intros Heq. assert (x ∈ (list_to_set (allDeps s) ∖ V : gset string))
          as Hin by set_solver.
        rewrite -Heq in Hin. set_solver. }
      apply subset_size in Hsub. lia.
    + left. exists (g :: gs). split.
      * rewrite Heq /=. by rewrite -!assoc.
      * constructor; [|by rewrite Hg| apply descending_sorted |by rewrite -HgV].
        intros Hgnil. rewrite Hgnil in Hg. apply Hne.
        by apply Permutation_nil.
    + right. split; [done|].
      destruct Hbad as [Hbad|(v & Hv & _ & Hi)]; [by left|].
      rewrite Hg in Hv. apply elem_of_discover in Hv as [_ Hv].
      apply andb_true_iff in Hv as [Hv _]. apply bool_decide_eq_true in Hv.
      apply elem_of_inheritedNames in Hi. destruct (Hv (HV _ Hi)).
Qed.

Lemma elem_of_nextGeneration s frontier V c :
  c ∈ nextGeneration s frontier V ↔
  (∃ parent, parent ∈ frontier ∧ c ∈ depsOf s parent) ∧ eligible s V c = true.
Proof.
  rewrite /nextGeneration elem_of_remove_dups list_elem_of_filter list_elem_of_bind.
  naive_solver.
Qed.

Lemma eligible_true s V c :
  eligible s V c = true ↔
  c ∉ V ∧ ∃ cc, constraints s !! c = Some cc ∧ c_optional cc ≠ Default.
Proof.
  rewrite /eligible andb_true_iff bool_decide_eq_true.
  destruct (constraints s !! c) as [cc|]; [rewrite bool_decide_eq_true|]; naive_solver.
Qed.

Lemma bfs_generations_facts s V frontier gs :
  bfs_generations s V frontier gs →
  NoDup (concat gs) ∧
  ∀ c, c ∈ concat gs →
       c ∉ V ∧ ∃ cc, constraints s !! c = Some cc ∧ c_optional cc ≠ Default.
Proof.
  induction 1 as [|V frontier g gs Hne Hperm Hsorted Hgs [IHnd IHel]]; simpl.
  - split; [constructor|]. by intros c Hc%elem_of_nil.
  - assert (Hg : ∀ c, c ∈ g → c ∉ V ∧
               ∃ cc, constraints s !! c = Some cc ∧ c_optional cc ≠ Default).
    { intros c Hc. rewrite Hperm in Hc.
      apply elem_of_nextGeneration in Hc as [_ Hc]. by apply eligible_true. }
    split.
    + apply NoDup_app. split; [by rewrite Hperm; apply NoDup_remove_dups|].
      split; [|done]. intros c Hc Hc'. destruct (IHel c Hc') as [Hnot _]. set_solver.
    + intros c [Hc|Hc]%elem_of_app; [by apply Hg|].
      destruct (IHel c Hc) as [Hnot Hreg]. split; [set_solver|done].
Qed.

(** ** The promotions *)

Lemma elem_of_without cid l c : c ∈ Planner.without cid l ↔ c ∈ l ∧ c ≠ cid.
Proof. rewrite /Planner.without list_elem_of_filter. naive_solver. Qed.

Lemma elem_of_setMaxStrength p cid c :
  c ∈ Planner.strengths (Planner.setMaxStrength p cid) ↔
  c = cid ∨ c ∈ Planner.strengths p.
Proof.
  rewrite /= elem_of_app elem_of_without list_elem_of_singleton.
  destruct (decide (c = cid)); naive_solver.
Qed.

Lemma elem_of_foldl_setMaxStrength l p c :
  c ∈ Planner.strengths (foldl Planner.setMaxStrength p l) ↔
  c ∈ l ∨ c ∈ Planner.strengths p.
Proof.
  revert p. induction l as [|x l IH]; intros p; simpl.
  - rewrite elem_of_nil. naive_solver.
  - rewrite IH elem_of_setMaxStrength elem_of_cons. naive_solver.
Qed.

Lemma rank_in_last l o : o ∉ l → Planner.rank_in (l ++ [o]) o = length l.
Proof.
  induction l as [|x l IH]; simpl; intros Hnot.
  - by rewrite bool_decide_eq_true_2.
  - rewrite bool_decide_eq_false_2; [set_solver|]. rewrite IH; set_solver.
Qed.

Lemma rank_in_member l l' c : c ∈ l → Planner.rank_in (l ++ l') c < length l.
Proof.
  induction l as [|x l IH]; simpl; intros Hin; [by apply elem_of_nil in Hin|].
  case_bool_decide; [lia|].
  apply elem_of_cons in Hin as [->|Hin]; [done|]. specialize (IH Hin). lia.
Qed.

Lemma setMaxStrength_strongest p o c :
  c ∈ Planner.strengths p → c ≠ o →
  Planner.stronger (Planner.setMaxStrength p o) o c.
Proof.
  intros Hin Hne. rewrite /Planner.stronger /Planner.compare /Planner.rank /=.
  rewrite rank_in_last; [rewrite elem_of_without; naive_solver|].
  pose proof (rank_in_member (Planner.without o (Planner.strengths p)) [o] c) as Hlt.
  rewrite elem_of_without in Hlt. specialize (Hlt (conj Hin Hne)). lia.
Qed.

Lemma promoteOne_fields s cid :
  planner (promoteOne s cid) = Planner.setMaxStrength (planner s) cid ∧
  sgraph (promoteOne s cid) = sgraph s ∧
  needEvaluating (promoteOne s cid) = needEvaluating s ∧
  needEnforcing s ⊆ needEnforcing (promoteOne s cid) ∧
  (selectedMethod s cid = None → inherited cid = false →
   cid ∈ needEnforcing (promoteOne s cid)).
Proof.
  rewrite /promoteOne /selectedMethod /=.
  set (s1 := set_planner s _).
  destruct (recordChange_fields
              (set_needEnforcing s1 (stringSet_add cid (needEnforcing s1))))
    as (_ & Hsg & _ & _ & _ & Hpl & Hne & Hnv & _).
  assert (Hin : inherited cid = false → cid ∈ stringSet_add cid (needEnforcing s))
    by (intros Hcid; rewrite stringSet_add_plain //; set_solver).
  pose proof (stringSet_add_subseteq cid (needEnforcing s)) as Hsub.
  destruct (sgraph s) as [sg|] eqn:Hs; simpl.
  - destruct (SGraph.selectedForConstraint sg cid); simpl.
    + by rewrite Hs.
    + rewrite /recordConstraintChange Hsg Hpl Hne Hnv /= Hs.
      by repeat split.
  - rewrite /recordConstraintChange Hsg Hpl Hne Hnv /= Hs.
    by repeat split.
Qed.

Lemma promoteAll_fields l s :
  planner (foldl promoteOne s l) = foldl Planner.setMaxStrength (planner s) l ∧
  sgraph (foldl promoteOne s l) = sgraph s ∧
  needEvaluating (foldl promoteOne s l) = needEvaluating s ∧
  needEnforcing s ⊆ needEnforcing (foldl promoteOne s l) ∧
  (∀ cid, cid ∈ l → selectedMethod s cid = None → inherited cid = false →
          cid ∈ needEnforcing (foldl promoteOne s l)).
Proof.
  revert s. induction l as [|c l IH]; intros s; simpl.
  - repeat split; try done. by intros cid Hc%elem_of_nil.
  - destruct (promoteOne_fields s c) as (Hp & Hsg & Hnv & Hsub & Hmark).
    destruct (IH (promoteOne s c)) as (Hp' & Hsg' & Hnv' & Hsub' & Hmark').
    rewrite Hp' Hsg' Hnv' Hp Hsg Hnv. repeat split; try done; [set_solver|].
    intros cid [->|Hin]%elem_of_cons Hsel Hplain.
    + apply Hsub'. by apply Hmark.
    + apply Hmark'; [done| |done]. by rewrite /selectedMethod Hsg.
Qed.

Lemma size_list_to_set_le (l : list string) :
  size (list_to_set l : gset string) ≤ length l.
Proof.
  induction l as [|x l IH]; [by rewrite list_to_set_nil size_empty|].
  rewrite list_to_set_cons size_union_alt size_singleton /=.
  pose proof (subseteq_size (list_to_set l ∖ {[x]}) (list_to_set l : gset string)) as Hle.
  assert (list_to_set l ∖ {[x]} ⊆ (list_to_set l : gset string)) as Hsub by set_solver.
  specialize (Hle Hsub). lia.
Qed.

Lemma collectPromotions_cases s origin :
  (∃ gs, collectPromotions s origin = Done (origin :: concat gs) ∧
         bfs_generations s ({[origin]} ∪ inheritedNames) [origin] gs) ∨
  (collectPromotions s origin = TypeError ∧
   ((∃ d, d ∈ allDeps s ∧ constraints s !! d = None) ∨
    (touchDeps s !! origin = None ∧ inherited origin = true))).
Proof.
  set (V := ({[origin]} ∪ inheritedNames : gset string)).
  destruct (promoteLoop_cases (promoteFuel s) s [] [origin] V) as [Hok|[Hc Hbad]].
  - set_solver.
  - rewrite /promoteFuel.
    pose proof (subseteq_size (list_to_set (allDeps s) ∖ V)
                  (list_to_set (allDeps s) : gset string)) as Hle.
    pose proof (size_list_to_set_le (allDeps s)) as Hle'.
    assert (list_to_set (allDeps s) ∖ V ⊆ (list_to_set (allDeps s) : gset string))
      as Hsub by set_solver.
    specialize (Hle Hsub). lia.
  - by left.
  - right. split; [done|]. destruct Hbad as [Hbad|(v & Hv & Hbad)]; [by left|].
    apply list_elem_of_singleton in Hv as ->. by right.
Qed.



Lemma recordVariableChange_fields s stayid :
  planner (recordVariableChange s stayid) = planner s ∧
  needEnforcing (recordVariableChange s stayid) = needEnforcing s ∧
  needEvaluating (recordVariableChange s stayid) =
    stringSet_add stayid (needEvaluating s) ∧
  sgraph (recordVariableChange s stayid) = sgraph s.
Proof.
  rewrite /recordVariableChange.
  match goal with |- context [recordChange ?x] =>
    destruct (recordChange_fields x) as (_ & -> & _ & _ & _ & -> & -> & -> & _) end.
  done.
Qed.

(** Touch promotion when every recorded touch dependency names a
    registered constraint and the stay id is no inherited name: the
    traversal from the variable's stay constraint completes; the
    ids it collects are the stay constraint followed by the
    generations [gs], each generation the unvisited non-[Default]
    dependencies of the one before it in descending strength; no id
    is collected twice; [setMaxStrength] is applied to them in
    reverse order, which leaves the stay constraint stronger than
    every other collected id; and each collected id with no
    selected method is in [needEnforcing]. *)
Theorem touch_promotion (s : PropertyModel) (vid : string) :
  touchDeps_registered s →
  inherited (stayConstraint vid) = false →
  ∃ gs s',
    let origin := stayConstraint vid in
    let promote := origin :: concat gs in
    variableTouched s vid = Done s' ∧
    variableChanged s vid = Done (recordVariableChange s' origin) ∧
    planner (recordVariableChange s' origin) = planner s' ∧
    needEnforcing (recordVariableChange s' origin) = needEnforcing s' ∧
    bfs_generations s ({[origin]} ∪ inheritedNames) [origin] gs ∧
    NoDup promote ∧
    (∀ c, c ∈ concat gs →
          ∃ cc, constraints s !! c = Some cc ∧ c_optional cc ≠ Default) ∧
    planner s' = foldl Planner.setMaxStrength (planner s) (reverse promote) ∧
    (∀ c, c ∈ concat gs → Planner.stronger (planner s') origin c) ∧
    (∀ c, c ∈ promote → selectedMethod s c = None → c ∈ needEnforcing s').
Proof.
  intros Hreg Horigin. set (origin := stayConstraint vid).
  destruct (collectPromotions_cases s origin) as
    [(gs & Hc & Hgs)|[_ [(d & Hd & Hnone)|[_ Hi]]]].
  2:{ rewrite /touchDeps_registered Forall_forall in Hreg.
      destruct (Hreg d Hd) as [cc Hcc]. congruence. }
  2:{ rewrite /origin in Hi. congruence. }
  exists gs, (foldl promoteOne s (reverse (origin :: concat gs))). simpl.
  fold origin.
  destruct (bfs_generations_facts _ _ _ _ Hgs) as [Hnd Hel].
  destruct (promoteAll_fields (reverse (origin :: concat gs)) s)
    as (Hp & Hsg & Hnv & Hsub & Hmark).
  match goal with |- context [recordVariableChange ?x ?y] =>
    destruct (recordVariableChange_fields x y) as (Hrp & Hrn & _) end.
  rewrite /variableTouched /variableChanged /doPromotions. fold origin.
  rewrite Hc /=. repeat split; try done.
  - constructor; [|done]. intros Hin. destruct (Hel _ Hin) as [Hnot _]. set_solver.
  - intros c Hin. by destruct (Hel _ Hin).
  - intros c Hin. rewrite Hp reverse_cons foldl_app /=.
    apply setMaxStrength_strongest.
    + apply elem_of_foldl_setMaxStrength. left. by apply elem_of_reverse.
    + intros ->. destruct (Hel _ Hin) as [Hnot _]. set_solver.
  - intros c Hin Hsel. apply Hmark; [by apply elem_of_reverse|done|].
    apply elem_of_cons in Hin as [->|Hin]; [done|].
    destruct (Hel _ Hin) as [Hnot _].
    destruct (inherited c) eqn:Hci; [|done].
    apply elem_of_inheritedNames in Hci. set_solver.
Qed.



End Promotion.

(** Touching [a] in the scenario with touch dependencies. *)
Lemma touch_promotion_witness :
  touchDeps_registered Scenario.touchy ∧
  inherited (@stayConstraint Sample.externals "a") = false ∧
  ∃ gs s',
    let origin := @stayConstraint Sample.externals "a" in
    let promote := origin :: concat gs in
    @variableTouched Sample.externals Scenario.touchy "a" = Done s' ∧
    @variableChanged Sample.externals Scenario.touchy "a" =
      Done (recordVariableChange s' origin) ∧
    planner (recordVariableChange s' origin) = planner s' ∧
    needEnforcing (recordVariableChange s' origin) = needEnforcing s' ∧
    bfs_generations Scenario.touchy ({[origin]} ∪ inheritedNames) [origin] gs ∧
    NoDup promote ∧
    (∀ c, c ∈ concat gs →
          ∃ cc, constraints Scenario.touchy !! c = Some cc ∧ c_optional cc ≠ Default) ∧
    planner s' =
      foldl Planner.setMaxStrength (planner Scenario.touchy) (reverse promote) ∧
    (∀ c, c ∈ concat gs → Planner.stronger (planner s') origin c) ∧
    (∀ c, c ∈ promote → selectedMethod Scenario.touchy c = None →
          c ∈ needEnforcing s').
Proof.
  assert (Hreg : touchDeps_registered Scenario.touchy) by compute_done.
  split; [exact Hreg|]. split; [reflexivity|].
  exact (@touch_promotion Sample.externals Scenario.touchy "a" Hreg eq_refl).
Defined.


(** What the promotion computes in that scenario: [k1] was added
    with [Max] and [k2] with [Min], so the generation is [k1; k2],
    [k3] is skipped, and the final order has the stay constraint of
    [a] at the strongest end. *)
Example promotion_order_example :
  @collectPromotions Scenario.touchy "sc#a" = Done ["sc#a"; "k1"; "k2"]%string ∧
  (planner <$> (match @variableTouched Sample.externals Scenario.touchy "a" with
                | Done s' => Some s' | _ => None end)) =
    Some (Planner.mk ["sc#b"; "k2"; "k1"; "sc#a"]%string).
Proof. by vm_compute. Qed.

Section StayInvariant.
Context `{Externals}.

Lemma foldM_preserves {A B : Type} (P : A → Prop) (f : A → B → outcome A) l :
  (∀ a b a', P a → f a b = Done a' → P a') →
  ∀ a a', P a → foldM f a l = Done a' → P a'.
Proof.
  intros Hf. induction l as [|b l IH]; intros a a' Ha; simpl.
  - by intros [= <-].
  - destruct (f a b) as [a1| |] eqn:Hfa; simpl; [|done..].
    apply IH. by eapply Hf.
Qed.

Lemma foldM_not_OutOfFuel {A B : Type} (f : A → B → outcome A) l :
  (∀ a b, f a b ≠ OutOfFuel) → ∀ a, foldM f a l ≠ OutOfFuel.
Proof.
  intros Hf. induction l as [|b l IH]; intros a; simpl; [done|].
  destruct (f a b) as [a1| |] eqn:Hfa; simpl; [apply IH|done|].
  by destruct (Hf a b).
Qed.

Lemma foldM_app {A B : Type} (f : A → B → outcome A) (l1 l2 : list B) (a : A) :
  foldM f a (l1 ++ l2) = (a' ← foldM f a l1; foldM f a' l2).
Proof.
  revert a. induction l1 as [|b l1 IH]; intros a; [done|].
  simpl. destruct (f a b); simpl; auto.
Qed.

Lemma same_core_refl s : same_core s s.
Proof. done. Qed.

Lemma same_core_trans s1 s2 s3 : same_core s1 s2 → same_core s2 s3 → same_core s1 s3.
Proof.
  intros (? & ? & ? & ? & ?) (? & ? & ? & ? & ?). repeat split; congruence.
Qed.


Lemma same_core_recordChange s : same_core s (recordChange s).
Proof.
  destruct (recordChange_fields s)
    as (_ & _ & Hg & Hv & Hm & _ & _ & _ & _ & Hc & _ & _ & _ & _ & _ & Ho).
  by rewrite /same_core Hg Hv Hm Hc Ho.
Qed.

Lemma same_core_recordConstraintChange s cid : same_core s (recordConstraintChange s cid).
Proof.
  eapply same_core_trans; [|apply same_core_recordChange]. done.
Qed.

Lemma same_core_recordVariableChange s cid : same_core s (recordVariableChange s cid).
Proof.
  eapply same_core_trans; [|apply same_core_recordChange]. done.
Qed.

Lemma same_core_promoteOne s cid : same_core s (promoteOne s cid).
Proof.
  rewrite /promoteOne.
  set (s1 := set_planner s _). assert (same_core s s1) as Hs1 by done.
  assert (same_core s (recordConstraintChange s1 cid)) as Hrec
    by (eapply same_core_trans; [exact Hs1|apply same_core_recordConstraintChange]).
  change (sgraph s1) with (sgraph s).
  destruct (sgraph s) as [sg|]; [|done].
  by destruct (SGraph.selectedForConstraint sg cid).
Qed.

Lemma same_core_promoteAll l s : same_core s (foldl promoteOne s l).
Proof.
  revert s. induction l as [|c l IH]; intros s; simpl; [done|].
  eapply same_core_trans; [apply same_core_promoteOne|apply IH].
Qed.

Lemma same_core_doPromotions s origin s' :
  doPromotions s origin = Done s' → same_core s s'.
Proof.
  rewrite /doPromotions.
  destruct (collectPromotions s origin) as [promote| |]; simpl; [|done..].
  intros [= <-]. apply same_core_promoteAll.
Qed.

Lemma same_core_onNextVariableChange s event s' :
  onNextVariableChange s event = Done s' → same_core s s'.
Proof.
  rewrite /onNextVariableChange /variableTouched /variableChanged.
  destruct (ev_type event).
  - apply same_core_doPromotions.
  - destruct (doPromotions s _) as [s1| |] eqn:Hd; simpl; [|done..].
    intros [= <-]. eapply same_core_trans; [by eapply same_core_doPromotions|].
    apply same_core_recordVariableChange.
  - by intros [= <-].
  - case_bool_decide; [|by intros [= <-]]. simpl.
    destruct (_ && _); by intros [= <-].
Qed.

Lemma addOutput_set s id : ∃ m, addOutput s id = set_outputVids s m.
Proof.
  rewrite /addOutput.
  destruct (outputVids s !! id) as [[k|]|]; [by eexists..|].
  destruct (inherited id); [|by eexists].
  case_bool_decide; [|by eexists].
  exists (outputVids s). by destruct s.
Qed.

Lemma removeOutput_set s id : ∃ m, removeOutput s id = set_outputVids s m.
Proof. rewrite removeOutput_alt. by eexists. Qed.



Lemma same_core_outputs_wf s s' : same_core s s' → outputs_wf s → outputs_wf s'.
Proof. intros (_ & _ & _ & _ & Ho) Hwf. by rewrite /outputs_wf Ho. Qed.

Lemma same_core_addTouchDependency s cc1 cc2 s' :
  addTouchDependency s cc1 cc2 = Done s' → same_core s s'.
Proof.
  rewrite /addTouchDependency.
  destruct (touchDeps s !! _); [by intros [= <-]|].
  destruct (inherited _); [|by intros [= <-]].
  destruct arraySetAddThrows; [done|by intros [= <-]].
Qed.

Lemma same_core_removeTouchDependency s cc1 cc2 s' :
  removeTouchDependency s cc1 cc2 = Done s' → same_core s s'.
Proof.
  rewrite /removeTouchDependency.
  destruct (touchDeps s !! _); [by intros [= <-]|].
  destruct (inherited _); [|by intros [= <-]].
  destruct arraySetRemoveThrows; [done|by intros [= <-]].
Qed.

Lemma same_core_updateSourceStatus s vid s' :
  updateSourceStatus s vid = Done s' → same_core s s'.
Proof.
  rewrite /updateSourceStatus. destruct (sgraph s); [|done].
  destruct (variables s !! vid) as [vv|] eqn:Hv; [|done].
  intros [= <-]. rewrite /same_core /= dom_insert_L.
  assert (vid ∈ dom (variables s)) by (apply elem_of_dom; eauto).
  repeat split; try done. set_solver.
Qed.

Lemma same_core_reevaluateIfEmergingSource s vid s' :
  reevaluateIfEmergingSource s vid = Done s' → same_core s s'.
Proof.
  rewrite /reevaluateIfEmergingSource. destruct (sgraph s) as [sg|]; [|done].
  destruct (SGraph.selectedForConstraint sg _); [|by intros [= <-]].
  destruct (variables s !! vid); [|done].
  destruct (_ && _); by intros [= <-].
Qed.

Lemma same_core_foldM {B : Type} (f : PropertyModel → B → outcome PropertyModel) l :
  (∀ s b s', f s b = Done s' → same_core s s') →
  ∀ s s', foldM f s l = Done s' → same_core s s'.
Proof.
  intros Hf s s' Hfold.
  apply (foldM_preserves (same_core s) f l (λ a b a' Ha Hfa,
           same_core_trans s a a' Ha (Hf a b a' Hfa)) s s'); done.
Qed.

Lemma same_core_plan s s' : plan s = Done s' → same_core s s'.
Proof.
  rewrite /plan. case_bool_decide; [|by intros [= <-]].
  destruct (planner_plan _ _ _ _) as [sg|]; simpl; [|by intros [= <-]].
  destruct (foldM (priorityStep _) [] _) as [priorities| |]; simpl; [|done..].
  destruct forwardEmergingSources.
  - match goal with |- context [foldM reevaluateIfEmergingSource ?x _] =>
      set (s1 := x); assert (same_core s s1) as Hs1 by done end.
    destruct (foldM reevaluateIfEmergingSource s1 _) as [s2| |] eqn:Hs2;
      simpl; [|done..].
    assert (same_core s1 s2) as Hs12
      by (eapply same_core_foldM; [|exact Hs2];
          apply same_core_reevaluateIfEmergingSource).
    destruct (foldM updateSourceStatus s2 _) as [s3| |] eqn:Hs3; simpl; [|done..].
    intros [= <-].
    assert (same_core s2 s3) as Hs23
      by (eapply same_core_foldM; [|exact Hs3]; apply same_core_updateSourceStatus).
    eapply same_core_trans; [exact Hs1|].
    eapply same_core_trans; [exact Hs12|].
    eapply same_core_trans; [exact Hs23|]. done.
  - simpl.
    match goal with |- context [foldM updateSourceStatus ?x _] =>
      set (s1 := x); assert (same_core s s1) as Hs1 by done end.
    destruct (foldM updateSourceStatus s1 _) as [s3| |] eqn:Hs3; simpl; [|done..].
    intros [= <-].
    assert (same_core s1 s3) as Hs23
      by (eapply same_core_foldM; [|exact Hs3]; apply same_core_updateSourceStatus).
    eapply same_core_trans; [exact Hs1|].
    eapply same_core_trans; [exact Hs23|]. done.
Qed.

Lemma same_core_commitPromise s vid s' : commitPromise s vid = Done s' → same_core s s'.
Proof.
  rewrite /commitPromise. destruct (variables s !! vid); [|done]. by intros [= <-].
Qed.

Lemma markPending_all l s :
  foldM markPending s l = Done (set_pendingCount s (length l + pendingCount s)).
Proof.
  revert s. induction l as [|v l IH]; intros s; simpl.
  - by destruct s.
  - rewrite IH. destruct s; simpl. do 2 f_equal. lia.
Qed.

Lemma activate_done s mid s' :
  activate s mid = Done s' ↔
  is_Some (methods s !! mid) ∧
  s' = log (set_pendingCount (log s (Activate mid))
              (length (pendingOutputs mid) + pendingCount s))
           (MethodScheduled (CGraph.constraintForMethod (cgraph s) mid) (Some mid)).
Proof.
  rewrite /activate. destruct (methods s !! mid) as [mm|]; simpl.
  - rewrite markPending_all /=. split; [intros [= <-]; eauto|by intros [_ ->]].
  - split; [done|]. by intros [[? ?] _].
Qed.

Lemma same_core_activate s mid s' : activate s mid = Done s' → same_core s s'.
Proof. by intros [_ ->]%activate_done. Qed.

Lemma same_core_evaluate s s' : evaluate s = Done s' → same_core s s'.
Proof.
  rewrite /evaluate. destruct (sgraph s) as [sg|]; [|done].
  destruct (foldM commitPromise s _) as [s1| |] eqn:Hs1; simpl; [|done..].
  assert (same_core s s1) as H1
    by (eapply same_core_foldM; [|exact Hs1]; apply same_core_commitPromise).
  case_bool_decide; [|by intros [= <-]].
  destruct (foldM activate s1 _) as [s2| |] eqn:Hs2; simpl; [|done..].
  assert (same_core s1 s2) as H2
    by (eapply same_core_foldM; [|exact Hs2]; apply same_core_activate).
  destruct (foldM commitPromise s2 _) as [s3| |] eqn:Hs3; simpl; [|done..].
  assert (same_core s2 s3) as H3
    by (eapply same_core_foldM; [|exact Hs3]; apply same_core_commitPromise).
  intros [= <-].
  eapply same_core_trans; [exact H1|].
  eapply same_core_trans; [exact H2|].
  eapply same_core_trans; [exact H3|]. done.
Qed.

(** ** Mutators that change the registries *)











(** ** The update *)











End StayInvariant.



Lemma scenario_declared_reachable : @reachable Sample.externals Scenario.declared.
Proof.
  rewrite /reachable /Scenario.declared.
  eapply rtc_r; [eapply rtc_r; [eapply rtc_once|]|].
  - apply step_addVariable.
  - apply step_addVariable.
  - apply step_addConstraint. split; [done|]. by repeat constructor.
Qed.



(** ** Reference counts stay positive *)

Section OutputCounts.
Context `{Externals}.

Lemma outputs_wf_new : outputs_wf newPropertyModel.
Proof. intros id n. by rewrite lookup_empty. Qed.

Lemma outputs_wf_insert s id c :
  outputs_wf s →
  match c with Num n => 1 ≤ n | NaN => inherited id = true end →
  outputs_wf (set_outputVids s (<[id := c]> (outputVids s))).
Proof.
  intros Hwf Hc id' c'. rewrite outputVids_set.
  destruct (decide (id = id')) as [->|Hne].
  - rewrite lookup_insert_eq. by intros [= <-].
  - rewrite lookup_insert_ne //. apply Hwf.
Qed.

Lemma outputs_wf_addOutput s id : outputs_wf s → outputs_wf (addOutput s id).
Proof.
  intros Hwf. rewrite /addOutput.
  destruct (outputVids s !! id) as [[k|]|] eqn:Hk.
  - apply outputs_wf_insert; [done|lia].
  - apply outputs_wf_insert; [done|]. apply (Hwf id NaN Hk).
  - destruct (inherited id) eqn:Hi.
    + case_bool_decide; [done|]. by apply outputs_wf_insert.
    + apply outputs_wf_insert; [done|lia].
Qed.

Lemma outputs_wf_removeOutput s id : outputs_wf s → outputs_wf (removeOutput s id).
Proof.
  intros Hwf. rewrite removeOutput_alt.
  case_bool_decide as Hgt.
  - apply outputs_wf_insert; [done|]. simpl. lia.
  - intros id' c'. rewrite outputVids_set.
    intros [_ Hl]%lookup_delete_Some. by eapply Hwf.
Qed.

Lemma outputs_wf_ext s s' : outputVids s' = outputVids s → outputs_wf s → outputs_wf s'.
Proof. intros Ho Hwf. by rewrite /outputs_wf Ho. Qed.

Lemma outputVids_addVariable s vv : outputVids (addVariable s vv) = outputVids s.
Proof.
  rewrite /addVariable. destruct (hasProperty _ _); [done|].
  rewrite /recordConstraintChange.
  match goal with |- context [recordChange ?x] =>
    destruct (recordChange_fields x)
      as (_ & _ & _ & _ & _ & _ & _ & _ & _ & _ & _ & _ & _ & _ & _ & ->) end.
  by destruct (v_pending vv), (v_optional vv).
Qed.

Lemma outputs_wf_removeVariable s vv : outputs_wf s → outputs_wf (removeVariable s vv).
Proof.
  intros Hwf. rewrite /removeVariable. destruct (_ && _); [|done].
  intros id n. simpl. intros [_ Hl]%lookup_delete_Some. by eapply Hwf.
Qed.

Lemma outputVids_addMethods cid mms s :
  outputVids (foldl (addMethod cid) s mms) = outputVids s.
Proof.
  revert s. induction mms as [|mm mms IH]; intros s; simpl; [done|].
  rewrite IH /addMethod. by destruct (hasProperty _ _).
Qed.

Lemma outputVids_addConstraint s cc : outputVids (addConstraint s cc) = outputVids s.
Proof.
  rewrite /addConstraint. destruct (hasProperty _ _); [done|].
  rewrite /recordConstraintChange.
  match goal with |- context [recordChange ?x] =>
    destruct (recordChange_fields x)
      as (_ & _ & _ & _ & _ & _ & _ & _ & _ & _ & _ & _ & _ & _ & _ & ->) end.
  destruct (c_optional cc); simpl; by rewrite outputVids_addMethods.
Qed.

Lemma outputVids_removeMethods mms s :
  outputVids (foldl removeMethod s mms) = outputVids s.
Proof.
  revert s. induction mms as [|mm mms IH]; intros s; simpl; [done|].
  rewrite IH /removeMethod. by destruct (hasProperty _ _).
Qed.

Lemma outputVids_removeConstraint s cc s' :
  removeConstraint s cc = Done s' → outputVids s' = outputVids s.
Proof.
  rewrite /removeConstraint. destruct (hasProperty _ _); [|by intros [= <-]].
  destruct (sgraph _); [|done]. intros [= <-]. simpl.
  by rewrite outputVids_removeMethods.
Qed.

Lemma outputs_wf_applyRemove s el s' :
  outputs_wf s → applyRemove s el = Done s' → outputs_wf s'.
Proof.
  intros Hwf. destruct el as [cc|vid|from to|]; simpl.
  - intros Hrem. eapply outputs_wf_ext; [by eapply outputVids_removeConstraint|done].
  - intros [= <-]. by apply outputs_wf_removeOutput.
  - intros Hrem.
    by eapply same_core_outputs_wf; [by eapply same_core_removeTouchDependency|].
  - by intros [= <-].
Qed.

Lemma outputs_wf_applyAdd s el s' :
  outputs_wf s → applyAdd s el = Done s' → outputs_wf s'.
Proof.
  intros Hwf. destruct el as [cc|vid|from to|]; simpl.
  - intros [= <-]. eapply outputs_wf_ext; [apply outputVids_addConstraint|done].
  - intros [= <-]. by apply outputs_wf_addOutput.
  - intros Hadd.
    by eapply same_core_outputs_wf; [by eapply same_core_addTouchDependency|].
  - by intros [= <-].
Qed.

Lemma outputs_wf_updateModelLoop fuel s i l s' :
  outputs_wf s → updateModelLoop fuel s i l = Done s' → outputs_wf s'.
Proof.
  revert s i l. induction fuel as [|fuel IH]; intros s i l Hwf; cbn [updateModelLoop].
  - case_bool_decide; [done|]. by intros [= <-].
  - case_bool_decide; [|by intros [= <-]].
    destruct (needUpdating s !! i) as [ctx|]; [|done].
    assert (outputs_wf (reportUpdates s ctx).2) as Hwf1 by done.
    destruct (reportUpdates s ctx) as [updates s1]. cbn [snd] in Hwf1.
    destruct (foldM applyRemove s1 (removes updates)) as [s2| |] eqn:Hs2;
      cbn [mbind outcome_bind]; [|done..].
    destruct (foldM applyAdd s2 (adds updates)) as [s3| |] eqn:Hs3;
      cbn [mbind outcome_bind]; [|done..].
    apply IH.
    eapply (foldM_preserves outputs_wf applyAdd);
      [apply outputs_wf_applyAdd| |exact Hs3].
    by eapply (foldM_preserves outputs_wf applyRemove);
      [apply outputs_wf_applyRemove| |exact Hs2].
Qed.

Lemma outputs_wf_update s s' : outputs_wf s → update s = Done s' → outputs_wf s'.
Proof.
  intros Hwf. rewrite /update. destruct (isUpdateNeeded s); [|by intros [= <-]].
  rewrite /updateModel.
  destruct (updateModelLoop _ _ _ _) as [s1| |] eqn:Hs1; simpl; [|done..].
  assert (outputs_wf s1) as Hwf1 by (by eapply outputs_wf_updateModelLoop; [|exact Hs1]).
  destruct (plan s1) as [s2| |] eqn:Hs2; simpl; [|done..].
  destruct (evaluate s2) as [s3| |] eqn:Hs3; simpl; [|done..].
  assert (outputs_wf s3) as Hwf3.
  { eapply same_core_outputs_wf; [by apply same_core_evaluate|].
    by eapply same_core_outputs_wf; [by apply same_core_plan|]. }
  by case_bool_decide; intros [= <-].
Qed.

Lemma outputs_wf_step s s' : step s s' → outputs_wf s → outputs_wf s'.
Proof.
  intros Hstep Hwf. destruct Hstep.
  - eapply outputs_wf_ext; [apply outputVids_addVariable|done].
  - by apply outputs_wf_removeVariable.
  - eapply outputs_wf_ext; [apply outputVids_addConstraint|done].
  - eapply outputs_wf_ext; [by eapply outputVids_removeConstraint|done].
  - by apply outputs_wf_addOutput.
  - by apply outputs_wf_removeOutput.
  - by eapply same_core_outputs_wf; [by eapply same_core_addTouchDependency|].
  - by eapply same_core_outputs_wf; [by eapply same_core_removeTouchDependency|].
  - by eapply same_core_outputs_wf; [by eapply same_core_onNextVariableChange|].
  - by eapply same_core_outputs_wf; [apply same_core_recordChange|].
  - by eapply outputs_wf_update.
  - by eapply outputs_wf_update; [|done].
Qed.

(** Stored reference counts are positive in every reachable
    state. *)
Lemma reachable_outputs_wf s : reachable s → outputs_wf s.
Proof.
  intros Hreach.
  apply (rtc_ind_r (R := step) outputs_wf newPropertyModel); [| |done].
  - apply outputs_wf_new.
  - intros s1 s2 _ Hstep Hs1. by eapply outputs_wf_step.
Qed.

End OutputCounts.

(** * The update cycle *)

Section Update.
Context `{Externals}.

Lemma updateModelLoop_stop fuel s i l :
  ¬ i < l → updateModelLoop fuel s i l = Done s.
Proof. intros Hi. destruct fuel; simpl; by rewrite bool_decide_eq_false_2. Qed.

(** Whatever the length of [needUpdating], the loop of
    [updateModel] runs its body for the first context only. *)
Lemma updateModel_first_only s :
  updateModel s =
  match needUpdating s with
  | [] => Done s
  | ctx :: _ =>
    s2 ← foldM applyRemove (reportUpdates s ctx).2 (removes (reportUpdates s ctx).1);
    foldM applyAdd s2 (adds (reportUpdates s ctx).1)
  end.
Proof.
  rewrite /updateModel. destruct (needUpdating s) as [|ctx rest] eqn:Hq.
  - by rewrite updateModelLoop_stop; [simpl; lia|].
  - cbn [length updateModelLoop]. rewrite bool_decide_eq_true_2; first lia.
    rewrite Hq /=.
    destruct (foldM applyRemove _ _) as [s2| |]; simpl; [|done..].
    destruct (foldM applyAdd _ _) as [s3| |]; simpl; [|done..].
    by rewrite updateModelLoop_stop; [lia|].
Qed.

Lemma addTouchDependency_terminates s cc1 cc2 :
  addTouchDependency s cc1 cc2 ≠ OutOfFuel.
Proof.
  rewrite /addTouchDependency. destruct (touchDeps s !! _); [done|].
  destruct (inherited _); [|done]. by destruct arraySetAddThrows.
Qed.

Lemma removeTouchDependency_terminates s cc1 cc2 :
  removeTouchDependency s cc1 cc2 ≠ OutOfFuel.
Proof.
  rewrite /removeTouchDependency. destruct (touchDeps s !! _); [done|].
  destruct (inherited _); [|done]. by destruct arraySetRemoveThrows.
Qed.

Lemma applyRemove_terminates s el : applyRemove s el ≠ OutOfFuel.
Proof.
  destruct el as [cc| |from to|]; simpl; try done.
  - rewrite /removeConstraint. destruct (hasProperty _ _); [|done].
    by destruct (sgraph _).
  - apply removeTouchDependency_terminates.
Qed.

Lemma applyAdd_terminates s el : applyAdd s el ≠ OutOfFuel.
Proof.
  destruct el as [cc| |from to|]; simpl; try done.
  apply addTouchDependency_terminates.
Qed.

(** Nor does the fuel of the loop of [updateModel]. *)
Lemma updateModel_terminates s : updateModel s ≠ OutOfFuel.
Proof.
  rewrite updateModel_first_only. destruct (needUpdating s) as [|ctx rest]; [done|].
  pose proof (foldM_not_OutOfFuel applyRemove (removes (reportUpdates s ctx).1)
                applyRemove_terminates (reportUpdates s ctx).2) as Hf.
  destruct (foldM applyRemove _ _) as [s2| |]; simpl; [|done..].
  apply (foldM_not_OutOfFuel applyAdd), applyAdd_terminates.
Qed.




(** Every recorded change lowers [solved] and raises
    [isUpdateNeeded]. *)
Lemma recordChange_unsolves s :
  solved (recordChange s) = false ∧ isUpdateNeeded (recordChange s) = true.
Proof.
  destruct (recordChange_fields s)
    as (_ & _ & _ & _ & _ & _ & _ & _ & _ & _ & _ & _ & -> & -> & _).
  done.
Qed.

Lemma recorded_changes_unsolve s ctx cid :
  solved (recordContextChange s ctx) = false ∧
  solved (recordConstraintChange s cid) = false ∧
  solved (recordVariableChange s cid) = false.
Proof. repeat split; apply recordChange_unsolves. Qed.

(** The [settled] event raises [solved] only on [pendingCount == 0]
    with no update needed. *)
Lemma settled_raises_solved s vid s' :
  onNextVariableChange s (mkEvent settled vid) = Done s' →
  solved s' = true →
  solved s = true ∨ (pendingCount s' = 0 ∧ isUpdateNeeded s' = false).
Proof.
  rewrite /onNextVariableChange /=.
  case_bool_decide; [|intros [= <-]; by left].
  destruct (bool_decide _ && negb _) eqn:Hc; intros [= <-]; [|by left].
  apply andb_true_iff in Hc as [Hc1 Hc2].
  apply bool_decide_eq_true in Hc1. apply negb_true_iff in Hc2.
  intros _. right. by split.
Qed.


End Update.

(** ** The scenarios are reachable *)

Lemma scenario_settled_reachable : @reachable Sample.externals Scenario.settled.
Proof.
  eapply rtc_r; [eapply rtc_r; [exact scenario_declared_reachable|]|].
  - apply (step_addVariable _ Scenario.vc).
  - apply step_performScheduledUpdate. by vm_compute.
Qed.

Lemma scenario_announced_reachable : @reachable Sample.externals Scenario.announced.
Proof.
  eapply rtc_r; [exact scenario_settled_reachable|].
  apply step_contextChange. repeat constructor; done.
Qed.

Lemma scenario_afterAnnounced_reachable :
  @reachable Sample.externals Scenario.afterAnnounced.
Proof.
  eapply rtc_r; [exact scenario_announced_reachable|].
  apply step_performScheduledUpdate. by vm_compute.
Qed.

Lemma scenario_twoContexts_reachable : @reachable Sample.externals Scenario.twoContexts.
Proof.
  apply (rtc_r _ (Scenario.announce Scenario.settled "ctxA"
                    (mkChanges [ElOutput "a"] []))).
  - eapply rtc_r; [exact scenario_settled_reachable|].
    apply (step_contextChange _ "ctxA"). repeat constructor.
  - apply (step_contextChange _ "ctxB"). repeat constructor.
Qed.


(** C2: a reachable state in which [solved] has just been set to
    true although [isUpdateNeeded] is true.  The model is solved, a
    context reports a new constraint, and the scheduled update
    runs: [updateModel] adds the constraint, which records a change
    (raising [isUpdateNeeded] again and scheduling another update),
    and the end of [update] sets [solved] on [pendingCount == 0]
    alone. *)
Theorem solved_with_update_needed :
  @reachable Sample.externals Scenario.announced ∧
  solved Scenario.announced = false ∧
  @performScheduledUpdate Sample.externals Scenario.announced =
    Done Scenario.afterAnnounced ∧
  @reachable Sample.externals Scenario.afterAnnounced ∧
  pendingCount Scenario.afterAnnounced = 0 ∧
  solved Scenario.afterAnnounced = true ∧
  isUpdateNeeded Scenario.afterAnnounced = true ∧
  isUpdateScheduled Scenario.afterAnnounced = true.
Proof.
  split; [exact scenario_announced_reachable|].
  split; [by vm_compute|]. split; [by vm_compute|].
  split; [exact scenario_afterAnnounced_reachable|].
  repeat apply conj; vm_compute; reflexivity.
Qed.

(** C4: with two contexts queued, one update asks only the first
    for its changes and leaves both in the queue; what the second
    context accumulated stays unreported, its output unregistered,
    and the update flag is down. *)
Theorem updateModel_reports_first_context :
  needUpdating Scenario.twoContexts = ["ctxA"; "ctxB"]%string ∧
  @performScheduledUpdate Sample.externals Scenario.twoContexts =
    Done Scenario.afterTwoContexts ∧
  drop (length (calls Scenario.twoContexts)) (calls Scenario.afterTwoContexts) =
    [ReportUpdates "ctxA"] ∧
  needUpdating Scenario.afterTwoContexts = ["ctxA"; "ctxB"]%string ∧
  ctxUpdates Scenario.afterTwoContexts !! "ctxB"%string =
    Some (mkChanges [ElOutput "b"] []) ∧
  outputVids Scenario.afterTwoContexts !! "a"%string = Some (Num 1) ∧
  outputVids Scenario.afterTwoContexts !! "b"%string = None ∧
  isUpdateNeeded Scenario.afterTwoContexts = false ∧
  solved Scenario.afterTwoContexts = true.
Proof. repeat apply conj; vm_compute; reflexivity. Qed.



(** The same conflict before any plan has succeeded: [c1] and [c2]
    are both declared on a model that has not been updated yet, the
    first plan fails, there is no solution graph to retain, and the
    update throws in [evaluate]. *)
Example planner_failure_on_first_plan :
  let s0 := addConstraint Scenario.declared Scenario.c2 in
  isUpdateNeeded s0 = true ∧
  sgraph s0 = None ∧
  @updateModel Sample.externals (set_isUpdateNeeded s0 false) =
    Done (set_isUpdateNeeded s0 false) ∧
  @planner_plan Sample.externals (cgraph s0) (planner s0) (sgraph s0)
    (elements (needEnforcing s0)) = None ∧
  @update Sample.externals s0 = TypeError.
Proof. repeat apply conj; vm_compute; reflexivity. Qed.

(** C1 fails on touch dependencies whose target is a variable.
    Such a dependency is recorded under the target's stay constraint
    id, which the registry [constraints] never holds; touching or
    changing the source variable dereferences the missing entry and
    throws before any promotion, where the claim has the target
    visited and promoted. *)
Theorem touch_dependency_on_variable_throws :
  let s := Scenario.from_done
             (@addTouchDependency Sample.externals Scenario.declared
                (OfVariable "a") (OfVariable "b")) in
  @addTouchDependency Sample.externals Scenario.declared
    (OfVariable "a") (OfVariable "b") = Done s ∧
  @reachable Sample.externals s ∧
  v_optional <$> variables s !! "a"%string = Some Max ∧
  v_optional <$> variables s !! "b"%string = Some Min ∧
  touchDeps s !! @stayConstraint Sample.externals "a" =
    Some [@stayConstraint Sample.externals "b"] ∧
  constraints s !! @stayConstraint Sample.externals "b" = None ∧
  @onNextVariableChange Sample.externals s (mkEvent touched "a") = TypeError ∧
  @onNextVariableChange Sample.externals s (mkEvent changed "a") = TypeError.
Proof.
  split; [vm_compute; reflexivity|]. split.
  - eapply rtc_r; [exact scenario_declared_reachable|].
    apply (step_addTouchDependency _ (OfVariable "a") (OfVariable "b")).
    vm_compute; reflexivity.
  - repeat apply conj; vm_compute; reflexivity.
Qed.

(** * Further properties of [pm.ts] *)

Section Recording.
Context `{Externals}.

Lemma recordChange_schedule s :
  calls (recordChange s) =
    calls s ++ (if scheduleUpdateOnChange s && negb (isUpdateScheduled s)
                then [Schedule] else []) ∧
  isUpdateScheduled (recordChange s) =
    isUpdateScheduled s || scheduleUpdateOnChange s ∧
  scheduleUpdateOnChange (recordChange s) = scheduleUpdateOnChange s.
Proof.
  rewrite /recordChange /scheduleUpdate /=.
  destruct (scheduleUpdateOnChange s) eqn:Hon, (isUpdateScheduled s) eqn:Hsched;
    simpl; rewrite ?Hon ?Hsched ?app_nil_r //.
Qed.

Lemma recordOne_schedule s r :
  calls (recordOne s r) =
    calls s ++ (if scheduleUpdateOnChange s && negb (isUpdateScheduled s)
                then [Schedule] else []) ∧
  isUpdateScheduled (recordOne s r) =
    isUpdateScheduled s || scheduleUpdateOnChange s ∧
  scheduleUpdateOnChange (recordOne s r) = scheduleUpdateOnChange s ∧
  isUpdateNeeded (recordOne s r) = true ∧
  solved (recordOne s r) = false.
Proof.
  destruct r; simpl;
    rewrite /recordContextChange /recordConstraintChange /recordVariableChange;
    match goal with |- context [recordChange ?x] =>
      destruct (recordChange_schedule x) as (-> & -> & ->);
      destruct (recordChange_unsolves x) as (-> & ->) end; done.
Qed.

Lemma recordMany_schedule rs s :
  calls (foldl recordOne s rs) =
    calls s ++ (if bool_decide (rs ≠ []) && scheduleUpdateOnChange s
                   && negb (isUpdateScheduled s)
                then [Schedule] else []) ∧
  isUpdateScheduled (foldl recordOne s rs) =
    isUpdateScheduled s || (bool_decide (rs ≠ []) && scheduleUpdateOnChange s) ∧
  scheduleUpdateOnChange (foldl recordOne s rs) = scheduleUpdateOnChange s.
Proof.
  revert s. induction rs as [|r rs IH]; intros s; simpl.
  - rewrite app_nil_r orb_false_r. done.
  - destruct (IH (recordOne s r)) as (-> & -> & ->).
    destruct (recordOne_schedule s r) as (-> & -> & -> & _).
    destruct (scheduleUpdateOnChange s), (isUpdateScheduled s),
      (bool_decide (rs ≠ [])); simpl; rewrite ?app_nil_r //.
Qed.

(** X1: however many changes are recorded before the scheduler
    runs, [u.schedule] is called once, and only if no update was
    scheduled already and scheduling on change is on; afterwards an
    update is needed and [solved] is down. *)
Theorem recorded_changes_coalesce (s : PropertyModel) (rs : list ChangeRecord) :
  rs ≠ [] →
  calls (foldl recordOne s rs) =
    calls s ++ (if scheduleUpdateOnChange s && negb (isUpdateScheduled s)
                then [Schedule] else []) ∧
  isUpdateScheduled (foldl recordOne s rs) =
    isUpdateScheduled s || scheduleUpdateOnChange s ∧
  isUpdateNeeded (foldl recordOne s rs) = true ∧
  solved (foldl recordOne s rs) = false.
Proof.
  intros Hne. destruct (recordMany_schedule rs s) as (-> & -> & _).
  rewrite (bool_decide_eq_true_2 (rs ≠ [])) //=. split; [done|]. split; [done|].
  destruct rs as [|r rs _] using rev_ind; [done|].
  rewrite foldl_app /=.
  by destruct (recordOne_schedule (foldl recordOne s rs) r) as (_ & _ & _ & -> & ->).
Qed.

End Recording.

Lemma recorded_changes_coalesce_witness :
  [ConstraintChanged "c1"; VariableChanged "sc#a"; ContextChanged "ctx"] ≠ [] ∧
  calls (foldl recordOne newPropertyModel
           [ConstraintChanged "c1"; VariableChanged "sc#a"; ContextChanged "ctx"]) =
    [Schedule].
Proof.
  assert (Hne : [ConstraintChanged "c1"; VariableChanged "sc#a";
                 ContextChanged "ctx"] ≠ []) by done.
  split; [exact Hne|].
  exact (proj1 (recorded_changes_coalesce newPropertyModel _ Hne)).
Defined.

Section TouchRegistry.
Context `{Externals}.

Lemma elem_of_arraySet_add l x y : y ∈ arraySet.add l x ↔ y = x ∨ y ∈ l.
Proof.
  rewrite /arraySet.add. case_bool_decide; [|set_solver].
  split; [by right|]. by intros [->|].
Qed.

Lemma NoDup_arraySet_add l x : NoDup l → NoDup (arraySet.add l x).
Proof.
  rewrite /arraySet.add. case_bool_decide; [done|].
  intros Hl. apply NoDup_app. split_and!; [done|set_solver|apply NoDup_singleton].
Qed.

Lemma arraySet_add_twice l x : arraySet.add (arraySet.add l x) x = arraySet.add l x.
Proof.
  rewrite {1}/arraySet.add bool_decide_eq_true_2 //.
  apply elem_of_arraySet_add. by left.
Qed.

Lemma arraySet_remove_absent l x : x ∉ l → arraySet.remove l x = l.
Proof.
  induction l as [|y l IH]; [done|]. intros Hx. simpl.
  rewrite bool_decide_eq_false_2; [set_solver|]. rewrite IH; [set_solver|done].
Qed.

Lemma arraySet_remove_add l x : x ∉ l → arraySet.remove (arraySet.add l x) x = l.
Proof.
  intros Hx. rewrite /arraySet.add bool_decide_eq_false_2 //.
  induction l as [|y l IH]; simpl.
  - by rewrite bool_decide_eq_true_2.
  - rewrite bool_decide_eq_false_2; [set_solver|]. rewrite IH; [set_solver|done].
Qed.

Lemma elem_of_arraySet_remove l x y :
  NoDup l → y ∈ arraySet.remove l x ↔ y ≠ x ∧ y ∈ l.
Proof.
  induction 1 as [|z l Hz Hl IH]; simpl; [set_solver|].
  case_bool_decide; subst.
  - split; [|set_solver]. intros Hy. split; [|set_solver]. by intros ->.
  - set_solver.
Qed.

Lemma NoDup_arraySet_remove l x : NoDup l → NoDup (arraySet.remove l x).
Proof.
  induction 1 as [|z l Hz Hl IH]; simpl; [constructor|].
  case_bool_decide; [done|]. constructor; [|done].
  rewrite elem_of_arraySet_remove //. tauto.
Qed.

Lemma set_touchDeps_twice s m1 m2 :
  set_touchDeps (set_touchDeps s m1) m2 = set_touchDeps s m2.
Proof. by destruct s. Qed.

Lemma set_touchDeps_same s : set_touchDeps s (touchDeps s) = s.
Proof. by destruct s. Qed.

Lemma touchDeps_set s m : touchDeps (set_touchDeps s m) = m.
Proof. by destruct s. Qed.

Lemma addTouchDependency_plain s a b :
  plainSource a → addTouchDependency s a b = Done (recordDependency s a b).
Proof.
  rewrite /plainSource /addTouchDependency /recordDependency /depsOf. intros ->.
  by destruct (touchDeps s !! endpointId a).
Qed.

Lemma removeTouchDependency_plain s a b :
  plainSource a → removeTouchDependency s a b = Done (dropDependency s a b).
Proof.
  rewrite /plainSource /removeTouchDependency /dropDependency. intros ->.
  by destruct (touchDeps s !! endpointId a).
Qed.

Lemma foldM_pure {B : Type} (P : B → Prop)
    (f : PropertyModel → B → outcome PropertyModel)
    (g : PropertyModel → B → PropertyModel) (l : list B) (s : PropertyModel) :
  (∀ s b, P b → f s b = Done (g s b)) →
  Forall P l → foldM f s l = Done (foldl g s l).
Proof.
  intros Hfg Hl. revert s. induction Hl as [|b l Hb Hl IH]; intros s; [done|].
  simpl. by rewrite Hfg // /= IH.
Qed.

Lemma depsOf_recordDependency s a b c :
  depsOf (recordDependency s a b) c =
    if bool_decide (c = endpointId a)
    then arraySet.add (depsOf s c) (endpointId b)
    else depsOf s c.
Proof.
  rewrite /recordDependency {1}/depsOf touchDeps_set.
  case_bool_decide; subst; rewrite ?lookup_insert_eq ?lookup_insert_ne //.
Qed.

Lemma depsOf_dropDependency s a b c :
  depsOf (dropDependency s a b) c =
    if bool_decide (c = endpointId a)
    then arraySet.remove (depsOf s c) (endpointId b)
    else depsOf s c.
Proof.
  rewrite /depsOf /dropDependency.
  destruct (touchDeps s !! endpointId a) as [deps|] eqn:Hdeps;
    rewrite ?touchDeps_set; case_bool_decide; subst;
    rewrite ?lookup_insert_eq ?lookup_insert_ne ?Hdeps //.
Qed.

(** X2: for a source that is no inherited name,
    [addTouchDependency] returns and makes the target a dependency
    of the source and changes nothing else: the source's other
    dependencies stay, no duplicate appears, the other sources keep
    their lists, and adding the same dependency again changes nothing
    at all. *)
Theorem addTouchDependency_registers (s : PropertyModel) (cc1 cc2 : Endpoint) :
  plainSource cc1 →
  ∃ s', addTouchDependency s cc1 cc2 = Done s' ∧
        (∀ d, d ∈ depsOf s' (endpointId cc1) ↔
              d = endpointId cc2 ∨ d ∈ depsOf s (endpointId cc1)) ∧
        (NoDup (depsOf s (endpointId cc1)) → NoDup (depsOf s' (endpointId cc1))) ∧
        (∀ c, c ≠ endpointId cc1 → depsOf s' c = depsOf s c) ∧
        addTouchDependency s' cc1 cc2 = Done s'.
Proof.
  intros Hplain. exists (recordDependency s cc1 cc2).
  split; [by apply addTouchDependency_plain|]. split_and!.
  - intros d. rewrite depsOf_recordDependency bool_decide_eq_true_2 //.
    apply elem_of_arraySet_add.
  - rewrite depsOf_recordDependency bool_decide_eq_true_2 //.
    apply NoDup_arraySet_add.
  - intros c Hc. rewrite depsOf_recordDependency bool_decide_eq_false_2 //.
  - rewrite addTouchDependency_plain //. f_equal.
    rewrite {1}/recordDependency depsOf_recordDependency bool_decide_eq_true_2 //.
    rewrite arraySet_add_twice /recordDependency touchDeps_set.
    by rewrite set_touchDeps_twice insert_insert_eq.
Qed.

(** X3: for a source that is no inherited name,
    [removeTouchDependency] undoes [addTouchDependency]: both calls
    return, and when the target was not yet a dependency of the
    source, every source has the dependencies it had before. *)
Theorem removeTouchDependency_undoes_add (s : PropertyModel) (cc1 cc2 : Endpoint) :
  plainSource cc1 →
  endpointId cc2 ∉ depsOf s (endpointId cc1) →
  ∃ s1 s2, addTouchDependency s cc1 cc2 = Done s1 ∧
           removeTouchDependency s1 cc1 cc2 = Done s2 ∧
           ∀ c, depsOf s2 c = depsOf s c.
Proof.
  intros Hplain Hnew.
  exists (recordDependency s cc1 cc2),
         (dropDependency (recordDependency s cc1 cc2) cc1 cc2).
  split; [by apply addTouchDependency_plain|].
  split; [by apply removeTouchDependency_plain|].
  intros c. rewrite depsOf_dropDependency depsOf_recordDependency.
  case_bool_decide; subst; [|done]. by apply arraySet_remove_add.
Qed.

(** X4: for a source that is no inherited name,
    [removeTouchDependency] returns; it takes the target out of a
    duplicate-free list and nothing else, and for a source that has
    no list it does nothing at all. *)
Theorem removeTouchDependency_removes (s : PropertyModel) (cc1 cc2 : Endpoint) :
  plainSource cc1 →
  NoDup (depsOf s (endpointId cc1)) →
  ∃ s', removeTouchDependency s cc1 cc2 = Done s' ∧
        (∀ d, d ∈ depsOf s' (endpointId cc1) ↔
              d ≠ endpointId cc2 ∧ d ∈ depsOf s (endpointId cc1)) ∧
        (∀ c, c ≠ endpointId cc1 → depsOf s' c = depsOf s c) ∧
        (touchDeps s !! endpointId cc1 = None → s' = s).
Proof.
  intros Hplain Hnd. exists (dropDependency s cc1 cc2).
  split; [by apply removeTouchDependency_plain|]. split_and!.
  - intros d. rewrite depsOf_dropDependency bool_decide_eq_true_2 //.
    by apply elem_of_arraySet_remove.
  - intros c Hc. rewrite depsOf_dropDependency bool_decide_eq_false_2 //.
  - rewrite /dropDependency. by intros ->.
Qed.

(** The index pairs of [addTouchSet] and [removeTouchSet], in the
    order of the two loops. *)
Lemma touchSet_pairs (f : PropertyModel → Endpoint → Endpoint → outcome PropertyModel)
    (l1 l2 : list (nat * Endpoint)) (s : PropertyModel) :
  foldM (λ s ia,
           foldM (λ s jb, if bool_decide (ia.1 ≠ jb.1) then f s ia.2 jb.2 else Done s)
                 s l2) s l1 =
  foldM (λ s p, f s p.1 p.2) s
        (ia ← l1; jb ← l2; if bool_decide (ia.1 ≠ jb.1) then [(ia.2, jb.2)] else []).
Proof.
  revert s. induction l1 as [|ia l1 IH]; intros s; [done|].
  rewrite bind_cons foldM_app. cbn [foldM].
  assert (Hinner : ∀ s,
    foldM (λ s jb, if bool_decide (ia.1 ≠ jb.1) then f s ia.2 jb.2 else Done s) s l2 =
    foldM (λ s p, f s p.1 p.2) s
          (jb ← l2; if bool_decide (ia.1 ≠ jb.1) then [(ia.2, jb.2)] else [])).
  { clear. induction l2 as [|jb l2 IH2]; intros s; [done|].
    rewrite bind_cons foldM_app. cbn [foldM].
    case_bool_decide; cbn [foldM mbind outcome_bind fst snd].
    - destruct (f s ia.2 jb.2) as [s1| |]; cbn [mbind outcome_bind]; [apply IH2|done..].
    - apply IH2. }
  rewrite Hinner.
  destruct (foldM _ s _) as [s1| |]; cbn [mbind outcome_bind]; [apply IH|done..].
Qed.

Lemma elem_of_touchSet_pairs (ccs : list Endpoint) (a b : Endpoint) :
  (a, b) ∈ (ia ← indexed ccs; jb ← indexed ccs;
            if bool_decide (ia.1 ≠ jb.1) then [(ia.2, jb.2)] else []) ↔
  ∃ i j, i ≠ j ∧ ccs !! i = Some a ∧ ccs !! j = Some b.
Proof.
  rewrite list_elem_of_bind. split.
  - intros ([i a'] & Hin & Hi).
    apply list_elem_of_bind in Hin as ([j b'] & Hin & Hj).
    apply elem_of_lookup_imap in Hi as (i0 & a0 & [= <- <-] & Hi).
    apply elem_of_lookup_imap in Hj as (j0 & b0 & [= <- <-] & Hj).
    simpl in Hin. case_bool_decide; [|set_solver].
    apply list_elem_of_singleton in Hin as [= -> ->]. by exists i, j.
  - intros (i & j & Hij & Hi & Hj). exists (i, a). split.
    + apply list_elem_of_bind. exists (j, b). split.
      * simpl. rewrite bool_decide_eq_true_2 //. set_solver.
      * apply elem_of_lookup_imap. by exists j, b.
    + apply elem_of_lookup_imap. by exists i, a.
Qed.

Lemma touchSet_pairs_plain (ccs : list Endpoint) :
  Forall plainSource ccs →
  Forall (λ p : Endpoint * Endpoint, plainSource p.1)
         (ia ← indexed ccs; jb ← indexed ccs;
          if bool_decide (ia.1 ≠ jb.1) then [(ia.2, jb.2)] else []).
Proof.
  rewrite !Forall_forall. intros Hccs [a b] Hin.
  apply elem_of_touchSet_pairs in Hin as (i & j & _ & Hi & _).
  apply Hccs. by eapply list_elem_of_lookup_2.
Qed.

Lemma depsOf_add_pairs (ps : list (Endpoint * Endpoint)) (s : PropertyModel) c d :
  d ∈ depsOf (foldl (λ s p, recordDependency s p.1 p.2) s ps) c ↔
  d ∈ depsOf s c ∨ ∃ a b, (a, b) ∈ ps ∧ c = endpointId a ∧ d = endpointId b.
Proof.
  revert s. induction ps as [|[a b] ps IH]; intros s; simpl.
  - split; [by left|]. intros [|(? & ? & ?%elem_of_nil & _)]; done.
  - rewrite IH depsOf_recordDependency. case_bool_decide; subst.
    + rewrite elem_of_arraySet_add. split.
      * intros [[->|]|(a' & b' & Hin & -> & ->)]; [|by left|].
        -- right. exists a, b. split_and!; [left|done..].
        -- right. exists a', b'. split_and!; [by right|done..].
      * intros [|(a' & b' & [[= -> ->]|Hin]%elem_of_cons & Ha & ->)];
          [by left; right| by left; left|].
        right. by exists a', b'.
    + split.
      * intros [|(a' & b' & Hin & -> & ->)]; [by left|].
        right. exists a', b'. split_and!; [by right|done..].
      * intros [|(a' & b' & [[= -> ->]|Hin]%elem_of_cons & Ha & ->)];
          [by left|done|].
        right. by exists a', b'.
Qed.

Lemma NoDup_add_pairs (ps : list (Endpoint * Endpoint)) (s : PropertyModel) :
  (∀ c, NoDup (depsOf s c)) →
  ∀ c, NoDup (depsOf (foldl (λ s p, recordDependency s p.1 p.2) s ps) c).
Proof.
  revert s. induction ps as [|[a b] ps IH]; intros s Hs; [done|].
  simpl. apply IH. intros c. rewrite depsOf_recordDependency.
  case_bool_decide; [by apply NoDup_arraySet_add|done].
Qed.

Lemma depsOf_remove_pairs (ps : list (Endpoint * Endpoint)) (s : PropertyModel) :
  (∀ c, NoDup (depsOf s c)) →
  ∀ c d,
  d ∈ depsOf (foldl (λ s p, dropDependency s p.1 p.2) s ps) c ↔
  d ∈ depsOf s c ∧ ¬ ∃ a b, (a, b) ∈ ps ∧ c = endpointId a ∧ d = endpointId b.
Proof.
  revert s. induction ps as [|[a b] ps IH]; intros s Hs c d; simpl.
  - split; [|by intros []]. intros Hd. split; [done|].
    by intros (? & ? & ?%elem_of_nil & _).
  - assert (Hs' : ∀ c, NoDup (depsOf (dropDependency s a b) c)).
    { intros c'. rewrite depsOf_dropDependency.
      case_bool_decide; [by apply NoDup_arraySet_remove|done]. }
    rewrite (IH _ Hs') depsOf_dropDependency. case_bool_decide; subst.
    + rewrite elem_of_arraySet_remove //. split.
      * intros [[Hne Hd] Hno]. split; [done|].
        intros (a' & b' & [[= -> ->]|Hin]%elem_of_cons & Ha & Hb); [done|].
        apply Hno. by exists a', b'.
      * intros [Hd Hno]. split_and!; [|done|].
        -- intros ->. apply Hno. exists a, b. split_and!; [left|done..].
        -- intros (a' & b' & Hin & Ha & Hb). apply Hno.
           exists a', b'. split_and!; [by right|done..].
    + split.
      * intros [Hd Hno]. split; [done|].
        intros (a' & b' & [[= -> ->]|Hin]%elem_of_cons & Ha & Hb); [done|].
        apply Hno. by exists a', b'.
      * intros [Hd Hno]. split; [done|].
        intros (a' & b' & Hin & Ha & Hb). apply Hno.
        exists a', b'. split_and!; [by right|done..].
Qed.

Lemma add_pairs_plain (ps : list (Endpoint * Endpoint)) (s : PropertyModel) :
  Forall (λ p : Endpoint * Endpoint, plainSource p.1) ps →
  foldM (λ s p, addTouchDependency s p.1 p.2) s ps =
  Done (foldl (λ s p, recordDependency s p.1 p.2) s ps).
Proof.
  apply (foldM_pure (λ p : Endpoint * Endpoint, plainSource p.1)).
  intros s' p Hp. by apply addTouchDependency_plain.
Qed.

Lemma remove_pairs_plain (ps : list (Endpoint * Endpoint)) (s : PropertyModel) :
  Forall (λ p : Endpoint * Endpoint, plainSource p.1) ps →
  foldM (λ s p, removeTouchDependency s p.1 p.2) s ps =
  Done (foldl (λ s p, dropDependency s p.1 p.2) s ps).
Proof.
  apply (foldM_pure (λ p : Endpoint * Endpoint, plainSource p.1)).
  intros s' p Hp. by apply removeTouchDependency_plain.
Qed.

(** X5: when no element of the array is an inherited name,
    [addTouchSet] returns, and afterwards [d] is a dependency of [c]
    exactly when it was one before or [c] and [d] are the ids of two
    elements at different positions of the array; lists without
    duplicates stay so. *)
Theorem addTouchSet_links (s : PropertyModel) (ccs : list Endpoint) :
  Forall plainSource ccs →
  ∃ s', addTouchSet s ccs = Done s' ∧
        (∀ c d, d ∈ depsOf s' c ↔
                d ∈ depsOf s c ∨
                ∃ i j a b, i ≠ j ∧ ccs !! i = Some a ∧ ccs !! j = Some b ∧
                           c = endpointId a ∧ d = endpointId b) ∧
        ((∀ c, NoDup (depsOf s c)) → ∀ c, NoDup (depsOf s' c)).
Proof.
  intros Hplain. eexists. split.
  { rewrite /addTouchSet (touchSet_pairs addTouchDependency).
    by apply add_pairs_plain, touchSet_pairs_plain. }
  split.
  - intros c d. rewrite depsOf_add_pairs. split.
    + intros [|(a & b & (i & j & ?)%elem_of_touchSet_pairs & ? & ?)]; [by left|].
      right. exists i, j, a, b. naive_solver.
    + intros [|(i & j & a & b & ? & ? & ? & ? & ?)]; [by left|].
      right. exists a, b. split; [|done]. apply elem_of_touchSet_pairs. by exists i, j.
  - apply NoDup_add_pairs.
Qed.

(** X6: when no element of the array is an inherited name, on
    duplicate-free lists [removeTouchSet] returns and takes out
    exactly the links between two elements at different positions of
    the array. *)
Theorem removeTouchSet_unlinks (s : PropertyModel) (ccs : list Endpoint) :
  Forall plainSource ccs →
  (∀ c, NoDup (depsOf s c)) →
  ∃ s', removeTouchSet s ccs = Done s' ∧
        ∀ c d, d ∈ depsOf s' c ↔
               d ∈ depsOf s c ∧
               ¬ ∃ i j a b, i ≠ j ∧ ccs !! i = Some a ∧ ccs !! j = Some b ∧
                            c = endpointId a ∧ d = endpointId b.
Proof.
  intros Hplain Hs. eexists. split.
  { rewrite /removeTouchSet (touchSet_pairs removeTouchDependency).
    by apply remove_pairs_plain, touchSet_pairs_plain. }
  intros c d. rewrite depsOf_remove_pairs //. split.
  - intros [Hd Hno]. split; [done|].
    intros (i & j & a & b & ? & ? & ? & ? & ?). apply Hno.
    exists a, b. split; [|done]. apply elem_of_touchSet_pairs. by exists i, j.
  - intros [Hd Hno]. split; [done|].
    intros (a & b & (i & j & ?)%elem_of_touchSet_pairs & ? & ?). apply Hno.
    exists i, j, a, b. naive_solver.
Qed.

End TouchRegistry.

Lemma sample_plainSource_variable vid : @plainSource Sample.externals (OfVariable vid).
Proof.
  apply bool_decide_eq_false. rewrite /objectPrototype. simpl.
  rewrite /Sample.stayConstraint. intros Hin.
  repeat (apply elem_of_cons in Hin as [Heq|Hin]; [discriminate Heq|]).
  by apply elem_of_nil in Hin.
Qed.

Lemma scenario_touchy_NoDup c : NoDup (depsOf Scenario.touchy c).
Proof.
  rewrite /depsOf.
  destruct (touchDeps Scenario.touchy !! c) as [l|] eqn:Hl; [|constructor].
  assert (Hall : map_Forall (λ (_ : string) (l : list string), NoDup l)
                   (touchDeps Scenario.touchy)).
  { apply (bool_decide_unpack _). by vm_compute. }
  exact (map_Forall_lookup_1 _ _ _ _ Hall Hl).
Qed.

Lemma addTouchDependency_registers_witness :
  @plainSource Sample.externals (OfVariable "b") ∧
  ∃ s', @addTouchDependency Sample.externals Scenario.touchy
          (OfVariable "b") (OfConstraint "k1") = Done s' ∧
        (∀ d, d ∈ depsOf s' (@endpointId Sample.externals (OfVariable "b")) ↔
              d = @endpointId Sample.externals (OfConstraint "k1") ∨
              d ∈ depsOf Scenario.touchy
                    (@endpointId Sample.externals (OfVariable "b"))) ∧
        (NoDup (depsOf Scenario.touchy (@endpointId Sample.externals (OfVariable "b"))) →
         NoDup (depsOf s' (@endpointId Sample.externals (OfVariable "b")))) ∧
        (∀ c, c ≠ @endpointId Sample.externals (OfVariable "b") →
              depsOf s' c = depsOf Scenario.touchy c) ∧
        @addTouchDependency Sample.externals s'
          (OfVariable "b") (OfConstraint "k1") = Done s'.
Proof.
  split; [exact (sample_plainSource_variable "b")|].
  exact (@addTouchDependency_registers Sample.externals Scenario.touchy
           (OfVariable "b") (OfConstraint "k1") (sample_plainSource_variable "b")).
Defined.

Lemma removeTouchDependency_undoes_add_witness :
  @plainSource Sample.externals (OfVariable "b") ∧
  @endpointId Sample.externals (OfConstraint "k1") ∉
    depsOf Scenario.touchy (@endpointId Sample.externals (OfVariable "b")) ∧
  ∃ s1 s2,
    @addTouchDependency Sample.externals Scenario.touchy
      (OfVariable "b") (OfConstraint "k1") = Done s1 ∧
    @removeTouchDependency Sample.externals s1
      (OfVariable "b") (OfConstraint "k1") = Done s2 ∧
    ∀ c, depsOf s2 c = depsOf Scenario.touchy c.
Proof.
  assert (Hnew : @endpointId Sample.externals (OfConstraint "k1") ∉
                 depsOf Scenario.touchy (@endpointId Sample.externals (OfVariable "b"))).
  { vm_compute. by intros ?%elem_of_nil. }
  split; [exact (sample_plainSource_variable "b")|].
  split; [exact Hnew|].
  exact (@removeTouchDependency_undoes_add Sample.externals Scenario.touchy
           (OfVariable "b") (OfConstraint "k1")
           (sample_plainSource_variable "b") Hnew).
Defined.

Lemma removeTouchDependency_removes_witness :
  @plainSource Sample.externals (OfVariable "a") ∧
  NoDup (depsOf Scenario.touchy (@endpointId Sample.externals (OfVariable "a"))) ∧
  ∃ s', @removeTouchDependency Sample.externals Scenario.touchy
          (OfVariable "a") (OfConstraint "k3") = Done s' ∧
        (∀ d, d ∈ depsOf s' (@endpointId Sample.externals (OfVariable "a")) ↔
              d ≠ @endpointId Sample.externals (OfConstraint "k3") ∧
              d ∈ depsOf Scenario.touchy
                    (@endpointId Sample.externals (OfVariable "a"))) ∧
        (∀ c, c ≠ @endpointId Sample.externals (OfVariable "a") →
              depsOf s' c = depsOf Scenario.touchy c) ∧
        (touchDeps Scenario.touchy !! @endpointId Sample.externals (OfVariable "a")
           = None → s' = Scenario.touchy).
Proof.
  split; [exact (sample_plainSource_variable "a")|].
  split; [exact (scenario_touchy_NoDup _)|].
  exact (@removeTouchDependency_removes Sample.externals Scenario.touchy
           (OfVariable "a") (OfConstraint "k3")
           (sample_plainSource_variable "a") (scenario_touchy_NoDup _)).
Defined.

Lemma addTouchSet_links_witness :
  Forall (@plainSource Sample.externals) [OfVariable "a"; OfVariable "b"] ∧
  ∃ s', @addTouchSet Sample.externals Scenario.touchy
          [OfVariable "a"; OfVariable "b"] = Done s' ∧
        (∀ c d, d ∈ depsOf s' c ↔
                d ∈ depsOf Scenario.touchy c ∨
                ∃ i j a b, i ≠ j ∧
                  [OfVariable "a"; OfVariable "b"] !! i = Some a ∧
                  [OfVariable "a"; OfVariable "b"] !! j = Some b ∧
                  c = @endpointId Sample.externals a ∧
                  d = @endpointId Sample.externals b) ∧
        ((∀ c, NoDup (depsOf Scenario.touchy c)) → ∀ c, NoDup (depsOf s' c)).
Proof.
  assert (Hplain : Forall (@plainSource Sample.externals)
                     [OfVariable "a"; OfVariable "b"]).
  { repeat constructor; apply sample_plainSource_variable. }
  split; [exact Hplain|].
  exact (@addTouchSet_links Sample.externals Scenario.touchy
           [OfVariable "a"; OfVariable "b"] Hplain).
Defined.

Lemma removeTouchSet_unlinks_witness :
  Forall (@plainSource Sample.externals) [OfVariable "a"; OfVariable "b"] ∧
  (∀ c, NoDup (depsOf Scenario.touchy c)) ∧
  ∃ s', @removeTouchSet Sample.externals Scenario.touchy
          [OfVariable "a"; OfVariable "b"] = Done s' ∧
        ∀ c d, d ∈ depsOf s' c ↔
               d ∈ depsOf Scenario.touchy c ∧
               ¬ ∃ i j a b, i ≠ j ∧
                   [OfVariable "a"; OfVariable "b"] !! i = Some a ∧
                   [OfVariable "a"; OfVariable "b"] !! j = Some b ∧
                   c = @endpointId Sample.externals a ∧
                   d = @endpointId Sample.externals b.
Proof.
  assert (Hplain : Forall (@plainSource Sample.externals)
                     [OfVariable "a"; OfVariable "b"]).
  { repeat constructor; apply sample_plainSource_variable. }
  split; [exact Hplain|]. split; [exact scenario_touchy_NoDup|].
  exact (@removeTouchSet_unlinks Sample.externals Scenario.touchy
           [OfVariable "a"; OfVariable "b"] Hplain scenario_touchy_NoDup).
Defined.

Section PendingCount.
Context `{Externals}.

Lemma pending_events vs s :
  foldM onNextVariableChange s (mkEvent pending <$> vs) =
  Done (set_pendingCount s (pendingCount s + length vs)).
Proof.
  revert s. induction vs as [|v vs IH]; intros s.
  - simpl. rewrite Nat.add_0_r. by destruct s.
  - cbn [fmap list_fmap foldM]. rewrite /onNextVariableChange /=.
    rewrite IH. destruct s; simpl. do 2 f_equal. lia.
Qed.

Lemma settled_event s v :
  onNextVariableChange s (mkEvent settled v) =
  Done (let s1 := set_pendingCount s (pred (pendingCount s)) in
        if bool_decide (pendingCount s = 1) && negb (isUpdateNeeded s)
        then set_solved s1 true else s1).
Proof.
  rewrite /onNextVariableChange /=.
  destruct s as [? ? ? ? ? ? ? ? ? ? k ? ? ? needed ? ? ? ? ?].
  simpl. by destruct k as [|[|k]], needed.
Qed.

Lemma settled_events vs s :
  foldM onNextVariableChange s (mkEvent settled <$> vs) =
  Done (let s1 := set_pendingCount s (pendingCount s - length vs) in
        if bool_decide (0 < pendingCount s ≤ length vs) && negb (isUpdateNeeded s)
        then set_solved s1 true else s1).
Proof.
  revert s. induction vs as [|v vs IH]; intros s.
  - simpl. rewrite Nat.sub_0_r bool_decide_eq_false_2; [lia|]. by destruct s.
  - cbn [fmap list_fmap foldM]. rewrite settled_event.
    cbn [mbind outcome_bind]. rewrite IH. clear IH.
    destruct s as [? ? ? ? ? ? ? ? ? ? k ? ? ? needed ? ? ? ? ?].
    rewrite /set_pendingCount /set_solved /=.
    destruct needed; rewrite ?andb_false_r ?andb_true_r /=.
    + do 2 f_equal. lia.
    + destruct k as [|[|k]]; simpl; repeat (case_bool_decide; simpl); try lia;
        do 2 f_equal; lia.
Qed.

(** X7: [pendingCount] counts the pending events that have not
    been settled yet and never goes below zero.  [solved] is raised by
    the settled event that brings the count back to zero, if no update
    is needed then, and by no other pending or settled event. *)
Theorem pending_settled_count (s : PropertyModel) (vs1 vs2 : list string) :
  foldM onNextVariableChange s
        ((mkEvent pending <$> vs1) ++ (mkEvent settled <$> vs2)) =
  Done (let n := pendingCount s + length vs1 in
        let s1 := set_pendingCount s (n - length vs2) in
        if bool_decide (0 < n ≤ length vs2) && negb (isUpdateNeeded s)
        then set_solved s1 true else s1).
Proof.
  rewrite foldM_app pending_events /= settled_events.
  by destruct s.
Qed.

End PendingCount.

Section Registration.

Lemma addMethod_frame cid s mm :
  ∃ m g, addMethod cid s mm = set_cgraph (set_methods s m) g.
Proof.
  rewrite /addMethod. destruct (hasProperty _ _); [|by eexists _, _].
  exists (methods s), (cgraph s). by destruct s.
Qed.

Lemma addMethods_frame cid mms s :
  ∃ m g, foldl (addMethod cid) s mms = set_cgraph (set_methods s m) g.
Proof.
  revert s. induction mms as [|mm mms IH]; intros s; simpl.
  - exists (methods s), (cgraph s). by destruct s.
  - destruct (addMethod_frame cid s mm) as (m & g & ->).
    destruct (IH (set_cgraph (set_methods s m) g)) as (m' & g' & ->).
    exists m', g'. by destruct s.
Qed.

Lemma removeMethod_frame s mm :
  ∃ m g, removeMethod s mm = set_cgraph (set_methods s m) g.
Proof.
  rewrite /removeMethod. destruct (hasProperty _ _); [by eexists _, _|].
  exists (methods s), (cgraph s). by destruct s.
Qed.

Lemma removeMethods_frame mms s :
  ∃ m g, foldl removeMethod s mms = set_cgraph (set_methods s m) g.
Proof.
  revert s. induction mms as [|mm mms IH]; intros s; simpl.
  - exists (methods s), (cgraph s). by destruct s.
  - destruct (removeMethod_frame s mm) as (m & g & ->).
    destruct (IH (set_cgraph (set_methods s m) g)) as (m' & g' & ->).
    exists m', g'. by destruct s.
Qed.

Lemma addMethod_methods cid s mm mid :
  methods (addMethod cid s mm) !! mid =
    match methods s !! mid with
    | Some m0 => Some m0
    | None => if bool_decide (mid = m_id mm) && negb (inherited mid)
              then Some mm else None
    end.
Proof.
  rewrite /addMethod. destruct (hasProperty _ _) eqn:Hm; simpl.
  - destruct (methods s !! mid) eqn:Hmid; [done|].
    case_bool_decide; [|done]. subst.
    apply hasProperty_true in Hm as [[m1 Hm]|Hm]; [congruence|by rewrite Hm].
  - apply hasProperty_false in Hm as [Hm Hi]. case_bool_decide; subst.
    + by rewrite lookup_insert_eq Hm Hi.
    + rewrite lookup_insert_ne //. by destruct (methods s !! mid).
Qed.

Lemma addMethods_methods cid mms s :
  (∀ mid m0, methods s !! mid = Some m0 →
             methods (foldl (addMethod cid) s mms) !! mid = Some m0) ∧
  (∀ mm, mm ∈ mms → inherited (m_id mm) = false →
         is_Some (methods (foldl (addMethod cid) s mms) !! m_id mm)) ∧
  (∀ mid, is_Some (methods (foldl (addMethod cid) s mms) !! mid) →
          is_Some (methods s !! mid) ∨ ∃ mm, mm ∈ mms ∧ m_id mm = mid).
Proof.
  revert s. induction mms as [|mm mms IH]; intros s; simpl.
  - split_and!; [done|by intros ? ?%elem_of_nil|by left].
  - destruct (IH (addMethod cid s mm)) as (IH1 & IH2 & IH3). split_and!.
    + intros mid m0 Hm. apply IH1. by rewrite addMethod_methods Hm.
    + intros mm' [->|Hin]%elem_of_cons Hplain; [|by apply IH2].
      pose proof (addMethod_methods cid s mm (m_id mm)) as Hl.
      rewrite bool_decide_eq_true_2 // Hplain /= in Hl.
      destruct (methods s !! m_id mm) as [m0|]; erewrite IH1; eauto.
    + intros mid [Hs|(mm' & Hin & Hid)]%IH3.
      * rewrite addMethod_methods in Hs.
        destruct (methods s !! mid); [by left|].
        case_bool_decide; [|by destruct Hs]. right. exists mm. split; [left|done].
      * right. exists mm'. split; [by right|done].
Qed.

Lemma removeMethod_methods s mm :
  methods (removeMethod s mm) = delete (m_id mm) (methods s).
Proof.
  rewrite /removeMethod. destruct (hasProperty _ _) eqn:Hm; [done|].
  apply hasProperty_false in Hm as [Hm _]. by rewrite delete_id.
Qed.

Lemma removeMethods_methods mms s mid :
  methods (foldl removeMethod s mms) !! mid =
    if bool_decide (mid ∈ m_id <$> mms) then None else methods s !! mid.
Proof.
  revert s. induction mms as [|mm mms IH]; intros s; simpl; [done|].
  rewrite IH removeMethod_methods. 
  destruct (decide (mid = m_id mm)) as [->|Hne].
  - rewrite lookup_delete_eq (bool_decide_eq_true_2 (_ ∈ _ :: _)); [left|].
    by case_bool_decide.
  - rewrite lookup_delete_ne //.
    rewrite (bool_decide_ext (mid ∈ m_id mm :: (m_id <$> mms)) (mid ∈ m_id <$> mms)) //.
    rewrite elem_of_cons. naive_solver.
Qed.

(** X8: [addConstraint] of a constraint whose id is neither
    registered nor a name inherited from [Object.prototype]
    registers it and those of its methods whose id is no inherited
    name, except that a method id already registered keeps the
    method it had; it registers no other method, records the
    constraint for enforcing, asks for an update, and a second
    [addConstraint] of it changes nothing. *)
Theorem addConstraint_new (s : PropertyModel) (cc : ConstraintObj) :
  constraints s !! c_id cc = None →
  inherited (c_id cc) = false →
  let s' := addConstraint s cc in
  constraints s' = <[c_id cc := cc]> (constraints s) ∧
  (∀ mm, mm ∈ c_methods cc → inherited (m_id mm) = false →
         is_Some (methods s' !! m_id mm)) ∧
  (∀ mid m0, methods s !! mid = Some m0 → methods s' !! mid = Some m0) ∧
  (∀ mid, is_Some (methods s' !! mid) →
          is_Some (methods s !! mid) ∨ ∃ mm, mm ∈ c_methods cc ∧ m_id mm = mid) ∧
  needEnforcing s' = {[c_id cc]} ∪ needEnforcing s ∧
  isUpdateNeeded s' = true ∧ solved s' = false ∧
  addConstraint s' cc = s'.
Proof.
  intros Hnew Hplain. cbn zeta.
  assert (Hhas : hasProperty (constraints s) (c_id cc) = false)
    by (by apply hasProperty_false).
  assert (Hshape : ∃ x,
    addConstraint s cc = recordChange x ∧
    constraints x = <[c_id cc := cc]> (constraints s) ∧
    methods x = methods (foldl (addMethod (c_id cc))
                           (set_constraints s (<[c_id cc := cc]> (constraints s)))
                           (c_methods cc)) ∧
    needEnforcing x = {[c_id cc]} ∪ needEnforcing s).
  { rewrite /addConstraint Hhas /recordConstraintChange.
    eexists. split; [done|].
    destruct (addMethods_frame (c_id cc) (c_methods cc)
                (set_constraints s (<[c_id cc := cc]> (constraints s))))
      as (m & g & ->).
    destruct (c_optional cc); split_and!; try done;
      by rewrite /= stringSet_add_plain. }
  destruct Hshape as (x & Heq & Hc & Hm & Hn).
  destruct (recordChange_fields x)
    as (Fc & _ & _ & _ & Fm & _ & Fn & _ & _ & _ & _ & _ & Fu & Fs & _).
  destruct (addMethods_methods (c_id cc) (c_methods cc)
              (set_constraints s (<[c_id cc := cc]> (constraints s))))
    as (M1 & M2 & M3).
  rewrite Heq Fc Fm Fn Fu Fs Hc Hm Hn. split_and!; try done.
  rewrite -Heq {1}/addConstraint Heq hasProperty_own //.
  rewrite Fc Hc lookup_insert_eq. eauto.
Qed.

(** X9: a [removeConstraint] that returns unregisters the
    constraint and every method id it lists, drops its two records,
    and reports the constraint to the enablement manager.  It leaves
    the strength order and [hasOptionals] as they are, and records no
    change: no update is asked for or scheduled. *)
Theorem removeConstraint_done (s s' : PropertyModel) (cc : ConstraintObj) :
  is_Some (constraints s !! c_id cc) →
  removeConstraint s cc = Done s' →
  constraints s' = delete (c_id cc) (constraints s) ∧
  (∀ mid, methods s' !! mid =
          if bool_decide (mid ∈ m_id <$> c_methods cc) then None
          else methods s !! mid) ∧
  needEnforcing s' = needEnforcing s ∖ {[c_id cc]} ∧
  needEvaluating s' = needEvaluating s ∖ {[c_id cc]} ∧
  planner s' = planner s ∧ hasOptionals s' = hasOptionals s ∧
  isUpdateNeeded s' = isUpdateNeeded s ∧
  isUpdateScheduled s' = isUpdateScheduled s ∧
  solved s' = solved s ∧
  calls s' = calls s ++ [MethodScheduled (Some (c_id cc)) None].
Proof.
  intros Hc. rewrite /removeConstraint hasProperty_own //.
  set (s1 := removeConstraintRecords _ _).
  pose proof (removeMethods_methods (c_methods cc) s1) as Hm.
  destruct (removeMethods_frame (c_methods cc) s1) as (m & g & Heq).
  rewrite Heq in Hm |- *. simpl in Hm |- *.
  destruct (sgraph s) as [sg|]; [|done].
  intros [= <-]. simpl. split_and!; done.
Qed.

End Registration.

Lemma addConstraint_new_witness :
  constraints Scenario.settled !! c_id Scenario.c3 = None ∧
  inherited (c_id Scenario.c3) = false ∧
  constraints (addConstraint Scenario.settled Scenario.c3) !! "c3"%string =
    Some Scenario.c3 ∧
  is_Some (methods (addConstraint Scenario.settled Scenario.c3) !! "m3"%string).
Proof.
  assert (Hnew : constraints Scenario.settled !! c_id Scenario.c3 = None)
    by (by vm_compute).
  split; [exact Hnew|]. split; [reflexivity|].
  destruct (addConstraint_new Scenario.settled Scenario.c3 Hnew eq_refl)
    as (Hc & Hm & _).
  split.
  - rewrite Hc. apply lookup_insert_eq.
  - apply (Hm Scenario.m3); [by left|reflexivity].
Defined.

Lemma removeConstraint_done_witness :
  is_Some (constraints Scenario.settled !! c_id Scenario.c1) ∧
  removeConstraint Scenario.settled Scenario.c1 =
    Done (Scenario.from_done
            (removeConstraint Scenario.settled Scenario.c1)) ∧
  planner (Scenario.from_done
             (removeConstraint Scenario.settled Scenario.c1)) =
    planner Scenario.settled.
Proof.
  assert (Hreg : is_Some (constraints Scenario.settled !! c_id Scenario.c1)).
  { exists Scenario.c1. by vm_compute. }
  assert (Hdone : removeConstraint Scenario.settled Scenario.c1 =
                  Done (Scenario.from_done
                          (removeConstraint Scenario.settled
                             Scenario.c1))).
  { vm_compute. reflexivity. }
  split; [exact Hreg|]. split; [exact Hdone|].
  exact (proj1 (proj2 (proj2 (proj2 (proj2
    (removeConstraint_done _ _ _ Hreg Hdone)))))).
Defined.

Section Planning.
Context `{Externals}.

Lemma log_many_fields cl x :
  calls (foldl log x cl) = calls x ++ cl ∧
  sgraph (foldl log x cl) = sgraph x ∧
  topomids (foldl log x cl) = topomids x ∧
  variables (foldl log x cl) = variables x ∧
  needEnforcing (foldl log x cl) = needEnforcing x ∧
  needEvaluating (foldl log x cl) = needEvaluating x ∧
  constraints (foldl log x cl) = constraints x ∧
  methods (foldl log x cl) = methods x ∧
  cgraph (foldl log x cl) = cgraph x ∧
  isUpdateNeeded (foldl log x cl) = isUpdateNeeded x ∧
  solved (foldl log x cl) = solved x ∧
  planner (foldl log x cl) = planner x ∧
  pendingCount (foldl log x cl) = pendingCount x ∧
  needUpdating (foldl log x cl) = needUpdating x.
Proof.
  revert x. induction cl as [|c cl IH]; intros x; simpl.
  - by rewrite app_nil_r.
  - destruct (IH (log x c)) as (-> & -> & -> & -> & -> & -> & -> & -> & -> & -> & -> & -> & -> & ->).
    simpl. by rewrite -app_assoc.
Qed.

Lemma log_many_set_variables cl x vars :
  set_variables (foldl log x cl) vars = foldl log (set_variables x vars) cl.
Proof. revert x. induction cl as [|c cl IH]; intros x; simpl; [done|]. by rewrite IH. Qed.

Lemma log_many_set_needEnforcing cl x ne :
  set_needEnforcing (foldl log x cl) ne = foldl log (set_needEnforcing x ne) cl.
Proof. revert x. induction cl as [|c cl IH]; intros x; simpl; [done|]. by rewrite IH. Qed.

Lemma log_many_set_needEvaluating cl x ne :
  set_needEvaluating (foldl log x cl) ne = foldl log (set_needEvaluating x ne) cl.
Proof. revert x. induction cl as [|c cl IH]; intros x; simpl; [done|]. by rewrite IH. Qed.

(** The loop over [reevaluateIfEmergingSource]: the stay
    constraints of the variables whose stay is selected and that were
    not a source join [needEvaluating]. *)
Lemma reevaluate_all sg vids a a' :
  sgraph a = Some sg →
  foldM reevaluateIfEmergingSource a vids = Done a' →
  ∃ cl, a' = foldl log
               (set_needEvaluating a
                  (needEvaluating a ∪
                   list_to_set (stayConstraint <$>
                     filter (λ vid,
                               is_Some (SGraph.selectedForConstraint sg (stayConstraint vid)) ∧
                               v_source <$> variables a !! vid = Some false ∧
                               inherited (stayConstraint vid) = false) vids)))
               cl.
Proof.
  revert a. induction vids as [|vid vids IH]; intros a Hsg; cbn [foldM].
  - intros [= <-]. exists []. simpl.
    replace (needEvaluating a ∪ ∅) with (needEvaluating a) by set_solver.
    by destruct a.
  - destruct (reevaluateIfEmergingSource a vid) as [a1| |] eqn:Hstep; [|done..].
    cbn [mbind outcome_bind]. rewrite /reevaluateIfEmergingSource Hsg in Hstep.
    destruct (SGraph.selectedForConstraint sg (stayConstraint vid)) as [mid|] eqn:Hsel.
    + destruct (variables a !! vid) as [vv|] eqn:Hvv; [|done].
      destruct (v_source vv) eqn:Hsrc; simpl in Hstep.
      * injection Hstep as <-.
        intros (cl & ->)%IH; [|done]. exists cl. do 2 f_equal.
        rewrite filter_cons_False //. rewrite Hvv /= Hsrc. by intros (_ & [=] & _).
      * destruct (stringSet_has (needEvaluating a) (stayConstraint vid)) eqn:Hhas;
          simpl in Hstep; injection Hstep as <-.
        -- intros (cl & ->)%IH; [|done]. exists cl. do 2 f_equal.
           destruct (inherited (stayConstraint vid)) eqn:Hinh.
           ++ rewrite filter_cons_False //. rewrite Hinh. by intros (_ & _ & [=]).
           ++ rewrite stringSet_has_plain // in Hhas.
              apply bool_decide_eq_true in Hhas.
              rewrite filter_cons_True; [by rewrite Hvv /= Hsrc Hinh|].
              rewrite fmap_cons list_to_set_cons. set_solver.
        -- apply orb_false_iff in Hhas as [_ Hinh].
           intros (cl & ->)%IH; [|done]. simpl.
           exists (MakeForwardedPromise vid :: cl). simpl.
           rewrite filter_cons_True; [by rewrite Hvv /= Hsrc Hinh|].
           rewrite fmap_cons list_to_set_cons stringSet_add_plain //.
           replace ({[stayConstraint vid]} ∪ needEvaluating a ∪ _)
             with (needEvaluating a ∪
                   ({[stayConstraint vid]} ∪
                    list_to_set (stayConstraint <$>
                      filter (λ vid0,
                        is_Some (SGraph.selectedForConstraint sg (stayConstraint vid0)) ∧
                        v_source <$> variables a !! vid0 = Some false ∧
                        inherited (stayConstraint vid0) = false) vids)))
             by set_solver.
           by destruct a.
    + injection Hstep as <-. intros (cl & ->)%IH; [|done]. exists cl. do 2 f_equal.
      rewrite filter_cons_False //. rewrite Hsel. by intros [[? [=]] _].
Qed.

Lemma setSource_twice vv b : setSource (setSource vv b) b = setSource vv b.
Proof. done. Qed.

(** The loop over [updateSourceStatus]: each variable of the
    solution graph gets [source] set to whether its stay constraint is
    selected; every one of them has to be registered. *)
Lemma updateSourceStatus_all sg vids a a' :
  sgraph a = Some sg →
  foldM updateSourceStatus a vids = Done a' →
  (∃ vars', a' = set_variables a vars' ∧
     ∀ vid, vars' !! vid =
       (λ vv, if bool_decide (vid ∈ vids)
              then setSource vv (bool_decide (is_Some
                     (SGraph.selectedForConstraint sg (stayConstraint vid))))
              else vv) <$> variables a !! vid) ∧
  ∀ vid, vid ∈ vids → is_Some (variables a !! vid).
Proof.
  revert a. induction vids as [|v vids IH]; intros a Hsg; cbn [foldM].
  - intros [= <-]. split; [|by intros ? ?%elem_of_nil].
    exists (variables a). split; [by destruct a|].
    intros vid. by destruct (variables a !! vid).
  - destruct (updateSourceStatus a v) as [a1| |] eqn:Hstep; [|done..].
    cbn [mbind outcome_bind]. rewrite /updateSourceStatus Hsg in Hstep.
    destruct (variables a !! v) as [vv|] eqn:Hvv; [|done]. injection Hstep as <-.
    intros [(vars' & -> & Hvars) Hreg]%IH; [|done]. simpl in *. split.
    + exists vars'. split; [by destruct a|].
      intros vid. rewrite Hvars. destruct (decide (vid = v)) as [->|Hne].
      * rewrite lookup_insert_eq Hvv /= (bool_decide_eq_true_2 (v ∈ v :: vids)); [left|].
        by destruct (bool_decide (v ∈ vids)).
      * rewrite lookup_insert_ne //.
        rewrite (bool_decide_ext (vid ∈ v :: vids) (vid ∈ vids)) //.
        rewrite elem_of_cons. naive_solver.
    + intros vid [->|Hin]%elem_of_cons; [by rewrite Hvv|].
      destruct (Hreg vid Hin) as [vv' Hl].
      destruct (decide (vid = v)) as [->|Hne]; [by rewrite Hvv|].
      rewrite lookup_insert_ne // in Hl. by rewrite Hl.
Qed.

Lemma plan_success_fields (s s' : PropertyModel) (sg : SGraph.t) :
  needEnforcing s ≠ ∅ →
  planner_plan (cgraph s) (planner s) (sgraph s) (elements (needEnforcing s)) = Some sg →
  plan s = Done s' →
  sgraph s' = Some sg ∧
  topomids s' = toposort (cgraph s) sg (planner s) ∧
  needEnforcing s' = ∅ ∧
  needEvaluating s' =
    needEnforcing s ∪ needEvaluating s ∪
    (if forwardEmergingSources
     then list_to_set (stayConstraint <$>
            filter (λ vid,
                      is_Some (SGraph.selectedForConstraint sg (stayConstraint vid)) ∧
                      v_source <$> variables s !! vid = Some false ∧
                      inherited (stayConstraint vid) = false)
                   (SGraph.variables sg))
     else ∅) ∧
  (∀ vid, variables s' !! vid =
     (λ vv, if bool_decide (vid ∈ SGraph.variables sg)
            then setSource vv (bool_decide (is_Some
                   (SGraph.selectedForConstraint sg (stayConstraint vid))))
            else vv) <$> variables s !! vid) ∧
  (∀ vid, vid ∈ SGraph.variables sg → is_Some (variables s !! vid)) ∧
  constraints s' = constraints s ∧ methods s' = methods s ∧
  cgraph s' = cgraph s ∧
  isUpdateNeeded s' = isUpdateNeeded s ∧ solved s' = solved s ∧
  pendingCount s' = pendingCount s ∧ needUpdating s' = needUpdating s.
Proof.
  intros Hne Hplan. rewrite /plan Hplan.
  rewrite bool_decide_eq_true_2.
  { destruct (elements (needEnforcing s)) as [|c l] eqn:Hel; [|simpl; lia].
    apply elements_empty_inv in Hel. by apply leibniz_equiv in Hel. }
  cbn [mbind outcome_bind].
  destruct (foldM (priorityStep _) [] _) as [priorities| |]; [|done..].
  cbn [mbind outcome_bind].
  set (s2 := set_needEvaluating _ _).
  assert (Hs2 : sgraph s2 = Some sg) by done.
  assert (Hreeval : ∀ s3,
    (if forwardEmergingSources
     then foldM reevaluateIfEmergingSource s2 (SGraph.variables sg)
     else Done s2) = Done s3 →
    ∃ cl, s3 = foldl log
      (set_needEvaluating s2
         (needEvaluating s2 ∪
          (if forwardEmergingSources
           then list_to_set (stayConstraint <$>
                  filter (λ vid,
                     is_Some (SGraph.selectedForConstraint sg (stayConstraint vid)) ∧
                     v_source <$> variables s !! vid = Some false ∧
                     inherited (stayConstraint vid) = false)
                   (SGraph.variables sg))
           else ∅))) cl).
  { intros s3. destruct forwardEmergingSources.
    - intros (cl & ->)%(reevaluate_all sg); [|done]. by exists cl.
    - intros [= <-]. exists []. simpl.
      replace (needEvaluating s2 ∪ ∅) with (needEvaluating s2) by set_solver.
      by destruct s. }
  destruct (if forwardEmergingSources then _ else _) as [s3| |]; [|done..].
  destruct (Hreeval s3 eq_refl) as (cl & ->). clear Hreeval.
  cbn [mbind outcome_bind].
  match goal with |- context [foldM updateSourceStatus ?x _] =>
    destruct (log_many_fields cl (set_needEvaluating s2
       (needEvaluating s2 ∪
          (if forwardEmergingSources
           then list_to_set (stayConstraint <$>
                  filter (λ vid,
                     is_Some (SGraph.selectedForConstraint sg (stayConstraint vid)) ∧
                     v_source <$> variables s !! vid = Some false ∧
                     inherited (stayConstraint vid) = false)
                   (SGraph.variables sg))
           else ∅))))
      as (_ & Lsg & Ltopo & Lvars & Lne & Lnv & Lc & Lm & Lg & Lu & Ls & _ & Lp & Lq);
    destruct (foldM updateSourceStatus x (SGraph.variables sg)) as [s4| |] eqn:Hs4;
      [|done..]
  end.
  cbn [mbind outcome_bind]. intros [= <-].
  apply (updateSourceStatus_all sg) in Hs4 as [(vars' & -> & Hvars) Hreg];
    [|by rewrite Lsg].
  rewrite Lvars in Hvars. rewrite Lvars in Hreg. simpl in *.
  rewrite Lsg Ltopo Lnv Lc Lm Lg Lu Ls Lp Lq /=.
  split_and!; try done.
  rewrite list_to_set_elements_L. set_solver.
Qed.

(** X10: a [plan] that the planner answers with a solution graph
    installs that graph and its topological order, moves the
    constraints to enforce over to [needEvaluating] (with the stay
    constraints of the emerging sources when these are forwarded,
    those apart whose id is a name inherited from
    [Object.prototype], for which [needEvaluating] answers already)
    and leaves every variable of the graph with [source] telling
    whether its stay constraint is selected.  It returns only if all
    these variables are registered; the registries and the update
    flags are left alone. *)
Theorem plan_success (s s' : PropertyModel) (sg : SGraph.t) :
  needEnforcing s ≠ ∅ →
  planner_plan (cgraph s) (planner s) (sgraph s) (elements (needEnforcing s)) = Some sg →
  plan s = Done s' →
  sgraph s' = Some sg ∧
  topomids s' = toposort (cgraph s) sg (planner s) ∧
  needEnforcing s' = ∅ ∧
  needEvaluating s' =
    needEnforcing s ∪ needEvaluating s ∪
    (if forwardEmergingSources
     then list_to_set (stayConstraint <$>
            filter (λ vid,
                      is_Some (SGraph.selectedForConstraint sg (stayConstraint vid)) ∧
                      v_source <$> variables s !! vid = Some false ∧
                      inherited (stayConstraint vid) = false)
                   (SGraph.variables sg))
     else ∅) ∧
  (∀ vid, variables s' !! vid =
     (λ vv, if bool_decide (vid ∈ SGraph.variables sg)
            then setSource vv (bool_decide (is_Some
                   (SGraph.selectedForConstraint sg (stayConstraint vid))))
            else vv) <$> variables s !! vid) ∧
  (∀ vid, vid ∈ SGraph.variables sg → is_Some (variables s !! vid)) ∧
  constraints s' = constraints s ∧ methods s' = methods s ∧
  cgraph s' = cgraph s ∧
  isUpdateNeeded s' = isUpdateNeeded s ∧ solved s' = solved s.
Proof.
  intros Hne Hplan Hdone.
  destruct (plan_success_fields s s' sg Hne Hplan Hdone)
    as (? & ? & ? & ? & ? & ? & ? & ? & ? & ? & ? & _).
  done.
Qed.

End Planning.

Lemma plan_success_witness :
  ∃ sg,
    needEnforcing (@addVariable Sample.externals Scenario.declared Scenario.vc) ≠ ∅ ∧
    Sample.greedyPlan
      (cgraph (@addVariable Sample.externals Scenario.declared Scenario.vc))
      (planner (@addVariable Sample.externals Scenario.declared Scenario.vc))
      (sgraph (@addVariable Sample.externals Scenario.declared Scenario.vc))
      (elements (needEnforcing (@addVariable Sample.externals Scenario.declared
                                  Scenario.vc))) = Some sg ∧
    sgraph (Scenario.from_done
              (@plan Sample.externals
                 (@addVariable Sample.externals Scenario.declared Scenario.vc))) =
      Some sg.
Proof.
  set (s := @addVariable Sample.externals Scenario.declared Scenario.vc).
  set (sg := default (SGraph.mk CGraph.empty ∅)
               (Sample.greedyPlan (cgraph s) (planner s) (sgraph s)
                  (elements (needEnforcing s)))).
  assert (Hne : needEnforcing s ≠ ∅).
  { apply (bool_decide_unpack _). by vm_compute. }
  assert (Hplan : @planner_plan Sample.externals (cgraph s) (planner s) (sgraph s)
                    (elements (needEnforcing s)) = Some sg).
  { vm_compute. reflexivity. }
  assert (Hdone : @plan Sample.externals s =
                  Done (Scenario.from_done (@plan Sample.externals s))).
  { vm_compute. reflexivity. }
  exists sg. split; [exact Hne|]. split; [exact Hplan|].
  exact (proj1 (@plan_success Sample.externals s _ sg Hne Hplan Hdone)).
Defined.

Section Evaluation.
Context `{Externals}.

Lemma commitPromise_all vids a a' :
  foldM commitPromise a vids = Done a' →
  a' = foldl log a (CommitPromise <$> vids) ∧
  ∀ vid, vid ∈ vids → is_Some (variables a !! vid).
Proof.
  revert a. induction vids as [|vid vids IH]; intros a; cbn [foldM].
  - intros [= <-]. split; [done|]. by intros ? ?%elem_of_nil.
  - destruct (commitPromise a vid) as [a1| |] eqn:Hstep; [|done..].
    rewrite /commitPromise in Hstep.
    destruct (variables a !! vid) as [vv|] eqn:Hvv; [|done]. injection Hstep as <-.
    cbn [mbind outcome_bind]. intros [-> Hreg]%IH. split; [done|].
    intros v [->|Hin]%elem_of_cons; [by rewrite Hvv|]. by apply Hreg.
Qed.

Lemma log_many_set_pendingCount cl x n :
  foldl log (set_pendingCount x n) cl = set_pendingCount (foldl log x cl) n.
Proof. revert x. induction cl as [|c cl IH]; intros x; simpl; [done|]. by rewrite -IH. Qed.

Lemma set_pendingCount_twice x n m :
  set_pendingCount (set_pendingCount x n) m = set_pendingCount x m.
Proof. by destruct x. Qed.

Lemma activate_all mids a a' :
  foldM activate a mids = Done a' →
  a' = set_pendingCount
         (foldl log a
            (mids ≫= λ mid, [Activate mid;
                             MethodScheduled (CGraph.constraintForMethod (cgraph a) mid)
                                             (Some mid)]))
         (length (mids ≫= pendingOutputs) + pendingCount a) ∧
  ∀ mid, mid ∈ mids → is_Some (methods a !! mid).
Proof.
  revert a. induction mids as [|mid mids IH]; intros a; cbn [foldM].
  - intros [= <-]. split; [by destruct a|]. by intros ? ?%elem_of_nil.
  - destruct (activate a mid) as [a1| |] eqn:Hstep; [|done..].
    apply activate_done in Hstep as [Hmm ->].
    intros Hfold. cbn [mbind outcome_bind] in Hfold.
    apply IH in Hfold as [-> Hreg]. split.
    + rewrite !bind_cons length_app. cbn [app foldl].
      set (F := λ mid : string,
             [Activate mid;
              MethodScheduled (CGraph.constraintForMethod (cgraph a) mid) (Some mid)]).
      set (n := length (pendingOutputs mid) + pendingCount a).
      set (a2 := log (log a (Activate mid))
                   (MethodScheduled (CGraph.constraintForMethod (cgraph a) mid)
                      (Some mid))).
      change (set_pendingCount (foldl log (set_pendingCount a2 n) (mids ≫= F))
                (length (mids ≫= pendingOutputs) + n) =
              set_pendingCount (foldl log a2 (mids ≫= F))
                (length (pendingOutputs mid) + length (mids ≫= pendingOutputs) +
                 pendingCount a)).
      rewrite log_many_set_pendingCount set_pendingCount_twice.
      f_equal. lia.
    + intros v [->|Hin]%elem_of_cons; [done|]. by apply Hreg.
Qed.

Lemma activations_app l1 l2 :
  activations (l1 ++ l2) = activations l1 ++ activations l2.
Proof. apply omap_app. Qed.

Lemma activations_commits vids : activations (CommitPromise <$> vids) = [].
Proof. by induction vids. Qed.

Lemma activations_activate (f : string → option string) mids :
  activations (mids ≫= λ mid, [Activate mid; MethodScheduled (f mid) (Some mid)]) = mids.
Proof.
  induction mids as [|mid mids IH]; [done|].
  rewrite bind_cons activations_app IH //.
Qed.

(** What a returning [evaluate] does to the model: it logs calls,
    counts the pending marks of the methods it activates and may
    empty [needEvaluating]. *)
Lemma evaluate_shape s s' :
  evaluate s = Done s' →
  ∃ sg, sgraph s = Some sg ∧
  let mids := omap (SGraph.selectedForConstraint sg) (elements (needEvaluating s)) in
  let vids := nodesDownstreamOtherType sg mids in
  let run := filter (λ mid, stringSet_has (list_to_set
                 (filter (λ mid, isNotStayMethod mid = true)
                         (nodesDownstreamSameType sg mids))) mid = true)
               (topomids s) in
  (∀ vid, vid ∈ vids → is_Some (variables s !! vid)) ∧
  if bool_decide (0 < length mids) then
    (∀ mid, mid ∈ run → is_Some (methods s !! mid)) ∧
    s' = set_pendingCount
           (set_needEvaluating
              (foldl log s
                 ((CommitPromise <$> vids) ++
                  (run ≫= λ mid, [Activate mid;
                                  MethodScheduled
                                    (CGraph.constraintForMethod (cgraph s) mid)
                                    (Some mid)]) ++
                  (CommitPromise <$> vids))) ∅)
           (length (run ≫= pendingOutputs) + pendingCount s)
  else s' = foldl log s (CommitPromise <$> vids).
Proof.
  rewrite /evaluate. destruct (sgraph s) as [sg|] eqn:Hsg; [|done].
  intros Hev. exists sg. split; [done|]. cbn zeta.
  destruct (foldM commitPromise s _) as [s1| |] eqn:Hs1; [|done..].
  apply commitPromise_all in Hs1 as [-> Hvars]. split; [done|].
  cbn [mbind outcome_bind] in Hev.
  destruct (log_many_fields
              (CommitPromise <$> nodesDownstreamOtherType sg
                 (omap (SGraph.selectedForConstraint sg) (elements (needEvaluating s))))
              s) as (_ & _ & Ltopo & _ & _ & _ & _ & Lm & Lg & _ & _ & _ & Lp & _).
  case_bool_decide; [|by injection Hev as <-].
  rewrite Ltopo in Hev.
  destruct (foldM activate _ _) as [s2| |] eqn:Hs2; [|done..].
  apply activate_all in Hs2 as [-> Hmeths].
  cbn [mbind outcome_bind] in Hev.
  destruct (foldM commitPromise _ _) as [s3| |] eqn:Hs3; [|done..].
  apply commitPromise_all in Hs3 as [-> _].
  injection Hev as <-. rewrite Lm in Hmeths. split; [done|].
  rewrite Lg Lp log_many_set_pendingCount -!foldl_app.
  by destruct (foldl log s _).
Qed.

(** X11: a returning [evaluate] activates methods in the order
    of [topomids], each of them registered, not a stay method and
    downstream of a method selected for a recorded constraint, and
    leaves none of those out; it then empties [needEvaluating].  (A
    method of [topomids] whose id is a name inherited from
    [Object.prototype] passes the test of the downstream set as
    well.)  When no recorded constraint has a selected method it
    activates nothing and keeps [needEvaluating]. *)
Theorem evaluate_runs (s s' : PropertyModel) :
  evaluate s = Done s' →
  ∃ sg run,
    sgraph s = Some sg ∧
    activations (calls s') = activations (calls s) ++ run ∧
    sublist run (topomids s) ∧
    let mids := omap (SGraph.selectedForConstraint sg) (elements (needEvaluating s)) in
    (∀ mid, mid ∈ run → is_Some (methods s !! mid)) ∧
    (mids = [] → run = [] ∧ needEvaluating s' = needEvaluating s) ∧
    (mids ≠ [] →
       needEvaluating s' = ∅ ∧
       ∀ mid, mid ∈ run ↔
              mid ∈ topomids s ∧
              (isNotStayMethod mid = true ∧ mid ∈ nodesDownstreamSameType sg mids ∨
               inherited mid = true)).
Proof.
  intros (sg & Hsg & Hshape)%evaluate_shape. cbn zeta in Hshape.
  destruct Hshape as [Hvars Hshape].
  set (mids := omap (SGraph.selectedForConstraint sg) (elements (needEvaluating s))) in *.
  case_bool_decide as Hlen.
  - destruct Hshape as [Hmeths ->].
    eexists sg, _. split; [done|]. split.
    { simpl. destruct (log_many_fields
        ((CommitPromise <$> nodesDownstreamOtherType sg mids) ++
         (filter (λ mid, stringSet_has (list_to_set
                    (filter (λ mid, isNotStayMethod mid = true)
                            (nodesDownstreamSameType sg mids))) mid = true)
                 (topomids s) ≫=
            λ mid, [Activate mid;
                    MethodScheduled (CGraph.constraintForMethod (cgraph s) mid)
                                    (Some mid)]) ++
         (CommitPromise <$> nodesDownstreamOtherType sg mids)) s) as (-> & _).
      rewrite !activations_app activations_commits activations_activate app_nil_r //. }
    split; [apply sublist_filter|]. cbn zeta. split; [done|]. split.
    + intros Hnil. change (mids = []) in Hnil. rewrite Hnil /= in Hlen. lia.
    + intros _. split; [done|]. intros mid.
      rewrite list_elem_of_filter /stringSet_has orb_true_iff bool_decide_eq_true.
      rewrite elem_of_list_to_set list_elem_of_filter. tauto.
  - subst s'. exists sg, []. split; [done|]. split.
    { destruct (log_many_fields (CommitPromise <$> nodesDownstreamOtherType sg mids) s)
        as (-> & _).
      by rewrite activations_app activations_commits. }
    split; [apply sublist_nil_l|]. cbn zeta. split; [by intros ? ?%elem_of_nil|]. split.
    + intros _. split; [done|].
      by destruct (log_many_fields (CommitPromise <$> nodesDownstreamOtherType sg mids) s)
        as (_ & _ & _ & _ & _ & -> & _).
    + intros Hne. change (mids ≠ []) in Hne. destruct mids; [done|]. simpl in Hlen. lia.
Qed.

End Evaluation.

(** The asynchronous scenario of the specification: the update
    activates [m1], whose output is left pending, so the update ends
    with [solved] still false; the [settled] event of the output
    brings [pendingCount] back to zero and raises [solved]. *)
Example async_method_scenario :
  let s := @addVariable Sample.asyncExternals Scenario.declared Scenario.vc in
  ∃ s1 s2,
    @performScheduledUpdate Sample.asyncExternals s = Done s1 ∧
    Activate "m1" ∈ calls s1 ∧
    pendingCount s1 = 1 ∧ solved s1 = false ∧ isUpdateNeeded s1 = false ∧
    @onNextVariableChange Sample.asyncExternals s1 (mkEvent settled "b") = Done s2 ∧
    pendingCount s2 = 0 ∧ solved s2 = true.
Proof.
  eexists _, _. split; [vm_compute; reflexivity|].
  split; [repeat constructor|].
  repeat apply conj; vm_compute; reflexivity.
Qed.

Lemma evaluate_runs_witness :
  ∃ s s' sg run,
    s = Scenario.from_done
          (@plan Sample.externals
             (@addVariable Sample.externals Scenario.declared Scenario.vc)) ∧
    @evaluate Sample.externals s = Done s' ∧
    sgraph s = Some sg ∧
    activations (calls s') = activations (calls s) ++ run ∧
    sublist run (topomids s).
Proof.
  set (s := Scenario.from_done
              (@plan Sample.externals
                 (@addVariable Sample.externals Scenario.declared Scenario.vc))).
  assert (Hdone : @evaluate Sample.externals s =
                  Done (Scenario.from_done (@evaluate Sample.externals s))).
  { vm_compute. reflexivity. }
  destruct (@evaluate_runs Sample.externals _ _ Hdone) as (sg & run & Hsg & Hact & Hsub & _).
  exists s, (Scenario.from_done (@evaluate Sample.externals s)), sg, run.
  split; [reflexivity|]. split; [exact Hdone|].
  split; [exact Hsg|]. split; [exact Hact|exact Hsub].
Defined.

Section UpdateCycle.
Context `{Externals}.

Lemma applyAdd_counts s el s' :
  applyAdd s el = Done s' → needUpdating s' = needUpdating s.
Proof.
  destruct el as [cc|vid|from to|]; simpl.
  - intros [= <-]. rewrite /addConstraint. destruct (hasProperty _ _); [done|].
    rewrite /recordConstraintChange.
    match goal with |- context [recordChange ?x] =>
      destruct (recordChange_fields x)
        as (_ & _ & _ & _ & _ & _ & _ & _ & _ & _ & -> & _) end.
    destruct (addMethods_frame (c_id cc) (c_methods cc)
                (set_constraints s (<[c_id cc := cc]> (constraints s))))
      as (m & g & ->).
    by destruct (c_optional cc).
  - intros [= <-]. by destruct (addOutput_set s vid) as [m ->].
  - rewrite /addTouchDependency. destruct (touchDeps s !! _); [by intros [= <-]|].
    destruct (inherited _); [|by intros [= <-]].
    destruct arraySetAddThrows; [done|by intros [= <-]].
  - by intros [= <-].
Qed.

Lemma applyRemove_counts s el s' :
  applyRemove s el = Done s' → needUpdating s' = needUpdating s.
Proof.
  destruct el as [cc|vid|from to|]; simpl.
  - rewrite /removeConstraint. destruct (hasProperty _ _); [|by intros [= <-]].
    match goal with |- context [foldl removeMethod ?x _] =>
      destruct (removeMethods_frame (c_methods cc) x) as (m & g & ->) end.
    simpl. destruct (sgraph s); [|done]. by intros [= <-].
  - intros [= <-]. by destruct (removeOutput_set s vid) as [m ->].
  - rewrite /removeTouchDependency. destruct (touchDeps s !! _); [by intros [= <-]|].
    destruct (inherited _); [|by intros [= <-]].
    destruct arraySetRemoveThrows; [done|by intros [= <-]].
  - by intros [= <-].
Qed.

(** [updateModel] never takes a context off [needUpdating]. *)
Lemma updateModel_counts s s' :
  updateModel s = Done s' → needUpdating s' = needUpdating s.
Proof.
  rewrite updateModel_first_only.
  destruct (needUpdating s) as [|ctx rest] eqn:Hq; [intros [= <-]; by rewrite Hq|].
  destruct (foldM applyRemove _ _) as [s2| |] eqn:Hs2; [|done..].
  cbn [mbind outcome_bind]. intros Hs3.
  assert (needUpdating s2 = ctx :: rest) as Hq2.
  { revert Hs2. apply (foldM_preserves (λ a, needUpdating a = ctx :: rest)).
    - intros a el a' Ha E1%applyRemove_counts. by rewrite E1.
    - by rewrite /= Hq. }
  revert Hs3. apply (foldM_preserves (λ a, needUpdating a = ctx :: rest)); [|done].
  intros a el a' Ha E1%applyAdd_counts. by rewrite E1.
Qed.

Lemma plan_counts s s' :
  plan s = Done s' →
  needEnforcing s' = ∅ ∧ needUpdating s' = needUpdating s ∧
  (sgraph s' = sgraph s ∨ is_Some (sgraph s')).
Proof.
  intros Hplan.
  destruct (decide (needEnforcing s = ∅)) as [Hempty|Hne].
  - revert Hplan. rewrite /plan Hempty elements_empty /=.
    intros [= <-]. split_and!; auto.
  - destruct (planner_plan (cgraph s) (planner s) (sgraph s)
                (elements (needEnforcing s))) as [sg|] eqn:Hp.
    + destruct (plan_success_fields s s' sg Hne Hp Hplan)
        as (-> & _ & -> & _ & _ & _ & _ & _ & _ & _ & _ & _ & ->).
      split_and!; eauto.
    + revert Hplan. rewrite /plan Hp bool_decide_eq_true_2.
      { destruct (elements (needEnforcing s)) as [|c l] eqn:Hel; [|simpl; lia].
        apply elements_empty_inv in Hel. by apply leibniz_equiv in Hel. }
      intros [= <-]. split_and!; auto.
Qed.

Lemma evaluate_counts s s' :
  evaluate s = Done s' →
  needEnforcing s' = needEnforcing s ∧ needUpdating s' = needUpdating s ∧
  is_Some (sgraph s') ∧ solved s' = solved s.
Proof.
  intros (sg & Hsg & _ & Hshape)%evaluate_shape.
  case_bool_decide.
  - destruct Hshape as [_ ->]. simpl.
    match goal with |- context [foldl log s ?cl] =>
      destruct (log_many_fields cl s)
        as (_ & -> & _ & _ & -> & _ & _ & _ & _ & _ & -> & _ & _ & ->) end.
    rewrite Hsg. eauto.
  - subst s'.
    match goal with |- context [foldl log s ?cl] =>
      destruct (log_many_fields cl s)
        as (_ & -> & _ & _ & -> & _ & _ & _ & _ & _ & -> & _ & _ & ->) end.
    rewrite Hsg. eauto.
Qed.

(** X12: an [update] that was needed and returns leaves nothing
    to enforce and a solution graph in place (without one [evaluate]
    throws), and has set [solved] if no variable is pending when
    [evaluate] has returned.  It leaves [needUpdating] as it was: the
    contexts recorded stay recorded. *)
Theorem update_completed (s s' : PropertyModel) :
  isUpdateNeeded s = true →
  update s = Done s' →
  needEnforcing s' = ∅ ∧
  is_Some (sgraph s') ∧
  needUpdating s' = needUpdating s ∧
  (pendingCount s' = 0 → solved s' = true).
Proof.
  intros Hneeded. rewrite /update Hneeded.
  destruct (updateModel _) as [s1| |] eqn:Hs1; [|done..].
  apply updateModel_counts in Hs1 as U1. simpl in U1.
  cbn [mbind outcome_bind].
  destruct (plan s1) as [s2| |] eqn:Hs2; [|done..].
  apply plan_counts in Hs2 as (P1 & P2 & _).
  cbn [mbind outcome_bind].
  destruct (evaluate s2) as [s3| |] eqn:Hs3; [|done..].
  apply evaluate_counts in Hs3 as (E1 & E2 & E4 & _).
  cbn [mbind outcome_bind].
  case_bool_decide as Hp; intros [= <-]; simpl;
    rewrite E1 E2 P1 P2 U1; split_and!; done.
Qed.

End UpdateCycle.

Lemma update_completed_witness :
  isUpdateNeeded Scenario.announced = true ∧
  @update Sample.externals Scenario.announced =
    Done (Scenario.from_done (@update Sample.externals Scenario.announced)) ∧
  needUpdating (Scenario.from_done (@update Sample.externals Scenario.announced)) =
    needUpdating Scenario.announced.
Proof.
  assert (Hneeded : isUpdateNeeded Scenario.announced = true).
  { vm_compute. reflexivity. }
  assert (Hdone : @update Sample.externals Scenario.announced =
                  Done (Scenario.from_done
                          (@update Sample.externals Scenario.announced))).
  { vm_compute. reflexivity. }
  split; [exact Hneeded|]. split; [exact Hdone|].
  exact (proj1 (proj2 (proj2
    (@update_completed Sample.externals _ _ Hneeded Hdone)))).
Defined.

(** * Properties of [array.ts] *)

Section ListDiff.
Context {T : Type} (compare : T → T → Z).

Lemma listDiffLoop_cons x a y b r :
  listDiffLoop compare (x :: a) (y :: b) r =
  if bool_decide (compare x y < 0)%Z then
    listDiffLoop compare a (y :: b)
      (mkListDiff (leftOnly r ++ [x]) (leftShared r) (rightOnly r) (rightShared r))
  else if bool_decide (compare x y > 0)%Z then
    listDiffLoop compare (x :: a) b
      (mkListDiff (leftOnly r) (leftShared r) (rightOnly r ++ [y]) (rightShared r))
  else
    listDiffLoop compare a b
      (mkListDiff (leftOnly r) (leftShared r ++ [x])
                  (rightOnly r) (rightShared r ++ [y])).
Proof. done. Qed.

Lemma listDiffLoop_acc a b r :
  listDiffLoop compare a b r =
  mkListDiff (leftOnly r ++ leftOnly (listDiff a b compare))
             (leftShared r ++ leftShared (listDiff a b compare))
             (rightOnly r ++ rightOnly (listDiff a b compare))
             (rightShared r ++ rightShared (listDiff a b compare)).
Proof.
  rewrite /listDiff. revert b r.
  induction a as [|x a IHa]; intros b r.
  { simpl. by rewrite !app_nil_r. }
  induction b as [|y b IHb] in r |- *.
  { simpl. by rewrite !app_nil_r. }
  rewrite !listDiffLoop_cons. cbn [app leftOnly leftShared rightOnly rightShared].
  repeat case_bool_decide.
  - rewrite IHa (IHa _ (mkListDiff [x] [] [] [])).
    cbn [app leftOnly leftShared rightOnly rightShared].
    f_equal; by rewrite -?app_assoc ?app_nil_r.
  - rewrite IHb (IHb (mkListDiff [] [] [y] [])).
    cbn [app leftOnly leftShared rightOnly rightShared].
    f_equal; by rewrite -?app_assoc ?app_nil_r.
  - rewrite IHa (IHa _ (mkListDiff [] [x] [] [y])).
    cbn [app leftOnly leftShared rightOnly rightShared].
    f_equal; by rewrite -?app_assoc ?app_nil_r.
Qed.

Lemma listDiff_nil_l b : listDiff [] b compare = mkListDiff [] [] b [].
Proof. done. Qed.

Lemma listDiff_nil_r a : listDiff a [] compare = mkListDiff a [] [] [].
Proof. by destruct a. Qed.

Lemma listDiff_cons x a y b :
  listDiff (x :: a) (y :: b) compare =
  if bool_decide (compare x y < 0)%Z then
    let r := listDiff a (y :: b) compare in
    mkListDiff (x :: leftOnly r) (leftShared r) (rightOnly r) (rightShared r)
  else if bool_decide (compare x y > 0)%Z then
    let r := listDiff (x :: a) b compare in
    mkListDiff (leftOnly r) (leftShared r) (y :: rightOnly r) (rightShared r)
  else
    let r := listDiff a b compare in
    mkListDiff (leftOnly r) (x :: leftShared r) (rightOnly r) (y :: rightShared r).
Proof.
  rewrite {1}/listDiff listDiffLoop_cons.
  repeat case_bool_decide; by rewrite listDiffLoop_acc.
Qed.

(** X13: whatever the arrays and the comparison, [listDiff]
    splits each array into its two results, keeping the order of the
    elements, and the shared results pair up elements that compare
    equal. *)
Theorem listDiff_splits (a b : list T) :
  let r := listDiff a b compare in
  Forall2 (λ x y, compare x y = 0%Z) (leftShared r) (rightShared r) ∧
  a ≡ₚ leftOnly r ++ leftShared r ∧
  b ≡ₚ rightOnly r ++ rightShared r ∧
  sublist (leftOnly r) a ∧ sublist (leftShared r) a ∧
  sublist (rightOnly r) b ∧ sublist (rightShared r) b.
Proof.
  cbn zeta. revert b. induction a as [|x a IHa]; intros b.
  { rewrite listDiff_nil_l /= app_nil_r. split_and!; try done.
    apply sublist_nil_l. }
  induction b as [|y b IHb].
  { rewrite listDiff_nil_r /= app_nil_r. split_and!; try done.
    apply sublist_nil_l. }
  rewrite listDiff_cons. repeat case_bool_decide; cbn zeta; simpl.
  - destruct (IHa (y :: b)) as (? & ? & ? & ? & ? & ? & ?).
    split_and!; try done.
    + by constructor.
    + by apply sublist_skip.
    + by apply sublist_cons.
  - destruct IHb as (? & Ha & Hb & ? & ? & ? & ?).
    split_and!; try done.
    + by constructor.
    + by apply sublist_skip.
    + by apply sublist_cons.
  - destruct (IHa b) as (? & Ha & Hb & ? & ? & ? & ?).
    split_and!.
    + constructor; [lia|done].
    + rewrite -Permutation_middle. by f_equiv.
    + rewrite -Permutation_middle. by f_equiv.
    + by apply sublist_cons.
    + by apply sublist_skip.
    + by apply sublist_cons.
    + by apply sublist_skip.
Qed.

(** X14: on arrays sorted strictly ascending by a comparison
    that orders the elements and answers 0 for equal elements only,
    [listDiff] computes the differences and the intersection: the
    two shared results are the same array. *)
Theorem listDiff_sorted (a b : list T) :
  (∀ x y, compare x y = 0%Z ↔ x = y) →
  (∀ x y, (compare x y > 0)%Z → (compare y x < 0)%Z) →
  (∀ x y z, (compare x y < 0)%Z → (compare y z < 0)%Z → (compare x z < 0)%Z) →
  StronglySorted (λ x y, (compare x y < 0)%Z) a →
  StronglySorted (λ x y, (compare x y < 0)%Z) b →
  let r := listDiff a b compare in
  leftShared r = rightShared r ∧
  (∀ z, z ∈ leftShared r ↔ z ∈ a ∧ z ∈ b) ∧
  (∀ z, z ∈ leftOnly r ↔ z ∈ a ∧ z ∉ b) ∧
  (∀ z, z ∈ rightOnly r ↔ z ∈ b ∧ z ∉ a).
Proof.
  intros Heq Hanti Htrans. cbn zeta.
  assert (Hirr : ∀ x y, (compare x y < 0)%Z → x ≠ y).
  { intros x y Hlt ->. pose proof (proj2 (Heq y y) eq_refl). lia. }
  assert (Hhead : ∀ x l, StronglySorted (λ x y, (compare x y < 0)%Z) (x :: l) → x ∉ l).
  { intros x l Hs Hin. apply StronglySorted_inv in Hs as [_ Hall].
    rewrite Forall_forall in Hall. by apply (Hirr x x); [apply Hall|]. }
  assert (Hbelow : ∀ x y l, (compare x y < 0)%Z →
            StronglySorted (λ x y, (compare x y < 0)%Z) (y :: l) → x ∉ y :: l).
  { intros x y l Hlt Hs [->|Hin]%elem_of_cons; [by apply (Hirr y y)|].
    apply StronglySorted_inv in Hs as [_ Hall]. rewrite Forall_forall in Hall.
    apply (Hirr x x); [|done]. eapply Htrans; [exact Hlt|]. by apply Hall. }
  revert b. induction a as [|x a IHa]; intros b Ha Hb.
  { rewrite listDiff_nil_l /=. set_solver. }
  induction b as [|y b IHb].
  { rewrite listDiff_nil_r /=. set_solver. }
  pose proof (StronglySorted_inv Ha) as [Ha' _].
  pose proof (StronglySorted_inv Hb) as [Hb' _].
  rewrite listDiff_cons. repeat case_bool_decide; cbn zeta; simpl.
  - destruct (IHa (y :: b) Ha' Hb) as (E & S & L & R).
    pose proof (Hbelow x y b ltac:(done) Hb) as Hx.
    split_and!; [done|..]; intros z; rewrite ?elem_of_cons ?S ?L ?R; set_solver.
  - destruct (IHb Hb') as (E & S & L & R).
    pose proof (Hbelow y x a (Hanti _ _ ltac:(done)) Ha) as Hy.
    split_and!; [done|..]; intros z; rewrite ?elem_of_cons ?S ?L ?R; set_solver.
  - destruct (IHa b Ha' Hb') as (E & S & L & R).
    assert (x = y) as <- by (apply Heq; lia).
    pose proof (Hhead x a Ha) as Hxa. pose proof (Hhead x b Hb) as Hxb.
    split_and!; [by rewrite E|..]; intros z; rewrite ?elem_of_cons ?S ?L ?R; set_solver.
Qed.

End ListDiff.

Lemma listDiff_sorted_witness :
  let r := listDiff [1; 3; 5; 7]%Z [3; 4; 7; 9]%Z Z.sub in
  leftShared r = rightShared r ∧
  (∀ z, z ∈ leftShared r ↔ z ∈ [1; 3; 5; 7]%Z ∧ z ∈ [3; 4; 7; 9]%Z) ∧
  (∀ z, z ∈ leftOnly r ↔ z ∈ [1; 3; 5; 7]%Z ∧ z ∉ [3; 4; 7; 9]%Z) ∧
  (∀ z, z ∈ rightOnly r ↔ z ∈ [3; 4; 7; 9]%Z ∧ z ∉ [1; 3; 5; 7]%Z).
Proof.
  apply (listDiff_sorted Z.sub).
  - intros x y. lia.
  - intros x y. lia.
  - intros x y z. lia.
  - repeat constructor; lia.
  - repeat constructor; lia.
Defined.

Section JsArrayFacts.
Context {A : Type}.
Implicit Types l : list (option A).

Lemma read_insert l i v : i < length l → JsArray.read (<[i := v]> l) i = v.
Proof. intros Hi. by rewrite /JsArray.read list_lookup_insert_eq. Qed.

Lemma read_insert_ne l i j v : i ≠ j → JsArray.read (<[i := v]> l) j = JsArray.read l j.
Proof. intros Hi. by rewrite /JsArray.read list_lookup_insert_ne. Qed.

Lemma read_past_end l i : length l ≤ i → JsArray.read l i = None.
Proof. intros Hi. by rewrite /JsArray.read lookup_ge_None_2. Qed.

Lemma read_Some_lt l i x : JsArray.read l i = Some x → i < length l.
Proof.
  rewrite /JsArray.read. destruct (l !! i) eqn:Hl; [|done].
  intros _. by eapply lookup_lt_Some.
Qed.

Lemma insert_None_read_None l i : JsArray.read l i = None → <[i := None]> l = l.
Proof.
  rewrite /JsArray.read. destruct (l !! i) as [x|] eqn:Hl; simpl.
  - intros ->. by apply list_insert_id.
  - intros _. apply list_insert_ge. by apply lookup_ge_None.
Qed.

Lemma read_resize l n i :
  JsArray.read (resize n None l) i = if bool_decide (i < n) then JsArray.read l i else None.
Proof.
  rewrite /JsArray.read. case_bool_decide.
  - destruct (decide (i < length l)).
    + by rewrite lookup_resize.
    + rewrite lookup_resize_new; [lia..|]. rewrite lookup_ge_None_2 //. lia.
  - rewrite lookup_resize_old //. lia.
Qed.

End JsArrayFacts.

Section SliceFacts.
Context {A : Type}.
Implicit Types l : list A.

Lemma splice_app (l1 mid l2 items : list A) (a n : Z) :
  a = Z.of_nat (length l1) → n = Z.of_nat (length mid) →
  JsArray.splice (l1 ++ mid ++ l2) a n items = l1 ++ items ++ l2.
Proof.
  intros -> ->. rewrite /JsArray.splice /JsArray.relative.
  rewrite bool_decide_eq_false_2; [lia|]. rewrite !length_app.
  replace (Z.to_nat (Z.of_nat (length l1) `min` _)) with (length l1) by lia.
  rewrite take_app_length.
  replace (Z.to_nat _) with (length (l1 ++ mid)) by (rewrite length_app; lia).
  by rewrite (app_assoc l1 mid) drop_app_length.
Qed.

Lemma slice_app (l1 mid l2 : list A) (a b : Z) :
  a = Z.of_nat (length l1) →
  (b = Z.of_nat (length l1 + length mid) ∨
   (l2 = [] ∧ (Z.of_nat (length l1 + length mid) ≤ b)%Z)) →
  JsArray.slice (l1 ++ mid ++ l2) a b = mid.
Proof.
  intros -> Hb. rewrite /JsArray.slice /JsArray.relative !length_app.
  rewrite !bool_decide_eq_false_2; [lia..|].
  replace (Z.to_nat (Z.of_nat (length l1) `min` _)) with (length l1) by lia.
  rewrite drop_app_length.
  destruct Hb as [->|[-> Hb]].
  - rewrite take_app_length' //; lia.
  - rewrite app_nil_r take_ge //; simpl in *; lia.
Qed.

(** The two [splice] calls of [move] exchange two adjacent
    regions; the second region may be asked for past the end. *)
Lemma swap_regions (l1 r1 r2 l2 : list A) (c : Z) :
  (c = Z.of_nat (length l1 + length r1 + length r2) ∨
   (l2 = [] ∧ (Z.of_nat (length l1 + length r1 + length r2) ≤ c)%Z)) →
  let l := l1 ++ r1 ++ r2 ++ l2 in
  let a := Z.of_nat (length l1) in
  let b := Z.of_nat (length l1 + length r1) in
  JsArray.slice l a b = r1 ∧
  JsArray.slice l b c = r2 ∧
  JsArray.splice (JsArray.splice l a (Z.of_nat (length r2)) r2)
                 (a + Z.of_nat (length r2)) (Z.of_nat (length r1)) r1 =
    l1 ++ r2 ++ r1 ++ l2.
Proof.
  intros Hc. cbn zeta. split_and!.
  - apply slice_app; [done|]. by left.
  - rewrite (app_assoc l1 r1). apply slice_app.
    + rewrite length_app. lia.
    + rewrite length_app. destruct Hc as [->|[-> Hc]]; [by left|by right].
  - set (rest := r1 ++ r2 ++ l2).
    rewrite -{1}(take_drop (length r2) rest).
    rewrite (splice_app l1 (take (length r2) rest) (drop (length r2) rest) r2); [done| |].
    { rewrite length_take /rest !length_app. lia. }
    assert (Hl2 : drop (length r1) (drop (length r2) rest) = l2).
    { rewrite drop_drop /rest (app_assoc r1 r2) drop_app_length' //.
      rewrite length_app. lia. }
    rewrite -(take_drop (length r1) (drop (length r2) rest)) Hl2.
    rewrite (app_assoc l1 r2).
    rewrite (splice_app (l1 ++ r2) _ l2 r1).
    + rewrite length_app. lia.
    + rewrite length_take length_drop /rest !length_app. lia.
    + by rewrite -app_assoc.
Qed.

End SliceFacts.

Section ArrayComponentFacts.
Context {V : Type}.
Implicit Types s : ArrayComponent.t V.
Import ArrayComponent.

Lemma scheduleNext_fields s :
  elements (scheduleNext s) = elements s ∧
  dollar_length (scheduleNext s) = dollar_length s ∧
  changes (scheduleNext s) = changes s ∧
  scheduled (scheduleNext s) = true.
Proof. rewrite /scheduleNext. by destruct (scheduled s) eqn:Hs. Qed.

Lemma clearElement_fields s i :
  elements (clearElement s i) = <[i := None]> (elements s) ∧
  dollar_length (clearElement s i) = dollar_length s ∧
  changes (clearElement s i) =
    changes s ++ (if bool_decide (is_Some (get s i)) then [Z.of_nat i] else []) ∧
  scheduled (clearElement s i) = scheduled s || bool_decide (is_Some (get s i)).
Proof.
  rewrite /clearElement /get.
  destruct (JsArray.read (elements s) i) as [x|] eqn:Hread.
  - match goal with |- context [scheduleNext ?x] =>
      destruct (scheduleNext_fields x) as (-> & -> & -> & ->) end.
    simpl. rewrite /JsArray.write bool_decide_eq_true_2.
    { by eapply read_Some_lt. }
    by rewrite orb_true_r.
  - rewrite insert_None_read_None // bool_decide_eq_false_2; [by intros [? [=]]|].
    by rewrite app_nil_r orb_false_r.
Qed.

Lemma filter_ext_in {A : Type} (P Q : A → Prop) `{!∀ x, Decision (P x)}
    `{!∀ x, Decision (Q x)} (l : list A) :
  (∀ x, x ∈ l → P x ↔ Q x) → filter P l = filter Q l.
Proof.
  induction l as [|x l IH]; intros Hext; [done|].
  rewrite !filter_cons. rewrite IH; [set_solver|].
  destruct (decide (P x)) as [Hp|Hp], (decide (Q x)) as [Hq|Hq]; try done.
  - destruct Hq. apply Hext; [left|done].
  - destruct Hp. apply Hext; [left|done].
Qed.

Lemma clearElements_fields (idxs : list nat) s :
  NoDup idxs →
  elements (foldl clearElement s idxs) =
    foldl (λ l i, <[i := None]> l) (elements s) idxs ∧
  dollar_length (foldl clearElement s idxs) = dollar_length s ∧
  changes (foldl clearElement s idxs) =
    changes s ++ (Z.of_nat <$> filter (λ i, is_Some (get s i)) idxs) ∧
  scheduled (foldl clearElement s idxs) =
    scheduled s || bool_decide (filter (λ i, is_Some (get s i)) idxs ≠ []).
Proof.
  revert s. induction idxs as [|i idxs IH]; intros s Hnd; simpl.
  { by rewrite app_nil_r orb_false_r. }
  apply NoDup_cons in Hnd as [Hi Hnd].
  destruct (IH (clearElement s i) Hnd) as (-> & -> & -> & ->).
  destruct (clearElement_fields s i) as (He & -> & -> & ->).
  rewrite He. split; [done|]. split; [done|].
  assert (Hf : filter (λ j, is_Some (get (clearElement s i) j)) idxs =
               filter (λ j, is_Some (get s j)) idxs).
  { apply filter_ext_in. intros j Hj. rewrite /get He read_insert_ne //.
    by intros ->. }
  rewrite Hf filter_cons. destruct (decide (is_Some (get s i))) as [Hs|Hs].
  - rewrite (bool_decide_eq_true_2 _ Hs) fmap_cons -app_assoc /=.
    split; [done|]. by rewrite orb_true_r.
  - rewrite (bool_decide_eq_false_2 _ Hs) app_nil_r orb_false_r. done.
Qed.

Lemma take_clear (idxs : list nat) (l : list (option V)) n :
  Forall (λ i, n ≤ i) idxs →
  take n (foldl (λ l i, <[i := None]> l) l idxs) = take n l ∧
  length (foldl (λ l i, <[i := None]> l) l idxs) = length l.
Proof.
  revert l. induction idxs as [|i idxs IH]; intros l Hall; [done|].
  apply Forall_cons in Hall as [Hi Hall]. simpl.
  destruct (IH (<[i := None]> l) Hall) as [-> ->].
  by rewrite take_insert_ge // length_insert.
Qed.

Lemma setLength_fields s n :
  elements (setLength s n) = resize n None (elements s) ∧
  dollar_length (setLength s n) = n ∧
  changes (setLength s n) =
    changes s ++
    (Z.of_nat <$> filter (λ i, is_Some (get s i))
                         (reverse (seq n (dollar_length s - n)))) ∧
  scheduled (setLength s n) =
    scheduled s ||
    bool_decide (filter (λ i, is_Some (get s i))
                        (reverse (seq n (dollar_length s - n))) ≠ []).
Proof.
  rewrite /setLength /JsArray.setLength. case_bool_decide as Hn; simpl.
  - destruct (clearElements_fields (reverse (seq n (dollar_length s - n))) s)
      as (-> & _ & -> & ->).
    { rewrite reverse_Permutation. apply NoDup_seq. }
    split; [|done].
    destruct (take_clear (reverse (seq n (dollar_length s - n))) (elements s) n)
      as [Ht Hl].
    { apply Forall_reverse, Forall_seq. lia. }
    by rewrite !resize_spec Ht Hl.
  - replace (dollar_length s - n) with 0 by lia. simpl.
    by rewrite app_nil_r orb_false_r.
Qed.

(** X15: [setLength] leaves the first [n] elements, padded
    with [undefined] up to [n], and both lengths at [n]; it sends the
    indexes cut off that held an element, from the highest down, and
    schedules a notification if there is one. *)
Theorem setLength_resizes (s : ArrayComponent.t V) (n : nat) :
  let dropped := filter (λ i, is_Some (get s i))
                        (reverse (seq n (dollar_length s - n))) in
  elements (setLength s n) = resize n None (elements s) ∧
  dollar_length (setLength s n) = n ∧
  lengths_agree (setLength s n) ∧
  changes (setLength s n) = changes s ++ (Z.of_nat <$> dropped) ∧
  scheduled (setLength s n) = scheduled s || bool_decide (dropped ≠ []).
Proof.
  cbn zeta. rewrite /lengths_agree.
  destruct (setLength_fields s n) as (-> & -> & -> & ->).
  by rewrite length_resize.
Qed.

Lemma set_fields s i v :
  lengths_agree s →
  elements (set s i v) =
    <[i := v]> (resize (dollar_length s `max` S i) None (elements s)) ∧
  dollar_length (set s i v) = dollar_length s `max` S i ∧
  changes (set s i v) =
    changes s ++
    (if bool_decide (is_Some (get s i) ∨ is_Some v) then [Z.of_nat i] else []) ∧
  scheduled (set s i v) =
    scheduled s || bool_decide (is_Some (get s i) ∨ is_Some v).
Proof.
  rewrite /lengths_agree /set /get. intros Hwf.
  assert (Hgrow :
    let s1 := if bool_decide (dollar_length s ≤ i) then setLength s (i + 1) else s in
    elements s1 = resize (dollar_length s `max` S i) None (elements s) ∧
    dollar_length s1 = dollar_length s `max` S i ∧
    changes s1 = changes s ∧ scheduled s1 = scheduled s).
  { cbn zeta. case_bool_decide as Hi.
    - destruct (setLength_fields s (i + 1)) as (-> & -> & -> & ->).
      replace (dollar_length s - (i + 1)) with 0 by lia. simpl.
      rewrite app_nil_r orb_false_r.
      replace (dollar_length s `max` S i) with (i + 1) by lia. done.
    - replace (dollar_length s `max` S i) with (length (elements s)) by lia.
      rewrite resize_all. split_and!; [done|lia|done..]. }
  cbn zeta in Hgrow. destruct Hgrow as (He & Hd & Hc & Hs).
  set (s1 := if bool_decide (dollar_length s ≤ i) then setLength s (i + 1) else s) in *.
  assert (Hread : JsArray.read (elements s1) i = JsArray.read (elements s) i).
  { rewrite He read_resize bool_decide_eq_true_2 //. lia. }
  rewrite Hread. case_bool_decide as Hcond.
  - match goal with |- context [scheduleNext ?x] =>
      destruct (scheduleNext_fields x) as (-> & -> & -> & ->) end.
    simpl. rewrite /JsArray.write He bool_decide_eq_true_2.
    { rewrite length_resize. lia. }
    by rewrite Hd Hc orb_true_r.
  - rewrite Hd Hc Hs app_nil_r orb_false_r. split_and!; try done.
    rewrite He list_insert_id //.
    assert (JsArray.read (elements s1) i = v) as Hv.
    { rewrite Hread. destruct (JsArray.read (elements s) i) eqn:Hr, v; try done;
        destruct Hcond; eauto. }
    rewrite He /JsArray.read in Hv.
    destruct (resize _ _ _ !! i) as [x|] eqn:Hl; [by simpl in Hv; subst|].
    apply lookup_ge_None in Hl. rewrite length_resize in Hl. lia.
Qed.

(** X16: on a component whose two lengths agree, [set] makes
    [get] at the index answer the value and leaves the other indexes
    as they were; the length grows to hold the index; the index is
    sent unless an [undefined] overwrote an [undefined]. *)
Theorem set_then_get (s : ArrayComponent.t V) (i : nat) (v : option V) :
  lengths_agree s →
  get (set s i v) i = v ∧
  (∀ j, j ≠ i → get (set s i v) j = get s j) ∧
  dollar_length (set s i v) = dollar_length s `max` S i ∧
  lengths_agree (set s i v) ∧
  changes (set s i v) =
    changes s ++
    (if bool_decide (is_Some (get s i) ∨ is_Some v) then [Z.of_nat i] else []).
Proof.
  intros Hwf. destruct (set_fields s i v Hwf) as (He & Hd & Hc & _).
  rewrite /lengths_agree /get He Hd Hc. split_and!; try done.
  - rewrite read_insert // length_resize. lia.
  - intros j Hj. rewrite read_insert_ne // read_resize.
    destruct (decide (j < dollar_length s `max` S i)) as [Hlt|Hge].
    + by rewrite bool_decide_eq_true_2.
    + rewrite bool_decide_eq_false_2 // read_past_end //. rewrite Hwf. lia.
  - by rewrite length_insert length_resize.
Qed.

(** X17: on a component whose two lengths agree, [push]
    appends the value, also when it is [undefined], and sends the new
    index only when it is not. *)
Theorem push_appends (s : ArrayComponent.t V) (v : option V) :
  lengths_agree s →
  elements (push s v) = elements s ++ [v] ∧
  dollar_length (push s v) = S (dollar_length s) ∧
  lengths_agree (push s v) ∧
  changes (push s v) =
    changes s ++ (if v is Some _ then [Z.of_nat (dollar_length s)] else []).
Proof.
  intros Hwf. rewrite /push.
  destruct (set_fields s (dollar_length s) v Hwf) as (He & Hd & Hc & _).
  rewrite /lengths_agree in Hwf.
  rewrite /lengths_agree He Hd Hc.
  replace (dollar_length s `max` S (dollar_length s)) with (S (dollar_length s)) by lia.
  assert (Hr : resize (S (dollar_length s)) None (elements s) = elements s ++ [None]).
  { rewrite resize_spec take_ge; [lia|].
    by replace (S (dollar_length s) - length (elements s)) with 1 by lia. }
  rewrite Hr. split_and!; try done.
  - rewrite -Hwf. rewrite insert_app_r_alt // Nat.sub_diag //.
  - rewrite length_insert length_app /=. lia.
  - rewrite /get read_past_end; [lia|]. f_equal.
    destruct v.
    + rewrite bool_decide_eq_true_2 //. right. eauto.
    + rewrite bool_decide_eq_false_2 //. by intros [[? [=]]|[? [=]]].
Qed.

End ArrayComponentFacts.

Section MoveFacts.
Context {V : Type}.
Implicit Types s : ArrayComponent.t V.
Import ArrayComponent.

Lemma sendNexts_fields (idxs : list Z) s :
  elements (foldl changes_sendNext s idxs) = elements s ∧
  dollar_length (foldl changes_sendNext s idxs) = dollar_length s ∧
  changes (foldl changes_sendNext s idxs) = changes s ++ idxs ∧
  scheduled (foldl changes_sendNext s idxs) = scheduled s.
Proof.
  revert s. induction idxs as [|i idxs IH]; intros s; simpl.
  - by rewrite app_nil_r.
  - destruct (IH (changes_sendNext s i)) as (-> & -> & -> & ->).
    by rewrite /= -app_assoc.
Qed.

Lemma scheduleNext_obs s :
  observers (scheduleNext s) = observers s ∧ notified (scheduleNext s) = notified s.
Proof. rewrite /scheduleNext. by destruct (scheduled s). Qed.

Lemma clearElement_obs s i :
  observers (clearElement s i) = observers s ∧
  notified (clearElement s i) = notified s.
Proof.
  rewrite /clearElement. destruct (JsArray.read (elements s) i); [|done].
  match goal with |- context [scheduleNext ?x] =>
    destruct (scheduleNext_obs x) as [-> ->] end.
  done.
Qed.

Lemma clearElements_obs (idxs : list nat) s :
  observers (foldl clearElement s idxs) = observers s ∧
  notified (foldl clearElement s idxs) = notified s.
Proof.
  revert s. induction idxs as [|i idxs IH]; intros s; [done|]. simpl.
  destruct (IH (clearElement s i)) as [-> ->]. apply clearElement_obs.
Qed.

Lemma setLength_obs s n :
  observers (setLength s n) = observers s ∧ notified (setLength s n) = notified s.
Proof.
  rewrite /setLength. case_bool_decide; [|done]. simpl.
  apply clearElements_obs.
Qed.

Lemma set_obs s i v :
  observers (set s i v) = observers s ∧ notified (set s i v) = notified s.
Proof.
  rewrite /set.
  assert (Hs1 : ∀ s1 : ArrayComponent.t V,
    s1 = (if bool_decide (dollar_length s ≤ i) then setLength s (i + 1) else s) →
    observers s1 = observers s ∧ notified s1 = notified s).
  { intros s1 ->. case_bool_decide; [apply setLength_obs|done]. }
  destruct (Hs1 _ eq_refl) as [Ho Hn].
  set (s1 := if bool_decide (dollar_length s ≤ i) then setLength s (i + 1) else s) in *.
  destruct (bool_decide (is_Some (JsArray.read (elements s1) i) ∨ is_Some v)); [|done].
  match goal with |- context [scheduleNext ?x] =>
    destruct (scheduleNext_obs x) as [-> ->] end.
  done.
Qed.

Lemma sendNexts_obs (idxs : list Z) s :
  observers (foldl changes_sendNext s idxs) = observers s ∧
  notified (foldl changes_sendNext s idxs) = notified s.
Proof.
  revert s. induction idxs as [|i idxs IH]; intros s; [done|]. simpl.
  by destruct (IH (changes_sendNext s i)) as [-> ->].
Qed.

Lemma move_obs s (destination source count : Z) :
  observers (move s destination source count) = observers s ∧
  notified (move s destination source count) = notified s.
Proof.
  rewrite /move.
  repeat (case_bool_decide; try lia); try done;
    match goal with |- context [scheduleNext ?x] =>
      destruct (scheduleNext_obs x) as [-> ->] end;
    match goal with |- context [foldl changes_sendNext ?x ?l] =>
      destruct (sendNexts_obs l x) as [-> ->] end;
    done.
Qed.

(** [move] on arguments that need no clamping. *)
Lemma move_in_range s (destination source count : Z) :
  (0 ≤ source)%Z → (0 ≤ count)%Z →
  (source + count ≤ Z.of_nat (length (elements s)))%Z →
  (0 ≤ destination ≤ Z.of_nat (length (elements s)) - 1)%Z →
  destination ≠ source →
  let a := Z.min destination source in
  let b := if bool_decide (destination < source)%Z then source
           else (source + count)%Z in
  let c := if bool_decide (destination < source)%Z then (source + count)%Z
           else (destination + count)%Z in
  let s_ := JsArray.slice (elements s) a b in
  let t_ := JsArray.slice (elements s) b c in
  elements (move s destination source count) =
    JsArray.splice (JsArray.splice (elements s) a (Z.of_nat (length t_)) t_)
                   (a + Z.of_nat (length t_)) (Z.of_nat (length s_)) s_ ∧
  dollar_length (move s destination source count) = dollar_length s ∧
  changes (move s destination source count) = changes s ++ seqZ a (c - a) ∧
  scheduled (move s destination source count) = true.
Proof.
  intros Hs Hc Hsc Hd Hne. cbn zeta. rewrite /move.
  rewrite (bool_decide_eq_false_2 (destination > _)%Z); [lia|].
  rewrite (bool_decide_eq_false_2 (destination < 0)%Z); [lia|].
  rewrite (bool_decide_eq_false_2 (source > _)%Z); [lia|].
  rewrite (bool_decide_eq_false_2 (source < 0)%Z); [lia|].
  rewrite (bool_decide_eq_false_2 (count > _)%Z); [lia|].
  rewrite (bool_decide_eq_false_2 (_ ∨ _)); [lia|].
  destruct (decide (destination < source)%Z) as [Hlt|Hge].
  - rewrite !(bool_decide_eq_true_2 (destination < source)%Z) //.
    replace (destination `min` source)%Z with destination by lia.
    match goal with |- context [scheduleNext ?x] =>
      destruct (scheduleNext_fields x) as (-> & -> & -> & ->) end.
    match goal with |- context [foldl changes_sendNext ?x ?l] =>
      destruct (sendNexts_fields l x) as (-> & -> & -> & _) end.
    done.
  - rewrite !(bool_decide_eq_false_2 (destination < source)%Z) //.
    replace (destination `min` source)%Z with source by lia.
    match goal with |- context [scheduleNext ?x] =>
      destruct (scheduleNext_fields x) as (-> & -> & -> & ->) end.
    match goal with |- context [foldl changes_sendNext ?x ?l] =>
      destruct (sendNexts_fields l x) as (-> & -> & -> & _) end.
    done.
Qed.

(** X18: [move] takes the block of [count] elements at
    [source] and puts it back so that it starts at [destination],
    towards the end or towards the front; the elements in between
    shift over, the others stay, and the indexes from the lower of
    the two positions to the end of the higher block are sent. *)
Theorem move_block (s : ArrayComponent.t V) (l1 blk mid l2 : list (option V)) :
  blk ≠ [] → mid ≠ [] →
  (elements s = l1 ++ blk ++ mid ++ l2 →
   let s' := move s (Z.of_nat (length l1 + length mid)) (Z.of_nat (length l1))
                    (Z.of_nat (length blk)) in
   elements s' = l1 ++ mid ++ blk ++ l2 ∧
   dollar_length s' = dollar_length s ∧
   changes s' = changes s ++
                seqZ (Z.of_nat (length l1)) (Z.of_nat (length blk + length mid))) ∧
  (elements s = l1 ++ mid ++ blk ++ l2 →
   let s' := move s (Z.of_nat (length l1)) (Z.of_nat (length l1 + length mid))
                    (Z.of_nat (length blk)) in
   elements s' = l1 ++ blk ++ mid ++ l2 ∧
   dollar_length s' = dollar_length s ∧
   changes s' = changes s ++
                seqZ (Z.of_nat (length l1)) (Z.of_nat (length blk + length mid))).
Proof.
  intros Hblk Hmid.
  assert (0 < length blk) by (destruct blk; [done|simpl; lia]).
  assert (0 < length mid) by (destruct mid; [done|simpl; lia]).
  split; intros Hl; cbn zeta.
  - destruct (move_in_range s (Z.of_nat (length l1 + length mid))
                (Z.of_nat (length l1)) (Z.of_nat (length blk)))
      as (-> & -> & -> & _); rewrite ?Hl ?length_app; try lia.
    cbn zeta. rewrite (bool_decide_eq_false_2 (_ < _)%Z); [lia|].
    replace (_ `min` _)%Z with (Z.of_nat (length l1)) by lia.
    replace (Z.of_nat (length l1) + Z.of_nat (length blk))%Z
      with (Z.of_nat (length l1 + length blk)) by lia.
    destruct (swap_regions l1 blk mid l2
                (Z.of_nat (length l1 + length mid) + Z.of_nat (length blk)))
      as (-> & -> & ->); [left; lia|].
    split_and!; try done. do 2 f_equal. lia.
  - destruct (move_in_range s (Z.of_nat (length l1))
                (Z.of_nat (length l1 + length mid)) (Z.of_nat (length blk)))
      as (-> & -> & -> & _); rewrite ?Hl ?length_app; try lia.
    cbn zeta. rewrite (bool_decide_eq_true_2 (_ < _)%Z); [lia|].
    replace (_ `min` _)%Z with (Z.of_nat (length l1)) by lia.
    destruct (swap_regions l1 mid blk l2
                (Z.of_nat (length l1 + length mid) + Z.of_nat (length blk)))
      as (-> & -> & ->); [left; lia|].
    split_and!; try done. do 2 f_equal. lia.
Qed.

(** X19: a [destination] so far back that the block would
    stick out puts the block at the very end; the indexes sent still
    run up to where the block was asked to end, past the last
    element when [destination] is the last index and the block has
    two elements or more. *)
Theorem move_past_end (s : ArrayComponent.t V) (l1 blk mid : list (option V))
    (destination : Z) :
  blk ≠ [] → mid ≠ [] →
  elements s = l1 ++ blk ++ mid →
  (Z.of_nat (length l1 + length mid) ≤ destination)%Z →
  let s' := move s destination (Z.of_nat (length l1)) (Z.of_nat (length blk)) in
  let last := (Z.of_nat (length (elements s)) - 1)%Z in
  elements s' = l1 ++ mid ++ blk ∧
  changes s' =
    changes s ++
    seqZ (Z.of_nat (length l1))
         (Z.min destination last + Z.of_nat (length blk) - Z.of_nat (length l1)) ∧
  ((last ≤ destination)%Z → 2 ≤ length blk →
   Z.of_nat (length (elements s)) ∈ changes s').
Proof.
  intros Hblk Hmid Hl Hd. cbn zeta.
  assert (0 < length blk) by (destruct blk; [done|simpl; lia]).
  assert (0 < length mid) by (destruct mid; [done|simpl; lia]).
  assert (Hlen : length (elements s) = length l1 + length blk + length mid).
  { rewrite Hl !length_app. lia. }
  assert (Hclamp :
    move s destination (Z.of_nat (length l1)) (Z.of_nat (length blk)) =
    move s (Z.min destination (Z.of_nat (length (elements s)) - 1))
           (Z.of_nat (length l1)) (Z.of_nat (length blk))).
  { rewrite /move. destruct (decide (destination > Z.of_nat (length (elements s)) - 1)%Z).
    - rewrite (bool_decide_eq_true_2 (destination > _)%Z) //.
      replace (Z.min _ _) with (Z.of_nat (length (elements s)) - 1)%Z by lia.
      rewrite (bool_decide_eq_false_2 (_ - 1 > _ - 1)%Z) //. lia.
    - rewrite (bool_decide_eq_false_2 (destination > _)%Z) //.
      replace (Z.min _ _) with destination by lia.
      rewrite (bool_decide_eq_false_2 (destination > _)%Z) //. }
  rewrite Hclamp.
  destruct (move_in_range s (Z.min destination (Z.of_nat (length (elements s)) - 1))
              (Z.of_nat (length l1)) (Z.of_nat (length blk)))
    as (-> & _ & -> & _); try lia.
  cbn zeta. rewrite (bool_decide_eq_false_2 (_ < _)%Z); [lia|].
  replace (Z.min (Z.min _ _) _) with (Z.of_nat (length l1)) by lia.
  replace (Z.of_nat (length l1) + Z.of_nat (length blk))%Z
    with (Z.of_nat (length l1 + length blk)) by lia.
  pose proof (swap_regions l1 blk mid []
                (Z.min destination (Z.of_nat (length (elements s)) - 1)
                 + Z.of_nat (length blk))) as Hswap.
  cbn zeta in Hswap. rewrite !app_nil_r -Hl in Hswap.
  destruct Hswap as (-> & -> & ->); [right; split; [done|lia]|].
  split_and!; try done.
  intros Hlast Hblk2. apply elem_of_app. right.
  apply elem_of_seqZ. lia.
Qed.

Lemma regions_Permutation (l : list (option V)) (a b c : Z) :
  (0 ≤ a ≤ b)%Z → (b ≤ Z.of_nat (length l))%Z → (b ≤ c)%Z →
  JsArray.splice
    (JsArray.splice l a (Z.of_nat (length (JsArray.slice l b c))) (JsArray.slice l b c))
    (a + Z.of_nat (length (JsArray.slice l b c)))
    (Z.of_nat (length (JsArray.slice l a b))) (JsArray.slice l a b) ≡ₚ l.
Proof.
  intros Ha Hb Hc.
  set (a' := Z.to_nat a). set (b' := Z.to_nat b).
  set (c' := Z.to_nat (Z.min c (Z.of_nat (length l)))).
  set (l1 := take a' l). set (r1 := take (b' - a') (drop a' l)).
  set (r2 := take (c' - b') (drop b' l)). set (l2 := drop c' l).
  assert (Hdecomp : l = l1 ++ r1 ++ r2 ++ l2).
  { rewrite /l1 /r1 /r2 /l2.
    rewrite -{1}(take_drop a' l). f_equal.
    rewrite -{1}(take_drop (b' - a') (drop a' l)). f_equal.
    rewrite drop_drop. replace (a' + (b' - a')) with b' by lia.
    rewrite -{1}(take_drop (c' - b') (drop b' l)). f_equal.
    rewrite drop_drop. f_equal. lia. }
  assert (Hl1 : length l1 = a') by (rewrite /l1 length_take; lia).
  assert (Hr1 : length r1 = b' - a') by (rewrite /r1 length_take length_drop; lia).
  assert (Hr2 : length r2 = c' - b') by (rewrite /r2 length_take length_drop; lia).
  pose proof (swap_regions l1 r1 r2 l2 c) as Hswap. cbn zeta in Hswap.
  rewrite -Hdecomp in Hswap.
  replace (Z.of_nat (length l1)) with a in Hswap by lia.
  replace (Z.of_nat (length l1 + length r1)) with b in Hswap by lia.
  destruct Hswap as (-> & -> & ->).
  { destruct (decide (c ≤ Z.of_nat (length l))%Z); [left; lia|].
    right. split; [|lia]. rewrite /l2 drop_ge //. lia. }
  rewrite {1}Hdecomp.
  f_equiv. rewrite !app_assoc. f_equiv. apply Permutation_app_comm.
Qed.

(** [move] only rearranges. *)
Lemma move_Permutation s (destination source count : Z) :
  elements (move s destination source count) ≡ₚ elements s ∧
  dollar_length (move s destination source count) = dollar_length s.
Proof.
  rewrite /move.
  repeat (case_bool_decide; try lia); try done;
    match goal with |- context [scheduleNext ?x] =>
      destruct (scheduleNext_fields x) as (-> & -> & _) end;
    match goal with |- context [foldl changes_sendNext ?x ?l] =>
      destruct (sendNexts_fields l x) as (-> & -> & _) end;
    (split; [|done]); simpl; apply regions_Permutation; lia.
Qed.

Lemma onNexts_fields (l : list Observer) s :
  let s' := foldl (λ s ver, if obs_onNext ver then onNext s ver else s) s l in
  elements s' = elements s ∧ dollar_length s' = dollar_length s ∧
  changes s' = changes s ∧ observers s' = observers s ∧
  scheduled s' = scheduled s ∧
  notified s' = notified s ++ (obs_ref <$> filter (λ ver, obs_onNext ver = true) l).
Proof.
  cbn zeta. revert s. induction l as [|ver l IH]; intros s; simpl.
  - by rewrite app_nil_r.
  - destruct (IH (if obs_onNext ver then onNext s ver else s))
      as (-> & -> & -> & -> & -> & ->).
    rewrite filter_cons. destruct (decide (obs_onNext ver = true)) as [Hon|Hon].
    + by rewrite Hon /= -app_assoc.
    + apply not_true_is_false in Hon. by rewrite Hon.
Qed.

Lemma sendNext_fields s :
  elements (sendNext s) = elements s ∧
  dollar_length (sendNext s) = dollar_length s ∧
  changes (sendNext s) = changes s ∧
  observers (sendNext s) = observers s ∧
  scheduled (sendNext s) = false ∧
  notified (sendNext s) =
    notified s ++ (obs_ref <$> filter (λ ver, obs_onNext ver = true) (registered s)).
Proof.
  rewrite /sendNext /registered /=. destruct (observers s) as [l|] eqn:Hobs; simpl.
  - match goal with |- context [foldl _ ?x l] =>
      destruct (onNexts_fields l x) as (-> & -> & -> & -> & -> & ->) end.
    done.
  - by rewrite app_nil_r.
Qed.

Lemma removeObserver_fields s observer :
  elements (removeObserver s observer) = elements s ∧
  dollar_length (removeObserver s observer) = dollar_length s ∧
  changes (removeObserver s observer) = changes s ∧
  scheduled (removeObserver s observer) = scheduled s ∧
  notified (removeObserver s observer) = notified s ∧
  registered (removeObserver s observer) =
    filter (λ ver, obs_ref observer ≠ obs_ref ver) (registered s) ∧
  observers (removeObserver s observer) ≠ Some [].
Proof.
  rewrite /removeObserver /registered.
  destruct (observers s) as [l|] eqn:Hobs; simpl; [|by rewrite Hobs].
  split_and!; try done.
  - case_bool_decide as Hl; [|done]. simpl. by apply nil_length_inv in Hl as ->.
  - case_bool_decide as Hl; [done|]. intros [= Hnil]. by rewrite Hnil in Hl.
Qed.

(** X20: whatever is done to a new array component,
    [elements.length] and [$length] agree, and [observers] is never
    an empty array. *)
Theorem operations_keep_lengths (ops : list (ArrayComponent.Op V)) :
  lengths_agree (foldl apply (@new V) ops) ∧
  observers (foldl apply (@new V) ops) ≠ Some [].
Proof.
  assert (Hstep : ∀ s op,
    lengths_agree s ∧ observers s ≠ Some [] →
    lengths_agree (apply s op) ∧ observers (apply s op) ≠ Some []).
  { intros s op [Hwf Hobs]. rewrite /lengths_agree.
    destruct op as [n|i v|v|d src c|o|o|]; cbn [apply].
    - destruct (setLength_fields s n) as (-> & -> & _).
      rewrite length_resize. split; [done|].
      by destruct (setLength_obs s n) as [-> _].
    - destruct (set_fields s i v Hwf) as (-> & -> & _).
      rewrite length_insert length_resize. split; [done|].
      by destruct (set_obs s i v) as [-> _].
    - rewrite /push. destruct (set_fields s (dollar_length s) v Hwf) as (-> & -> & _).
      rewrite length_insert length_resize. split; [done|].
      by destruct (set_obs s (dollar_length s) v) as [-> _].
    - destruct (move_Permutation s d src c) as [-> ->]. split; [done|].
      by destruct (move_obs s d src c) as [-> _].
    - rewrite /addObserver /storeObserver.
      destruct (obs_onNext o), (observers s) as [l|]; simpl; split; try done;
        intros [= Hnil]; by destruct l.
    - destruct (removeObserver_fields s o) as (-> & -> & _ & _ & _ & _ & Hne). done.
    - destruct (sendNext_fields s) as (-> & -> & _ & -> & _). done. }
  assert (Hall : ∀ s, lengths_agree s ∧ observers s ≠ Some [] →
                      lengths_agree (foldl apply s ops) ∧
                      observers (foldl apply s ops) ≠ Some []).
  { induction ops as [|op ops IH]; intros s Hwf; [done|].
    simpl. apply IH. by apply Hstep. }
  by apply Hall.
Qed.

(** X21: once [removeObserver] has run, [sendNext] tells the
    other observers that have an [onNext], in the order they were
    added, and not the one removed, however often it had been added;
    it takes [scheduled] down. *)
Theorem removeObserver_silences (s : ArrayComponent.t V) (observer : Observer) :
  let s' := sendNext (removeObserver s observer) in
  notified s' =
    notified s ++
    (obs_ref <$> filter (λ ver, obs_onNext ver = true ∧ obs_ref observer ≠ obs_ref ver)
                        (registered s)) ∧
  obs_ref observer ∉ drop (length (notified s)) (notified s') ∧
  scheduled s' = false.
Proof.
  cbn zeta.
  destruct (sendNext_fields (removeObserver s observer)) as (_ & _ & _ & _ & -> & ->).
  destruct (removeObserver_fields s observer) as (_ & _ & _ & _ & -> & -> & _).
  rewrite list_filter_filter. split_and!; [done| |done].
  rewrite drop_app_length. intros (ver & Href & Hin)%list_elem_of_fmap.
  apply list_elem_of_filter in Hin as [[_ Hne] _]. done.
Qed.

(** X22: [addObserver] tells the observer at once, and a
    [removeObserver] after it leaves [observers] as it was before,
    if the observer was not registered. *)
Theorem addObserver_then_remove (s s' : ArrayComponent.t V) (observer : Observer) :
  observers s ≠ Some [] →
  (∀ ver, ver ∈ registered s → obs_ref observer ≠ obs_ref ver) →
  addObserver s observer = Done s' →
  notified s' = notified s ++ [obs_ref observer] ∧
  registered s' = registered s ++ [observer] ∧
  observers (removeObserver s' observer) = observers s.
Proof.
  intros Hne Hfresh. rewrite /addObserver /storeObserver /registered.
  destruct (obs_onNext observer); [|done]. intros [= <-]. simpl.
  split; [done|]. rewrite /removeObserver /registered /= in Hfresh |- *.
  destruct (observers s) as [l|] eqn:Hobs; simpl.
  - split; [done|]. rewrite filter_app filter_cons decide_False; [by intros Hx; apply Hx|].
    rewrite filter_nil app_nil_r.
    assert (Hl : ∀ l' : list Observer,
              (∀ ver, ver ∈ l' → obs_ref observer ≠ obs_ref ver) →
              filter (λ ver, obs_ref observer ≠ obs_ref ver) l' = l').
    { induction l' as [|x l' IH]; intros Hl'; [done|].
      rewrite filter_cons decide_True; [apply Hl'; left|].
      rewrite IH //. intros ver Hin. apply Hl'. by right. }
    rewrite Hl // bool_decide_eq_false_2 //.
    destruct l; [done|simpl; lia].
  - split; [done|]. rewrite filter_cons decide_False; [by intros Hx; apply Hx|]. done.
Qed.

End MoveFacts.

Lemma set_then_get_witness :
  ArrayComponent.lengths_agree (ArrayComponent.mk [Some 1; None] 2 [] None false []) ∧
  ArrayComponent.get
    (ArrayComponent.set (ArrayComponent.mk [Some 1; None] 2 [] None false []) 4 (Some 7)) 4 =
    Some 7.
Proof.
  assert (Hwf : ArrayComponent.lengths_agree
                  (ArrayComponent.mk [Some 1; None] 2 [] None false [])) by reflexivity.
  split; [exact Hwf|].
  exact (proj1 (set_then_get _ 4 (Some 7) Hwf)).
Defined.

Lemma push_appends_witness :
  ArrayComponent.lengths_agree (ArrayComponent.mk [Some 1; None] 2 [] None false []) ∧
  ArrayComponent.elements
    (ArrayComponent.push (ArrayComponent.mk [Some 1; None] 2 [] None false []) None) =
    [Some 1; None; None].
Proof.
  assert (Hwf : ArrayComponent.lengths_agree
                  (ArrayComponent.mk [Some 1; None] 2 [] None false [])) by reflexivity.
  split; [exact Hwf|].
  exact (proj1 (push_appends _ None Hwf)).
Defined.

Lemma move_block_witness :
  [Some 1; Some 2] ≠ [] ∧ [Some 3; Some 4] ≠ [] ∧
  ArrayComponent.elements
    (ArrayComponent.move
       (ArrayComponent.mk [Some 0; Some 1; Some 2; Some 3; Some 4; Some 5] 6 [] None false [])
       3 1 2) =
    [Some 0; Some 3; Some 4; Some 1; Some 2; Some 5].
Proof.
  assert (Hblk : [Some 1; Some 2] ≠ []) by discriminate.
  assert (Hmid : [Some 3; Some 4] ≠ []) by discriminate.
  split; [exact Hblk|]. split; [exact Hmid|].
  exact (proj1 (proj1 (move_block
    (ArrayComponent.mk [Some 0; Some 1; Some 2; Some 3; Some 4; Some 5] 6 [] None false [])
    [Some 0] [Some 1; Some 2] [Some 3; Some 4] [Some 5] Hblk Hmid) eq_refl)).
Defined.

Lemma move_past_end_witness :
  [Some 1; Some 2] ≠ [] ∧ [Some 3; Some 4; Some 5] ≠ [] ∧
  (Z.of_nat (length [Some 0] + length [Some 3; Some 4; Some 5]) ≤ 5)%Z ∧
  ArrayComponent.elements
    (ArrayComponent.move
       (ArrayComponent.mk [Some 0; Some 1; Some 2; Some 3; Some 4; Some 5] 6 [] None false [])
       5 1 2) =
    [Some 0; Some 3; Some 4; Some 5; Some 1; Some 2] ∧
  6%Z ∈ ArrayComponent.changes
          (ArrayComponent.move
             (ArrayComponent.mk [Some 0; Some 1; Some 2; Some 3; Some 4; Some 5]
                                6 [] None false [])
             5 1 2).
Proof.
  assert (Hblk : [Some 1; Some 2] ≠ []) by discriminate.
  assert (Hmid : [Some 3; Some 4; Some 5] ≠ []) by discriminate.
  assert (Hd : (Z.of_nat (length [Some 0] + length [Some 3; Some 4; Some 5]) ≤ 5)%Z)
    by (simpl; lia).
  split; [exact Hblk|]. split; [exact Hmid|]. split; [exact Hd|].
  pose proof (move_past_end
    (ArrayComponent.mk [Some 0; Some 1; Some 2; Some 3; Some 4; Some 5] 6 [] None false [])
    [Some 0] [Some 1; Some 2] [Some 3; Some 4; Some 5] 5 Hblk Hmid eq_refl Hd)
    as (Hel & _ & Hsent).
  split; [exact Hel|]. apply Hsent; simpl; lia.
Defined.

Lemma addObserver_then_remove_witness :
  ∃ s' : ArrayComponent.t nat,
    ArrayComponent.observers (@ArrayComponent.new nat) ≠ Some [] ∧
    ArrayComponent.addObserver ArrayComponent.new
      (ArrayComponent.mkObserver 1 true) = Done s' ∧
    ArrayComponent.observers
      (ArrayComponent.removeObserver s' (ArrayComponent.mkObserver 1 true)) = None.
Proof.
  assert (Hne : ArrayComponent.observers (@ArrayComponent.new nat) ≠ Some [])
    by discriminate.
  assert (Hfresh : ∀ ver,
            ver ∈ ArrayComponent.registered (@ArrayComponent.new nat) →
            ArrayComponent.obs_ref (ArrayComponent.mkObserver 1 true) ≠
            ArrayComponent.obs_ref ver).
  { intros ver Hin. simpl in Hin. by apply elem_of_nil in Hin. }
  eexists. split; [exact Hne|]. split; [reflexivity|].
  exact (proj2 (proj2 (addObserver_then_remove ArrayComponent.new _
                         (ArrayComponent.mkObserver 1 true) Hne Hfresh eq_refl))).
Defined.

Section TouchLists.
Context `{Externals}.

Lemma touchDependencies_pairs
    (f : PropertyModel → Endpoint → Endpoint → outcome PropertyModel)
    (s : PropertyModel) (cc1 : Endpoint) (cc2s : list Endpoint) :
  foldM (λ s cc2, f s cc1 cc2) s cc2s =
  foldM (λ s p, f s p.1 p.2) s (pair cc1 <$> cc2s).
Proof.
  revert s. induction cc2s as [|cc2 cc2s IH]; intros s; [done|].
  simpl. destruct (f s cc1 cc2); simpl; [apply IH|done..].
Qed.

(** X23: for a source that is no inherited name,
    [addTouchDependencies] returns and makes every target a
    dependency of the one source and touches no other source;
    [removeTouchDependencies] returns and takes the targets out of a
    source's duplicate-free list. *)
Theorem touchDependencies_lists (s : PropertyModel) (cc1 : Endpoint)
    (cc2s : list Endpoint) :
  plainSource cc1 →
  (∃ s', addTouchDependencies s cc1 cc2s = Done s' ∧
         ∀ c d, d ∈ depsOf s' c ↔
                d ∈ depsOf s c ∨ (c = endpointId cc1 ∧ d ∈ endpointId <$> cc2s)) ∧
  ((∀ c, NoDup (depsOf s c)) →
   ∃ s', removeTouchDependencies s cc1 cc2s = Done s' ∧
         ∀ c d, d ∈ depsOf s' c ↔
                d ∈ depsOf s c ∧ ¬ (c = endpointId cc1 ∧ d ∈ endpointId <$> cc2s)).
Proof.
  intros Hplain.
  assert (Hpairs : ∀ c d,
    (∃ a b, (a, b) ∈ pair cc1 <$> cc2s ∧ c = endpointId a ∧ d = endpointId b) ↔
    c = endpointId cc1 ∧ d ∈ endpointId <$> cc2s).
  { intros c d. split.
    - intros (a & b & (cc2 & [= -> ->] & Hin)%list_elem_of_fmap & -> & ->).
      split; [done|]. apply list_elem_of_fmap. by exists cc2.
    - intros [-> (cc2 & -> & Hin)%list_elem_of_fmap]. exists cc1, cc2.
      split; [|done]. apply list_elem_of_fmap. by exists cc2. }
  assert (Hall : Forall (λ p : Endpoint * Endpoint, plainSource p.1)
                   (pair cc1 <$> cc2s)).
  { apply Forall_fmap, Forall_forall. by intros cc2 _. }
  split.
  - eexists. split.
    { rewrite /addTouchDependencies (touchDependencies_pairs addTouchDependency).
      by apply add_pairs_plain. }
    intros c d. by rewrite depsOf_add_pairs Hpairs.
  - intros Hnd. eexists. split.
    { rewrite /removeTouchDependencies
        (touchDependencies_pairs removeTouchDependency).
      by apply remove_pairs_plain. }
    intros c d. by rewrite depsOf_remove_pairs // Hpairs.
Qed.

End TouchLists.

Lemma touchDependencies_lists_witness :
  @plainSource Sample.externals (OfVariable "b") ∧
  (∃ s', @addTouchDependencies Sample.externals Scenario.touchy (OfVariable "b")
           [OfConstraint "k1"; OfConstraint "k2"] = Done s' ∧
         ∀ c d, d ∈ depsOf s' c ↔
                d ∈ depsOf Scenario.touchy c ∨
                (c = @endpointId Sample.externals (OfVariable "b") ∧
                 d ∈ @endpointId Sample.externals <$>
                       [OfConstraint "k1"; OfConstraint "k2"])) ∧
  ((∀ c, NoDup (depsOf Scenario.touchy c)) →
   ∃ s', @removeTouchDependencies Sample.externals Scenario.touchy (OfVariable "b")
           [OfConstraint "k1"; OfConstraint "k2"] = Done s' ∧
         ∀ c d, d ∈ depsOf s' c ↔
                d ∈ depsOf Scenario.touchy c ∧
                ¬ (c = @endpointId Sample.externals (OfVariable "b") ∧
                   d ∈ @endpointId Sample.externals <$>
                         [OfConstraint "k1"; OfConstraint "k2"])).
Proof.
  split; [exact (sample_plainSource_variable "b")|].
  exact (@touchDependencies_lists Sample.externals Scenario.touchy (OfVariable "b")
           [OfConstraint "k1"; OfConstraint "k2"] (sample_plainSource_variable "b")).
Defined.
